(** * shmmgr.c: the shared-memory buddy allocator

    A shallow embedding of [src/shmmgr.c] and the properties of its
    specification.  The segment is modelled as a typed store addressed by
    segment offsets; every C function of the file becomes a function of a
    state-and-error monad over that store. *)

From stdpp Require Import gmap list.
From Stdlib Require Import ZArith Lia.

Local Open Scope Z_scope.

(** ** Machine integers *)

Module Int.

(** [uint64_t], [size_t], [offset_t], [unsigned long] and pointers: the
    value modulo 2^64.  ([offset_t] is declared in [pg_boost.h]; the
    source prints [segment_size] with [PRIu64].) *)
Definition u64 (z : Z) : Z := z mod 2 ^ 64.

(** [int]: 32 bits, two's complement. *)
Definition s32 (z : Z) : Z := (z + 2 ^ 31) mod 2 ^ 32 - 2 ^ 31.

(** [uint8_t], the type of [shmchunk_t.mclass]. *)
Definition u8 (z : Z) : Z := z mod 2 ^ 8.

(** [1 << n] on [int].  A shift count outside [0, 31] has no defined
    result ([None]); [1 << 31] is given its two's complement value. *)
Definition shl1 (n : Z) : option Z :=
  if (0 <=? n) && (n <? 32) then Some (s32 (Z.shiftl 1 n)) else None.

(** [~x] on [int]. *)
Definition not (x : Z) : Z := Z.lnot x.

End Int.

(** ** Constants of the source *)

Definition SHMCLASS_MIN_BITS : Z := 6.
Definition SHMCLASS_MAX_BITS : Z := 31.
Definition SHMCLASS_MIN_SIZE : option Z := Int.shl1 SHMCLASS_MIN_BITS.
Definition SHMCLASS_MAX_SIZE : option Z := Int.shl1 SHMCLASS_MAX_BITS.

(** ** ffs64 and fls64 *)

(** [ffs64]: position (from 1) of the lowest set bit, 0 for 0. *)
Definition ffs64 (value : Z) : Z :=
  if value =? 0 then 0 else
  let ret := 1 in
  let '(value, ret) :=
    if Z.land value 0xffffffff =? 0 then (Z.shiftr value 32, ret + 32) else (value, ret) in
  let '(value, ret) :=
    if Z.land value 0x0000ffff =? 0 then (Z.shiftr value 16, ret + 16) else (value, ret) in
  let '(value, ret) :=
    if Z.land value 0x000000ff =? 0 then (Z.shiftr value 8, ret + 8) else (value, ret) in
  let '(value, ret) :=
    if Z.land value 0x0000000f =? 0 then (Z.shiftr value 4, ret + 4) else (value, ret) in
  let '(value, ret) :=
    if Z.land value 0x00000003 =? 0 then (Z.shiftr value 2, ret + 2) else (value, ret) in
  let '(value, ret) :=
    if Z.land value 0x00000001 =? 0 then (Z.shiftr value 1, ret + 1) else (value, ret) in
  ret.

(** [fls64]: position (from 1) of the highest set bit, 0 for 0. *)
Definition fls64 (value : Z) : Z :=
  if value =? 0 then 0 else
  let ret := 1 in
  let '(value, ret) :=
    if Z.land value 0xffffffff00000000 =? 0 then (value, ret) else (Z.shiftr value 32, ret + 32) in
  let '(value, ret) :=
    if Z.land value 0xffff0000 =? 0 then (value, ret) else (Z.shiftr value 16, ret + 16) in
  let '(value, ret) :=
    if Z.land value 0xff00 =? 0 then (value, ret) else (Z.shiftr value 8, ret + 8) in
  let '(value, ret) :=
    if Z.land value 0xf0 =? 0 then (value, ret) else (Z.shiftr value 4, ret + 4) in
  let '(value, ret) :=
    if Z.land value 0xc =? 0 then (value, ret) else (Z.shiftr value 2, ret + 2) in
  let '(value, ret) :=
    if Z.land value 0x2 =? 0 then (value, ret) else (Z.shiftr value 1, ret + 1) in
  ret.

(** ** Layout of the structures

    [shmlist_t], [offset_t], [offset_of] and [container_of] come from
    [pg_boost.h], and [pthread_mutex_t] from the C library: the sizes and
    field offsets that the functions of [shmmgr.c] use are parameters of the
    model. *)

Class Layout := {
  (** [sizeof(shmhead_t)] *)
  sizeof_shmhead : Z;
  (** [offsetof(shmhead_t, free_list)] *)
  offsetof_free_list : Z;
  (** [sizeof(shmlist_t)] *)
  sizeof_shmlist : Z;
  (** [offset_of(shmchunk_t, list)], the header of a chunk *)
  offsetof_list : Z
}.

(** The LP64 layout: [int shmid], padding, a 64-bit [segment_size], 32
    sentinels of two 64-bit offsets, two arrays of 32 [int], and a 40 byte
    [pthread_mutex_t]. *)
Definition lp64 : Layout :=
  {| sizeof_shmhead := 824; offsetof_free_list := 16;
     sizeof_shmlist := 16; offsetof_list := 8 |}.

(** ** The segment *)

(** [shmlist_t]: a link of two offsets. *)
Record shmlist_t := { next : Z; prev : Z }.

(** The first two members of [shmchunk_t]; its third member [list] is the
    link stored at [offsetof_list] from the chunk. *)
Record shmchunk_t := { mclass : Z; active : bool }.

(** The state seen by one process: its pointer [shmhead] and the contents
    of the segment, [shmhead_t] first.  Links and chunk headers are kept by
    segment offset; memory that was never written reads as zero, as a new
    System V segment does. *)
Record shm := {
  shmhead : Z;
  shmid : Z;
  segment_size : Z;
  links : gmap Z shmlist_t;
  chunks : gmap Z shmchunk_t;
  num_active : list Z;
  num_free : list Z;
  locked : bool
}.

Definition set_links (f : gmap Z shmlist_t → gmap Z shmlist_t) (s : shm) : shm :=
  {| shmhead := shmhead s; shmid := shmid s; segment_size := segment_size s;
     links := f (links s); chunks := chunks s;
     num_active := num_active s; num_free := num_free s; locked := locked s |}.

Definition set_chunks (f : gmap Z shmchunk_t → gmap Z shmchunk_t) (s : shm) : shm :=
  {| shmhead := shmhead s; shmid := shmid s; segment_size := segment_size s;
     links := links s; chunks := f (chunks s);
     num_active := num_active s; num_free := num_free s; locked := locked s |}.

Definition set_num_active (f : list Z → list Z) (s : shm) : shm :=
  {| shmhead := shmhead s; shmid := shmid s; segment_size := segment_size s;
     links := links s; chunks := chunks s;
     num_active := f (num_active s); num_free := num_free s; locked := locked s |}.

Definition set_num_free (f : list Z → list Z) (s : shm) : shm :=
  {| shmhead := shmhead s; shmid := shmid s; segment_size := segment_size s;
     links := links s; chunks := chunks s;
     num_active := num_active s; num_free := f (num_free s); locked := locked s |}.

Definition set_shmhead (p : Z) (s : shm) : shm :=
  {| shmhead := p; shmid := shmid s; segment_size := segment_size s;
     links := links s; chunks := chunks s;
     num_active := num_active s; num_free := num_free s; locked := locked s |}.

(** [shmhead->shmid = id; shmhead->segment_size = size] *)
Definition set_ident (id size : Z) (s : shm) : shm :=
  {| shmhead := shmhead s; shmid := id; segment_size := size;
     links := links s; chunks := chunks s;
     num_active := num_active s; num_free := num_free s; locked := locked s |}.

Definition set_locked (b : bool) (s : shm) : shm :=
  {| shmhead := shmhead s; shmid := shmid s; segment_size := segment_size s;
     links := links s; chunks := chunks s;
     num_active := num_active s; num_free := num_free s; locked := b |}.

(** ** Outcomes and the monad of the C functions *)

Inductive outcome (A : Type) : Type :=
  | Ok (a : A)
  | AssertFail   (** an [assert] of the source failed *)
  | Fault        (** no defined behaviour: an access outside the segment,
                     an array index or a shift count out of range *)
  | Timeout.     (** the fuel of a loop of the model ran out *)
Arguments Ok {A} a.
Arguments AssertFail {A}.
Arguments Fault {A}.
Arguments Timeout {A}.

Definition M (A : Type) : Type := shm → outcome (A * shm).

Definition ret {A} (a : A) : M A := λ s, Ok (a, s).

Definition bind {A B} (m : M A) (k : A → M B) : M B :=
  λ s, match m s with
       | Ok (a, s') => k a s'
       | AssertFail => AssertFail
       | Fault => Fault
       | Timeout => Timeout
       end.

Global Instance M_ret : MRet M := @ret.
Global Instance M_bind : MBind M := λ A B k m, bind m k.

(** How a round of a loop ends. *)
Inductive loop (A : Type) : Type :=
  | Continue (a : A)
  | Break (a : A).
Arguments Continue {A} a.
Arguments Break {A} a.

Definition fault {A} : M A := λ _, Fault.
Definition timeout {A} : M A := λ _, Timeout.
Definition get : M shm := λ s, Ok (s, s).
Definition modify (f : shm → shm) : M unit := λ s, Ok (tt, f s).

(** [assert(b)] *)
Definition assert (b : bool) : M unit :=
  λ s, if b then Ok (tt, s) else AssertFail.

(** The value of a C expression that may be undefined. *)
Definition defined {A} (o : option A) : M A :=
  λ s, match o with Some a => Ok (a, s) | None => Fault end.


Definition NULL : Z := 0.

Definition zero_link : shmlist_t := {| next := 0; prev := 0 |}.
Definition zero_chunk : shmchunk_t := {| mclass := 0; active := false |}.

(** An object of [size] bytes at address [p] lies inside the attached
    segment, that is, within the [segment_size] bytes that were asked for.
    The kernel maps a segment in whole pages, so an access that this bound
    refuses may still fall inside the mapping, up to [mapping_end]: the
    bound is the stricter of the two. *)
Definition in_segment (s : shm) (p size : Z) : bool :=
  (shmhead s <=? p) && (p + size <=? shmhead s + segment_size s).

Section shmmgr.
Context {L : Layout}.

(** *** Memory accesses *)

(** Reading the [shmlist_t] at address [p]. *)
Definition load_link (p : Z) : M shmlist_t := λ s,
  if in_segment s p sizeof_shmlist
  then Ok (default zero_link (links s !! (p - shmhead s)), s)
  else Fault.

Definition store_link (p : Z) (l : shmlist_t) : M unit := λ s,
  if in_segment s p sizeof_shmlist
  then Ok (tt, set_links <[p - shmhead s := l]> s)
  else Fault.

(** [p->next], [p->prev], [p->next = v], [p->prev = v] *)
Definition get_next (p : Z) : M Z := l ← load_link p; mret (next l).
Definition get_prev (p : Z) : M Z := l ← load_link p; mret (prev l).
Definition set_next (p v : Z) : M unit :=
  l ← load_link p; store_link p {| next := v; prev := prev l |}.
Definition set_prev (p v : Z) : M unit :=
  l ← load_link p; store_link p {| next := next l; prev := v |}.

(** Reading the header of the [shmchunk_t] at address [p]. *)
Definition load_chunk (p : Z) : M shmchunk_t := λ s,
  if in_segment s p offsetof_list
  then Ok (default zero_chunk (chunks s !! (p - shmhead s)), s)
  else Fault.

Definition store_chunk (p : Z) (c : shmchunk_t) : M unit := λ s,
  if in_segment s p offsetof_list
  then Ok (tt, set_chunks <[p - shmhead s := c]> s)
  else Fault.

(** [p->mclass], [p->active], [p->mclass = v], [p->active = b] *)
Definition get_mclass (p : Z) : M Z := c ← load_chunk p; mret (mclass c).
Definition get_active (p : Z) : M bool := c ← load_chunk p; mret (active c).
Definition set_mclass (p v : Z) : M unit :=
  c ← load_chunk p; store_chunk p {| mclass := Int.u8 v; active := active c |}.
Definition set_active (p : Z) (b : bool) : M unit :=
  c ← load_chunk p; store_chunk p {| mclass := mclass c; active := b |}.

(** [container_of(list, shmchunk_t, list)] and [&chunk->list] *)
Definition container_of (list : Z) : Z := Int.u64 (list - offsetof_list).
Definition list_of (chunk : Z) : Z := Int.u64 (chunk + offsetof_list).

(** [&shmhead->free_list[mclass]] *)
Definition free_list (mclass : Z) : M Z :=
  if (0 <=? mclass) && (mclass <=? SHMCLASS_MAX_BITS)
  then s ← get; mret (Int.u64 (shmhead s + offsetof_free_list + mclass * sizeof_shmlist))
  else fault.

(** An [int] array of [shmhead_t], read and updated at index [i]. *)
Definition array_get (a : list Z) (i : Z) : option Z :=
  if 0 <=? i then a !! Z.to_nat i else None.
Definition array_add (d i : Z) (a : list Z) : list Z :=
  match array_get a i with
  | Some v => <[Z.to_nat i := Int.s32 (v + d)]> a
  | None => a
  end.

(** [shmhead->num_free[i] += d] and [shmhead->num_active[i] += d] *)
Definition num_free_add (i d : Z) : M unit :=
  s ← get; defined (array_get (num_free s) i);; modify (set_num_free (array_add d i)).
Definition num_active_add (i d : Z) : M unit :=
  s ← get; defined (array_get (num_active s) i);; modify (set_num_active (array_add d i)).

(** [pthread_mutex_lock(&shmhead->lock)] and its unlock, for a single
    caller. *)
Definition pthread_mutex_lock : M unit := modify (set_locked true).
Definition pthread_mutex_unlock : M unit := modify (set_locked false).

(** *** Offsets and addresses *)

Definition addr_to_offset (addr : Z) : M Z :=
  s ← get;
  assert (negb (shmhead s =? NULL));;
  if addr =? NULL then mret 0
  else mret (Int.u64 (Int.u64 addr - Int.u64 (shmhead s))).

Definition offset_to_addr (offset : Z) : M Z :=
  s ← get;
  assert (negb (shmhead s =? NULL));;
  if offset =? 0 then mret NULL
  else mret (Int.u64 (Int.u64 (shmhead s) + offset)).

(** *** The offset list *)

Definition shmlist_empty (list : Z) : M bool :=
  n ← get_next list;
  a ← offset_to_addr n;
  mret (a =? list).

Definition shmlist_init (list : Z) : M unit :=
  o ← addr_to_offset list;
  set_prev list o;;
  set_next list o.

Definition shmlist_add (base list : Z) : M unit :=
  n ← get_next base;
  nlist ← offset_to_addr n;
  o ← addr_to_offset list; set_next base o;;
  o ← addr_to_offset base; set_prev list o;;
  o ← addr_to_offset nlist; set_next list o;;
  o ← addr_to_offset list; set_prev nlist o.

Definition shmlist_del (list : Z) : M unit :=
  p ← get_prev list;
  plist ← offset_to_addr p;
  n ← get_next list;
  nlist ← offset_to_addr n;
  o ← addr_to_offset nlist; set_next plist o;;
  o ← addr_to_offset plist; set_prev nlist o;;
  shmlist_init list.

(** *** The buddy chunk store *)

(** [shmmgr_split_chunk]: the recursion of the source climbs one class at
    a time and stops at [SHMCLASS_MAX_BITS]; [fuel] bounds its depth. *)
Fixpoint shmmgr_split_chunk (fuel : nat) (mclass : Z) : M bool :=
  assert ((SHMCLASS_MIN_BITS <? mclass) && (mclass <=? SHMCLASS_MAX_BITS));;
  fl ← free_list mclass;
  e ← shmlist_empty fl;
  ok ← (if e : bool then
          if mclass =? SHMCLASS_MAX_BITS then mret false
          else match fuel with
               | O => timeout
               | S fuel => shmmgr_split_chunk fuel (mclass + 1)
               end
        else mret true);
  if negb ok then mret false else
  fl ← free_list mclass;
  n ← get_next fl;
  list ← offset_to_addr n;
  let chunk1 := container_of list in
  m ← get_mclass chunk1;
  assert (m =? mclass);;
  shmlist_del (list_of chunk1);;
  num_free_add mclass (-1);;
  offset ← addr_to_offset chunk1;
  let mclass := mclass - 1 in
  half ← defined (Int.shl1 mclass);
  chunk2 ← offset_to_addr (Int.u64 (offset + half));
  set_mclass chunk2 mclass;;
  set_mclass chunk1 mclass;;
  set_active chunk2 false;;
  set_active chunk1 false;;
  fl ← free_list mclass;
  shmlist_add fl (list_of chunk1);;
  fl ← free_list mclass;
  shmlist_add fl (list_of chunk2);;
  num_free_add mclass 2;;
  mret true.

(** The depth [shmmgr_alloc] can ask of [shmmgr_split_chunk]. *)
Definition split_depth : nat := 32.

(** The class [shmmgr_alloc] computes for a request of [size] bytes,
    before the test against [SHMCLASS_MAX_BITS]. *)
Definition request_class (size : Z) : Z :=
  fls64 (Int.u64 (size + offsetof_list - 1)).

Definition shmmgr_alloc (size : Z) : M Z :=
  let mclass := request_class size in
  if SHMCLASS_MAX_BITS <? mclass then mret NULL else
  let mclass := if mclass <? SHMCLASS_MIN_BITS then SHMCLASS_MIN_BITS else mclass in
  pthread_mutex_lock;;
  fl ← free_list mclass;
  e ← shmlist_empty fl;
  ok ← (if e : bool then shmmgr_split_chunk split_depth (mclass + 1) else mret true);
  if negb ok then pthread_mutex_unlock;; mret NULL else
  fl ← free_list mclass;
  e ← shmlist_empty fl;
  assert (negb e);;
  fl ← free_list mclass;
  n ← get_next fl;
  list ← offset_to_addr n;
  let chunk := container_of list in
  m ← get_mclass chunk;
  assert (m =? mclass);;
  shmlist_del (list_of chunk);;
  num_free_add mclass (-1);;
  num_active_add mclass 1;;
  pthread_mutex_unlock;;
  mret (list_of chunk).

(** The coalesce loop of [shmmgr_free]: from the class, offset and
    address of the chunk to the class and address of the chunk that is put
    on the free list.  Each round raises [mclass]; [fuel] bounds the
    rounds. *)
Fixpoint coalesce (fuel : nat) (mclass offset chunk : Z) : M (Z * Z) :=
  if negb (mclass <? SHMCLASS_MAX_BITS) then mret (mclass, chunk) else
  bit ← defined (Int.shl1 mclass);
  let offset_buddy :=
    if negb (Z.land offset (Int.u64 bit) =? 0)
    then Z.land offset (Int.u64 (Int.not bit))
    else Z.lor offset (Int.u64 bit) in
  if offset_buddy <? Int.u64 sizeof_shmhead then mret (mclass, chunk) else
  buddy ← offset_to_addr offset_buddy;
  a ← get_active buddy;
  m ← get_mclass buddy;
  if a || negb (m =? mclass) then mret (mclass, chunk) else
  shmlist_del (list_of buddy);;
  num_free_add mclass (-1);;
  let mclass := mclass + 1 in
  bit ← defined (Int.shl1 mclass);
  let offset := Z.land offset (Int.u64 (Int.not (Int.s32 (bit - 1)))) in
  chunk ← offset_to_addr offset;
  set_mclass chunk mclass;;
  set_active chunk false;;
  match fuel with
  | O => timeout
  | S fuel => coalesce fuel mclass offset chunk
  end.

Definition coalesce_rounds : nat := 32.

Definition shmmgr_free (ptr : Z) : M unit :=
  let chunk := container_of ptr in
  mclass ← get_mclass chunk;
  pthread_mutex_lock;;
  set_active chunk false;;
  num_active_add mclass (-1);;
  offset ← addr_to_offset chunk;
  '(mclass, chunk) ← coalesce coalesce_rounds mclass offset chunk;
  fl ← free_list mclass;
  shmlist_add fl (list_of chunk);;
  num_free_add mclass 1;;
  pthread_mutex_unlock.

(** *** Bootstrap *)

(** What the operating system and the C library answer to
    [shmmgr_init]: [shmget] (key, size, flags), [shmat], the three
    [pthread] calls of [shmmgr_init_mutex], and the external
    [shmbuf_init]. *)
Record env := {
  shmget : Z → Z → Z → Z;
  shmat : Z → Z;
  pthread_mutexattr_init : Z;
  pthread_mutexattr_setpshared : Z;
  pthread_mutex_init : Z;
  shmbuf_init : Z → M unit
}.

(** Constants of [<sys/ipc.h>] and [<sys/shm.h>] (Linux). *)
Definition IPC_PRIVATE : Z := 0.
Definition IPC_CREAT : Z := 512.
Definition IPC_EXCL : Z := 1024.
Definition SHM_HUGETLB : Z := 2048.

(** [shmmgr_init_mutex(&shmhead->lock)]: on success the mutex is
    initialised, unlocked. *)
Definition shmmgr_init_mutex (e : env) : M bool :=
  if negb (pthread_mutexattr_init e =? 0) then mret false else
  if negb (pthread_mutexattr_setpshared e =? 0) then mret false else
  if negb (pthread_mutex_init e =? 0) then mret false else
  modify (set_locked false);;
  mret true.

(** A process that has not attached a segment. *)
Definition detached : shm :=
  {| shmhead := NULL; shmid := 0; segment_size := 0; links := ∅; chunks := ∅;
     num_active := []; num_free := []; locked := false |}.

(** The segment just attached at [addr]: [size] bytes of zeros. *)
Definition attached (addr size : Z) : shm :=
  {| shmhead := addr; shmid := 0; segment_size := size; links := ∅; chunks := ∅;
     num_active := replicate 32 0; num_free := replicate 32 0; locked := false |}.

(** [for (mclass = 0; mclass <= SHMCLASS_MAX_BITS; mclass++)] *)
Fixpoint for_each (l : list Z) (body : Z → M unit) : M unit :=
  match l with
  | [] => mret tt
  | i :: l => body i;; for_each l body
  end.

Definition num_free_clear (i : Z) : M unit :=
  s ← get; defined (array_get (num_free s) i);;
  modify (set_num_free (<[Z.to_nat i := 0]>)).
Definition num_active_clear (i : Z) : M unit :=
  s ← get; defined (array_get (num_active s) i);;
  modify (set_num_active (<[Z.to_nat i := 0]>)).

Definition init_header : M unit :=
  for_each (seqZ 0 (SHMCLASS_MAX_BITS + 1)) (λ mclass,
    fl ← free_list mclass;
    shmlist_init fl;;
    num_free_clear mclass;;
    num_active_clear mclass).

(** The offset at which seeding starts. *)
Definition start_offset : option Z :=
  bit ← Int.shl1 (fls64 (Int.u64 sizeof_shmhead) + 1);
  min ← SHMCLASS_MIN_SIZE;
  let offset := Int.u64 bit in
  Some (if offset <? Int.u64 min then Int.u64 min else offset).

(** [while (shmhead->segment_size < offset + (1 << mclass)) mclass--;] *)
Fixpoint truncate_class (fuel : nat) (offset mclass : Z) : M Z :=
  s ← get;
  bit ← defined (Int.shl1 mclass);
  if segment_size s <? Int.u64 (offset + bit) then
    match fuel with
    | O => timeout
    | S fuel => truncate_class fuel offset (mclass - 1)
    end
  else mret mclass.

(** One round of the seeding loop at [offset]: [Break] when the loop is
    left, [Continue] with the next offset otherwise. *)
Definition seed_round (offset : Z) : M (loop Z) :=
  s ← get;
  min ← defined SHMCLASS_MIN_SIZE;
  if negb (Int.u64 min <=? Int.u64 (segment_size s - offset)) then mret (Break offset) else
  let mclass := ffs64 offset - 1 in
  let mclass := if SHMCLASS_MAX_BITS <? mclass then SHMCLASS_MAX_BITS else mclass in
  assert (SHMCLASS_MIN_BITS <=? mclass);;
  mclass ← truncate_class 64 offset mclass;
  if mclass <? SHMCLASS_MIN_BITS then mret (Break offset) else
  chunk ← offset_to_addr offset;
  set_mclass chunk mclass;;
  set_active chunk false;;
  fl ← free_list mclass;
  shmlist_add fl (list_of chunk);;
  num_free_add mclass 1;;
  bit ← defined (Int.shl1 mclass);
  mret (Continue (Int.u64 (offset + bit))).

(** The seeding loop, for at most [rounds] rounds. *)
Fixpoint seed_rounds (rounds : positive) (offset : Z) : M (loop Z) :=
  match rounds with
  | xH => seed_round offset
  | xO p =>
      r ← seed_rounds p offset;
      match r with
      | Break offset => mret (Break offset)
      | Continue offset => seed_rounds p offset
      end
  | xI p =>
      r ← seed_round offset;
      match r with
      | Break offset => mret (Break offset)
      | Continue offset =>
          r ← seed_rounds p offset;
          match r with
          | Break offset => mret (Break offset)
          | Continue offset => seed_rounds p offset
          end
      end
  end.

(** Every round but the last adds a chunk of at least 64 bytes. *)
Definition seed_fuel (size : Z) : positive := Z.to_pos (Z.shiftr size 6 + 2).

(** The seeding loop from [offset]; the result is the offset at which it
    stops. *)
Definition seed (offset : Z) : M Z :=
  s ← get;
  r ← seed_rounds (seed_fuel (segment_size s)) offset;
  match r with Break offset => mret offset | Continue _ => timeout end.

(** The part of [shmmgr_init] that writes the segment: the header, then
    the free chunks. *)
Definition init_segment (id size : Z) : M Z :=
  modify (set_ident id size);;
  init_header;;
  offset ← defined start_offset;
  seed offset.

Definition shmmgr_init (e : env) (size : Z) (hugetlb : bool) : M Z :=
  let shmflag := Z.lor (Z.lor 384 IPC_CREAT) IPC_EXCL in
  let shmflag := if hugetlb then Z.lor shmflag SHM_HUGETLB else shmflag in
  let id := shmget e IPC_PRIVATE size shmflag in
  if id <? 0 then mret (-1) else
  let addr := shmat e id in
  if addr =? Int.u64 (-1) then modify (set_shmhead addr);; mret (-1) else
  modify (λ _, attached addr size);;
  init_segment id size;;
  shmmgr_init_mutex e;;
  shmbuf_init e size;;
  mret 0.

End shmmgr.


(** ** Specification vocabulary *)

(** [SHMCLASS_MIN_SIZE] as a number of bytes. *)
Definition SHMCLASS_MIN_SIZE_bytes : Z := default 0 SHMCLASS_MIN_SIZE.

(** [p] is the smallest power of two strictly larger than [h]. *)
Definition smallest_pow2_above (h p : Z) : Prop :=
  (∃ k, 0 ≤ k ∧ p = 2 ^ k) ∧ h < p ∧ ∀ k, 0 ≤ k → h < 2 ^ k → p ≤ 2 ^ k.

(** [m] is the smallest class, not below [SHMCLASS_MIN_BITS], whose chunks
    hold [bytes] bytes. *)
Definition smallest_class (bytes m : Z) : Prop :=
  SHMCLASS_MIN_BITS ≤ m ∧ bytes ≤ 2 ^ m ∧
  ∀ m', SHMCLASS_MIN_BITS ≤ m' → bytes ≤ 2 ^ m' → m ≤ m'.

(** A computation from [s] does not run out of fuel, and if it returns,
    its result and final state satisfy [Q]; it may stop at a failed
    assertion or at an undefined operation. *)
Definition wlp {A} (m : M A) (Q : A → shm → Prop) (s : shm) : Prop :=
  match m s with
  | Ok (a, s') => Q a s'
  | Timeout => False
  | AssertFail | Fault => True
  end.

(** A computation from [s] returns, and its result and final state satisfy
    [Q]. *)
Definition wp {A} (m : M A) (Q : A → shm → Prop) (s : shm) : Prop :=
  ∃ a s', m s = Ok (a, s') ∧ Q a s'.

(** Helpers for [fls64] and [ffs64]: the mask of the [k] bits above the low
    [k] bits, and one test-and-shift step of each function. *)
Definition upper_mask (k : Z) : Z := Z.shiftl (Z.ones k) k.

Definition fls_step (k : Z) (p : Z * Z) : Z * Z :=
  if Z.land p.1 (upper_mask k) =? 0 then p else (Z.shiftr p.1 k, p.2 + k).

Definition ffs_step (k : Z) (p : Z * Z) : Z * Z :=
  if Z.land p.1 (Z.ones k) =? 0 then (Z.shiftr p.1 k, p.2 + k) else p.

(** ** Sample environments and states *)

(** An environment in which every call succeeds; [shmat] maps the segment
    at a page boundary. *)
Definition env_ok : env :=
  {| shmget := λ _ _ _, 5; shmat := λ _, 0x7f0000000000;
     pthread_mutexattr_init := 0; pthread_mutexattr_setpshared := 0;
     pthread_mutex_init := 0; shmbuf_init := λ _, mret tt |}.

(** The same, but [pthread_mutex_init] fails with [ENOMEM]. *)
Definition env_nolock : env :=
  {| shmget := λ _ _ _, 5; shmat := λ _, 0x7f0000000000;
     pthread_mutexattr_init := 0; pthread_mutexattr_setpshared := 0;
     pthread_mutex_init := 12; shmbuf_init := λ _, mret tt |}.

(** The state a computation ends in, [detached] when it has none. *)
Definition final_state {A} (o : outcome (A * shm)) : shm :=
  match o with Ok (_, s) => s | _ => detached end.

(** A 4 KiB segment after [shmmgr_init], in the LP64 layout. *)
Definition seg4k : shm :=
  final_state (shmmgr_init (L:=lp64) env_ok 4096 false detached).

(** The value a computation returns, if it returns. *)
Definition result {A} (o : outcome (A * shm)) : option A :=
  match o with Ok (a, _) => Some a | _ => None end.

(** The links reached from the link at offset [cur] by following [next],
    up to the link at offset [stop]. *)
Fixpoint ring_from (fuel : nat) (s : shm) (stop cur : Z) : list Z :=
  match fuel with
  | O => []
  | S fuel =>
      if cur =? stop then []
      else cur :: ring_from fuel s stop (next (default zero_link (links s !! cur)))
  end.

(** The offsets of the chunks on [free_list[m]]: the ring of its sentinel,
    each link taken back to its chunk. *)
Definition free_chunks {L : Layout} (s : shm) (m : Z) : list Z :=
  let sentinel := offsetof_free_list + m * sizeof_shmlist in
  (λ l, l - offsetof_list) <$>
    ring_from 64 s sentinel (next (default zero_link (links s !! sentinel))).

(** The buddy of the class [m] chunk at [offset]. *)
Definition buddy_of (offset m : Z) : Z := Z.lxor offset (2 ^ m).

(** A 4 GiB segment whose header has been written, before seeding. *)
Definition header4g : shm :=
  final_state ((modify (set_ident 5 (2 ^ 32));; init_header (L:=lp64))
                 (attached 0x7f0000000000 (2 ^ 32))).

(** Two requests of 64 bytes, the first released; a third request, then
    the second and the third released.  Every address is released once for
    each time it was returned. *)
Definition buddy_trace : M (Z * Z * Z) :=
  a ← shmmgr_alloc (L:=lp64) 64;
  b ← shmmgr_alloc (L:=lp64) 64;
  shmmgr_free (L:=lp64) a;;
  c ← shmmgr_alloc (L:=lp64) 64;
  shmmgr_free (L:=lp64) b;;
  shmmgr_free (L:=lp64) c;;
  mret (a, b, c).

(** Two requests of 64 bytes, both released; two more requests, the first
    of them released.  The result is the address the last request returned,
    which has not been released. *)
Definition ring_trace : M Z :=
  a ← shmmgr_alloc (L:=lp64) 64;
  b ← shmmgr_alloc (L:=lp64) 64;
  shmmgr_free (L:=lp64) a;;
  shmmgr_free (L:=lp64) b;;
  c ← shmmgr_alloc (L:=lp64) 64;
  d ← shmmgr_alloc (L:=lp64) 64;
  shmmgr_free (L:=lp64) c;;
  mret d.

(** The value of counter [m] of an [int] array of the header, 0 outside
    the array. *)
Definition counter (a : list Z) (m : Z) : Z := default 0 (array_get a m).

(** The sum over the classes [0 .. SHMCLASS_MAX_BITS] of [f m * 2 ^ m]. *)
Definition class_sum (f : Z → Z) : Z :=
  foldr (λ m acc, f m * 2 ^ m + acc) 0 (seqZ 0 (SHMCLASS_MAX_BITS + 1)).

(** The bytes accounted for by two counter arrays:
    the sum of [(num_active[m] + num_free[m]) * 2 ^ m]. *)
Definition total (na nf : list Z) : Z :=
  class_sum (λ m, counter na m + counter nf m).

Definition counter_total (s : shm) : Z := total (num_active s) (num_free s).



(** [s'] differs from [s] at most in the links, in the chunk headers, or in
    the lock. *)
Definition links_only (s s' : shm) : Prop := ∃ lk, s' = set_links (λ _, lk) s.
Definition chunks_only (s s' : shm) : Prop := ∃ ch, s' = set_chunks (λ _, ch) s.
Definition heap_only (s s' : shm) : Prop :=
  ∃ lk ch b, s' = set_locked b (set_chunks (λ _, ch) (set_links (λ _, lk) s)).

(** Every counter is a count of chunks of at least 64 bytes cut from [K]
    bytes. *)
Definition counts_chunks (K : Z) (a : list Z) : Prop :=
  length a = 32%nat ∧ Forall (λ v, 0 ≤ v ∧ 64 * v ≤ K) a.

(** The state of the seeding loop at [offset]: the counters account for
    the bytes between [start] and [offset]. *)
Definition seeded (start size offset : Z) (s : shm) : Prop :=
  segment_size s = size ∧ start ≤ offset ≤ size ∧
  counter_total s = offset - start ∧
  counts_chunks (offset - start) (num_active s) ∧
  counts_chunks (offset - start) (num_free s).

(** ** Rings of links *)

(** The link stored at address [p]. *)
Definition link_at (s : shm) (p : Z) : shmlist_t :=
  default zero_link (links s !! (p - shmhead s)).

(** The state after the link at address [p] is overwritten with [l]. *)
Definition store (s : shm) (p : Z) (l : shmlist_t) : shm :=
  set_links <[p - shmhead s := l]> s.

(** The values [addr_to_offset] and [offset_to_addr] return. *)
Definition offset_of (s : shm) (addr : Z) : Z :=
  if addr =? NULL then 0 else Int.u64 (Int.u64 addr - Int.u64 (shmhead s)).
Definition addr_of (s : shm) (offset : Z) : Z :=
  if offset =? 0 then NULL else Int.u64 (Int.u64 (shmhead s) + offset).

(** The segment is attached inside the 64-bit address space. *)
Definition mapped (s : shm) : Prop :=
  0 < shmhead s ∧ shmhead s + segment_size s ≤ 2 ^ 64.

(** [p] is the address of a [shmlist_t] inside the segment, not at
    offset 0. *)
Definition is_link {L : Layout} (s : shm) (p : Z) : Prop :=
  in_segment s p sizeof_shmlist = true ∧ p ≠ shmhead s.

(** [offset_to_addr(p->next)] and [offset_to_addr(p->prev)] *)
Definition next_of (s : shm) (p : Z) : Z := addr_of s (next (link_at s p)).
Definition prev_of (s : shm) (p : Z) : Z := addr_of s (prev (link_at s p)).

(** The ring invariant at the link [p]:
    [offset_to_addr(p->next)->prev == addr_to_offset(p)] and
    [offset_to_addr(p->prev)->next == addr_to_offset(p)]. *)
Definition linked {L : Layout} (s : shm) (p : Z) : Prop :=
  is_link s p ∧ is_link s (next_of s p) ∧ is_link s (prev_of s p) ∧
  prev (link_at s (next_of s p)) = offset_of s p ∧
  next (link_at s (prev_of s p)) = offset_of s p.

(** The links in [R] are the nodes of rings: each satisfies the invariant,
    and its neighbours are in [R]. *)
Definition rings {L : Layout} (s : shm) (R : Z → Prop) : Prop :=
  ∀ p, R p → linked s p ∧ R (next_of s p) ∧ R (prev_of s p).

(** The link at [p] is an empty ring: [p->next == p->prev ==
    addr_to_offset(p)]. *)
Definition self_ring (s : shm) (p : Z) : Prop :=
  next (link_at s p) = offset_of s p ∧ prev (link_at s p) = offset_of s p.

(** Every chunk header that was written lies at a multiple of
    [2 ^ SHMCLASS_MIN_BITS] bytes from the segment base. *)
Definition chunks_aligned (s : shm) : Prop :=
  ∀ c h, chunks s !! c = Some h → (2 ^ SHMCLASS_MIN_BITS | c).

(** A 1 MiB segment after [shmmgr_init], in the LP64 layout. *)
Definition seg1m : shm :=
  final_state (shmmgr_init (L:=lp64) env_ok (2 ^ 20) false detached).

(** The bytes of a class [m] chunk from the address [shmmgr_alloc] returns
    to the end of the chunk. *)
Definition usable_bytes {L : Layout} (m : Z) : Z := 2 ^ m - offsetof_list.

(** ** The heap of free chunks *)

(** The address of [shmhead->free_list[m]]. *)
Definition sentinel {L : Layout} (s : shm) (m : Z) : Z :=
  shmhead s + offsetof_free_list + m * sizeof_shmlist.

(** What the allocator needs of the layout: the array [free_list] lies
    inside [shmhead_t], past its first byte, and the [list] member of a
    chunk lies inside the smallest chunk. *)
Definition layout_ok {L : Layout} : Prop :=
  0 < offsetof_list ∧ 0 < sizeof_shmlist ∧
  offsetof_list + sizeof_shmlist ≤ 2 ^ SHMCLASS_MIN_BITS ∧
  0 < offsetof_free_list ∧
  offsetof_free_list + (SHMCLASS_MAX_BITS + 1) * sizeof_shmlist ≤ sizeof_shmhead.

(** The link at address [p] is the [list] member of a chunk of class [m]
    that lies in the segment after the header, at a multiple of its size
    [2 ^ m]. *)
Definition free_chunk {L : Layout} (s : shm) (p m : Z) : Prop :=
  let o := p - offsetof_list - shmhead s in
  sizeof_shmhead ≤ o ∧ o + 2 ^ m ≤ segment_size s ∧
  (2 ^ m | o) ∧
  SHMCLASS_MIN_BITS ≤ m ≤ SHMCLASS_MAX_BITS ∧
  mclass (default zero_chunk (chunks s !! o)) = m.

(** The class map [cls] with the link [p] put in class [m]. *)
Definition upd (cls : Z → Z) (p m : Z) : Z → Z :=
  λ q, if decide (q = p) then m else cls q.

(** The links in [R] form rings, and a ring stays within one class of
    [cls]. *)
Definition lists_ok {L : Layout} (s : shm) (R : Z → Prop) (cls : Z → Z) : Prop :=
  rings s R ∧ ∀ p, R p → cls (next_of s p) = cls p.

(** The sentinel of class [k] is [free_list[k]], every other link in [R]
    is the [list] member of a free chunk of its class, and the free chunks
    do not overlap. *)
Definition chunks_ok {L : Layout} (s : shm) (R : Z → Prop) (cls : Z → Z) : Prop :=
  (∀ k, 0 ≤ k ≤ SHMCLASS_MAX_BITS → R (sentinel s k) ∧ cls (sentinel s k) = k) ∧
  (∀ p, R p → (∃ k, 0 ≤ k ≤ SHMCLASS_MAX_BITS ∧ p = sentinel s k) ∨
              free_chunk s p (cls p)) ∧
  (∀ p q, R p → R q → free_chunk s p (cls p) → p < q → p + 2 ^ cls p ≤ q).

(** The invariant of the free lists.  [R] holds the links on the free
    lists, sentinels and chunks alike, and [cls] gives each its class. *)
Record heap_ok {L : Layout} (s : shm) (R : Z → Prop) (cls : Z → Z) : Prop := {
  heap_mapped : mapped s;
  heap_header : sizeof_shmhead ≤ segment_size s;
  heap_num_free : length (num_free s) = 32%nat;
  heap_num_active : length (num_active s) = 32%nat;
  heap_lists : lists_ok s R cls;
  heap_chunks : chunks_ok s R cls
}.

(** The statements of [shmmgr_split_chunk] after its test of the free
    list: the first chunk of class [mclass] is cut into two free chunks of
    the class below. *)
Definition halve_first_chunk {L : Layout} (mclass : Z) : M bool :=
  fl ← free_list mclass;
  n ← get_next fl;
  list ← offset_to_addr n;
  let chunk1 := container_of list in
  m ← get_mclass chunk1;
  assert (m =? mclass);;
  shmlist_del (list_of chunk1);;
  num_free_add mclass (-1);;
  offset ← addr_to_offset chunk1;
  let mclass := mclass - 1 in
  half ← defined (Int.shl1 mclass);
  chunk2 ← offset_to_addr (Int.u64 (offset + half));
  set_mclass chunk2 mclass;;
  set_mclass chunk1 mclass;;
  set_active chunk2 false;;
  set_active chunk1 false;;
  fl ← free_list mclass;
  shmlist_add fl (list_of chunk1);;
  fl ← free_list mclass;
  shmlist_add fl (list_of chunk2);;
  num_free_add mclass 2;;
  mret true.

(** The statements of [shmmgr_alloc] after its call of
    [shmmgr_split_chunk]: the first chunk of class [mclass] is taken from
    its free list. *)
Definition take_first_chunk {L : Layout} (mclass : Z) : M Z :=
  fl ← free_list mclass;
  e ← shmlist_empty fl;
  assert (negb e);;
  fl ← free_list mclass;
  n ← get_next fl;
  list ← offset_to_addr n;
  let chunk := container_of list in
  m ← get_mclass chunk;
  assert (m =? mclass);;
  shmlist_del (list_of chunk);;
  num_free_add mclass (-1);;
  num_active_add mclass 1;;
  pthread_mutex_unlock;;
  mret (list_of chunk).

(** The links on the free lists of the 4 KiB segment: the 32 sentinels
    and the chunk at offset 2048, of class 11. *)
Definition seg4k_links (p : Z) : Prop :=
  (∃ k, 0 ≤ k ≤ SHMCLASS_MAX_BITS ∧ p = sentinel (L:=lp64) seg4k k) ∨
  p = shmhead seg4k + 2048 + offsetof_list (Layout:=lp64).
Definition seg4k_class (p : Z) : Z :=
  if decide (p = shmhead seg4k + 2048 + offsetof_list (Layout:=lp64)) then 11
  else (p - shmhead seg4k - offsetof_free_list (Layout:=lp64))
         / sizeof_shmlist (Layout:=lp64).

(** The sentinels of the free lists, and the class of a sentinel. *)
Definition is_sentinel {L : Layout} (s : shm) (p : Z) : Prop :=
  ∃ k, 0 ≤ k ≤ SHMCLASS_MAX_BITS ∧ p = sentinel s k.
Definition sentinel_class {L : Layout} (s : shm) (p : Z) : Z :=
  (p - shmhead s - offsetof_free_list) / sizeof_shmlist.

(** No chunk header that was written has its [active] flag set. *)
Definition all_inactive (s : shm) : Prop :=
  ∀ c h, chunks s !! c = Some h → active h = false.

(** The invariant of the seeding loop of [shmmgr_init] at [offset]: the
    free lists satisfy [heap_ok] and every free chunk ends at or before
    [offset], a multiple of [2 ^ SHMCLASS_MIN_BITS] after the header. *)
Definition seeding {L : Layout} (size offset : Z) (s : shm) : Prop :=
  segment_size s = size ∧ (2 ^ SHMCLASS_MIN_BITS | offset) ∧
  sizeof_shmhead ≤ offset ≤ size ∧ all_inactive s ∧
  ∃ R cls, heap_ok s R cls ∧
           ∀ q, R q → free_chunk s q (cls q) →
                q - offsetof_list - shmhead s + 2 ^ cls q ≤ offset.

(** Environments in which [shmget] fails, and in which [shmat] fails. *)
Definition env_noget : env :=
  {| shmget := λ _ _ _, -1; shmat := λ _, 0x7f0000000000;
     pthread_mutexattr_init := 0; pthread_mutexattr_setpshared := 0;
     pthread_mutex_init := 0; shmbuf_init := λ _, mret tt |}.
Definition env_noat : env :=
  {| shmget := λ _ _ _, 5; shmat := λ _, Int.u64 (-1);
     pthread_mutexattr_init := 0; pthread_mutexattr_setpshared := 0;
     pthread_mutex_init := 0; shmbuf_init := λ _, mret tt |}.

(** ** The arithmetic of [shmmgr_free]

    The offset of the buddy of the chunk at [offset], for [bit = 1 <<
    mclass], and the offset of the merged chunk, for [bit = 1 << mclass]
    of the class above: the expressions of the coalesce loop. *)
Definition offset_buddy (offset bit : Z) : Z :=
  if negb (Z.land offset (Int.u64 bit) =? 0)
  then Z.land offset (Int.u64 (Int.not bit))
  else Z.lor offset (Int.u64 bit).
Definition merged_offset (offset bit : Z) : Z :=
  Z.land offset (Int.u64 (Int.not (Int.s32 (bit - 1)))).

(** The end of the mapping of a segment of [size] bytes: [shmget] rounds
    the size up to a multiple of the page size, and [shmat] maps all of
    it. *)
Definition mapping_end (page size : Z) : Z := page * ((size + page - 1) / page).

(** A 12 KiB segment after [shmmgr_init], in the LP64 layout, and the same
    after [shmmgr_alloc(4000)]. *)
Definition seg12k : shm :=
  final_state (shmmgr_init (L:=lp64) env_ok 12288 false detached).
Definition seg12k_alloc : shm :=
  final_state (shmmgr_alloc (L:=lp64) 4000 seg12k).

(** ** shmmgr_dump

    The output of [shmmgr_dump] is the list of its calls of [printf], in
    order, each with the values of its arguments: the segment size, one
    line for each class with an amount, a unit and the two counters, and
    the three totals. *)
Inductive unit_name := Bytes | KBytes | MBytes | GBytes.

Inductive dump_line :=
  | SegmentSize (size : Z)
  | ClassLine (amount : Z) (unit : unit_name) (used free : Z)
  | TotalActive (n : Z)
  | TotalFree (n : Z)
  | TotalSize (n : Z).

(** An [int] argument printed with [%u]. *)
Definition u32 (z : Z) : Z := z mod 2 ^ 32.

(** The body of the loop of [shmmgr_dump]. *)
Definition dump_class (mclass : Z) : M dump_line :=
  s ← get;
  used ← defined (array_get (num_active s) mclass);
  free ← defined (array_get (num_free s) mclass);
  if mclass <? 10 then
    amount ← defined (Int.shl1 mclass);
    mret (ClassLine (u32 amount) Bytes (u32 used) (u32 free))
  else if mclass <? 20 then
    amount ← defined (Int.shl1 (mclass - 10));
    mret (ClassLine (u32 amount) KBytes (u32 used) (u32 free))
  else if mclass <? 30 then
    amount ← defined (Int.shl1 (mclass - 20));
    mret (ClassLine (u32 amount) MBytes (u32 used) (u32 free))
  else
    amount ← defined (Int.shl1 (mclass - 30));
    mret (ClassLine (u32 amount) GBytes (u32 used) (u32 free)).

(** [for (mclass = SHMCLASS_MIN_BITS; mclass <= SHMCLASS_MAX_BITS; mclass++)] *)
Fixpoint dump_classes (l : list Z) : M (list dump_line) :=
  match l with
  | [] => mret []
  | mclass :: l =>
      line ← dump_class mclass;
      lines ← dump_classes l;
      mret (line :: lines)
  end.

Definition shmmgr_dump : M (list dump_line) :=
  let total_active := 0 in
  let total_free := 0 in
  s ← get;
  if shmhead s =? NULL then mret [] else
  pthread_mutex_lock;;
  s ← get;
  lines ← dump_classes (seqZ SHMCLASS_MIN_BITS (SHMCLASS_MAX_BITS - SHMCLASS_MIN_BITS + 1));
  pthread_mutex_unlock;;
  mret (SegmentSize (segment_size s) :: lines ++
        [TotalActive (Int.u64 total_active); TotalFree (Int.u64 total_free);
         TotalSize (Int.u64 (total_active + total_free))]).

(** The unit in which [shmmgr_dump] reports the chunk size of a class. *)
Definition class_unit (mclass : Z) : unit_name :=
  if mclass <? 10 then Bytes else if mclass <? 20 then KBytes
  else if mclass <? 30 then MBytes else GBytes.

(** * Proofs *)

(** ** Machine integers *)

Lemma u64_small z : 0 ≤ z < 2 ^ 64 → Int.u64 z = z.
Proof. intros. unfold Int.u64. by apply Z.mod_small. Qed.

Lemma u64_range z : 0 ≤ Int.u64 z < 2 ^ 64.
Proof. unfold Int.u64. apply Z.mod_pos_bound. done. Qed.

Lemma s32_small z : - 2 ^ 31 ≤ z < 2 ^ 31 → Int.s32 z = z.
Proof. intros. unfold Int.s32. rewrite Z.mod_small; lia. Qed.

Lemma shl1_small n : 0 ≤ n < 31 → Int.shl1 n = Some (2 ^ n).
Proof.
  intros Hn. unfold Int.shl1.
  replace ((0 <=? n) && (n <? 32)) with true by (symmetry; apply andb_true_iff; lia).
  rewrite Z.shiftl_1_l, s32_small; [done|].
  pose proof (Z.pow_lt_mono_r 2 n 31). pose proof (Z.pow_pos_nonneg 2 n). lia.
Qed.


Lemma shl1_31 : Int.shl1 31 = Some (- 2 ^ 31).
Proof. reflexivity. Qed.

(** ** fls64 *)

Lemma land_upper_mask_zero k v :
  0 < k → 0 ≤ v < 2 ^ (2 * k) → (Z.land v (upper_mask k) =? 0) = (v <? 2 ^ k).
Proof.
  intros Hk Hv. destruct (Z.ltb_spec v (2 ^ k)) as [Hlt|Hge].
  - apply Z.eqb_eq, Z.bits_inj'. intros i Hi.
    rewrite Z.land_spec, Z.bits_0. unfold upper_mask.
    destruct (Z.lt_ge_cases i k) as [Hik|Hik].
    + rewrite Z.shiftl_spec_low by done. apply andb_false_r.
    + destruct (Z.eq_dec v 0) as [->|Hv0]; [by rewrite Z.bits_0|].
      rewrite (Z.bits_above_log2 v i); [done|lia|].
      apply Z.log2_lt_pow2; [lia|]. pose proof (Z.pow_le_mono_r 2 k i); lia.
  - apply Z.eqb_neq. intros Hz.
    assert (0 < v) as Hpos by (pose proof (Z.pow_pos_nonneg 2 k); lia).
    assert (k ≤ Z.log2 v) as Hlo by (apply Z.log2_le_pow2; lia).
    assert (Z.log2 v < 2 * k) as Hhi by (apply Z.log2_lt_pow2; lia).
    assert (Z.testbit (Z.land v (upper_mask k)) (Z.log2 v) = true) as Hbit.
    { rewrite Z.land_spec, Z.bit_log2 by done. unfold upper_mask.
      rewrite Z.shiftl_spec by lia. apply Z.ones_spec_low. lia. }
    rewrite Hz, Z.bits_0 in Hbit. done.
Qed.

Lemma fls64_steps v :
  fls64 v =
  if v =? 0 then 0
  else (fls_step 1 (fls_step 2 (fls_step 4 (fls_step 8 (fls_step 16
         (fls_step 32 (v, 1))))))).2.
Proof.
  unfold fls64, fls_step. destruct (v =? 0); [done|].
  change (upper_mask 32) with 0xffffffff00000000.
  change (upper_mask 16) with 0xffff0000.
  change (upper_mask 8) with 0xff00.
  change (upper_mask 4) with 0xf0.
  change (upper_mask 2) with 0xc.
  change (upper_mask 1) with 0x2.
  cbn [fst snd].
  repeat (match goal with
          | |- context [Z.land ?a ?b =? 0] => destruct (Z.land a b =? 0)
          end; cbn [fst snd]); reflexivity.
Qed.

Lemma fls_step_spec k v r :
  0 < k → 0 < v < 2 ^ (2 * k) →
  0 < (fls_step k (v, r)).1 < 2 ^ k ∧
  Z.log2 (fls_step k (v, r)).1 + (fls_step k (v, r)).2 = Z.log2 v + r.
Proof.
  intros Hk Hv. unfold fls_step. cbn [fst snd].
  rewrite land_upper_mask_zero by lia.
  destruct (Z.ltb_spec v (2 ^ k)) as [Hlt|Hge]; cbn [fst snd]; [lia|].
  assert (0 < 2 ^ k) by (apply Z.pow_pos_nonneg; lia).
  assert (k ≤ Z.log2 v) by (apply Z.log2_le_pow2; lia).
  rewrite Z.log2_shiftr by lia. rewrite Z.shiftr_div_pow2 by lia.
  split; [|lia]. split.
  - apply Z.div_str_pos. lia.
  - apply Z.div_lt_upper_bound; [lia|]. rewrite <- Z.pow_add_r by lia.
    replace (k + k) with (2 * k) by lia. lia.
Qed.

(** [fls64] is the binary logarithm plus one. *)
Lemma fls64_log2 v : 0 < v < 2 ^ 64 → fls64 v = Z.log2 v + 1.
Proof.
  intros Hv. rewrite fls64_steps.
  destruct (Z.eqb_spec v 0) as [|_]; [lia|].
  pose proof (fls_step_spec 32 v 1 ltac:(lia) ltac:(done)) as [H32 E32].
  destruct (fls_step 32 (v, 1)) as [v1 r1]; cbn [fst snd] in *.
  pose proof (fls_step_spec 16 v1 r1 ltac:(lia) ltac:(done)) as [H16 E16].
  destruct (fls_step 16 (v1, r1)) as [v2 r2]; cbn [fst snd] in *.
  pose proof (fls_step_spec 8 v2 r2 ltac:(lia) ltac:(done)) as [H8 E8].
  destruct (fls_step 8 (v2, r2)) as [v3 r3]; cbn [fst snd] in *.
  pose proof (fls_step_spec 4 v3 r3 ltac:(lia) ltac:(done)) as [H4 E4].
  destruct (fls_step 4 (v3, r3)) as [v4 r4]; cbn [fst snd] in *.
  pose proof (fls_step_spec 2 v4 r4 ltac:(lia) ltac:(done)) as [H2 E2].
  destruct (fls_step 2 (v4, r4)) as [v5 r5]; cbn [fst snd] in *.
  pose proof (fls_step_spec 1 v5 r5 ltac:(lia) ltac:(done)) as [H1 E1].
  destruct (fls_step 1 (v5, r5)) as [v6 r6]; cbn [fst snd] in *.
  assert (v6 = 1) as -> by lia. change (Z.log2 1) with 0 in E1. lia.
Qed.

Lemma fls64_bounds v :
  0 < v < 2 ^ 64 → 1 ≤ fls64 v ≤ 64 ∧ 2 ^ (fls64 v - 1) ≤ v < 2 ^ fls64 v.
Proof.
  intros Hv. rewrite fls64_log2 by done.
  pose proof (Z.log2_spec v ltac:(lia)) as Hs.
  pose proof (Z.log2_nonneg v).
  assert (Z.log2 v < 64) by (apply Z.log2_lt_pow2; lia).
  replace (Z.log2 v + 1 - 1) with (Z.log2 v) by lia.
  replace (Z.log2 v + 1) with (Z.succ (Z.log2 v)) by lia. lia.
Qed.

(** [2 ^ fls64 v] is the smallest power of two strictly above [v]. *)
Lemma fls64_smallest_pow2_above v :
  0 ≤ v < 2 ^ 64 → smallest_pow2_above v (2 ^ fls64 v).
Proof.
  intros Hv. destruct (Z.eq_dec v 0) as [->|Hv0].
  - change (fls64 0) with 0. split; [|split].
    + exists 0. done.
    + reflexivity.
    + intros k Hk _. pose proof (Z.pow_pos_nonneg 2 k). lia.
  - destruct (fls64_bounds v ltac:(lia)) as [Hr [Hlo Hhi]]. split; [|split].
    + exists (fls64 v). split; [lia|done].
    + done.
    + intros k Hk Hvk. apply Z.pow_le_mono_r; [lia|].
      destruct (Z.lt_ge_cases k (fls64 v)) as [Hlt|]; [|done].
      pose proof (Z.pow_le_mono_r 2 k (fls64 v - 1)). lia.
Qed.

(** ** Bootstrap: the starting offset *)

Lemma min_size_64 : SHMCLASS_MIN_SIZE = Some 64.
Proof. reflexivity. Qed.

(** C7, as amended: the offset at which seeding starts is twice the
    smallest power of two strictly larger than the size of the segment
    header, that is [2 ^ (fls64 (sizeof (shmhead_t)) + 1)], and at least
    [SHMCLASS_MIN_SIZE]. *)
Theorem start_offset_twice_pow2_above {L : Layout} :
  0 < sizeof_shmhead < 2 ^ 29 →
  ∃ p, smallest_pow2_above sizeof_shmhead p ∧
       start_offset = Some (Z.max 64 (2 * p)).
Proof.
  intros Hh. assert (2 ^ 29 < 2 ^ 64) by done.
  exists (2 ^ fls64 sizeof_shmhead). split.
  - apply fls64_smallest_pow2_above. lia.
  - unfold start_offset. rewrite u64_small by lia.
    assert (0 < sizeof_shmhead < 2 ^ 64) as Hh' by lia.
    destruct (fls64_bounds sizeof_shmhead Hh') as [Hr [Hlo _]].
    assert (fls64 sizeof_shmhead ≤ 29) as Hle.
    { destruct (Z.lt_ge_cases 29 (fls64 sizeof_shmhead)) as [Hgt|]; [|lia].
      pose proof (Z.pow_le_mono_r 2 29 (fls64 sizeof_shmhead - 1)). lia. }
    rewrite shl1_small by lia. rewrite min_size_64. cbn [mbind option_bind].
    assert (0 < 2 ^ (fls64 sizeof_shmhead + 1) < 2 ^ 31) as Hp.
    { split; [apply Z.pow_pos_nonneg; lia|apply Z.pow_lt_mono_r; lia]. }
    rewrite !u64_small by lia.
    replace (2 ^ (fls64 sizeof_shmhead + 1)) with (2 * 2 ^ fls64 sizeof_shmhead)
      by (rewrite Z.pow_add_r, Z.pow_1_r by lia; lia).
    destruct (Z.ltb_spec (2 * 2 ^ fls64 sizeof_shmhead) 64); f_equal; lia.
Qed.

Lemma start_offset_twice_pow2_above_witness :
  0 < sizeof_shmhead (Layout:=lp64) < 2 ^ 29 ∧
  ∃ p, smallest_pow2_above (sizeof_shmhead (Layout:=lp64)) p ∧
       start_offset (L:=lp64) = Some (Z.max 64 (2 * p)).
Proof.
  split; [done|].
  apply (start_offset_twice_pow2_above (L:=lp64)). done.
Defined.

(** C7 as stated fails: with the LP64 header of 824 bytes seeding starts at
    2048, and the smallest power of two above 824 is 1024. *)
Lemma start_offset_not_smallest_pow2 :
  start_offset (L:=lp64) = Some 2048 ∧
  ¬ ∃ p, smallest_pow2_above (sizeof_shmhead (Layout:=lp64)) p ∧
         start_offset (L:=lp64) = Some (Z.max SHMCLASS_MIN_SIZE_bytes p).
Proof.
  split; [reflexivity|]. intros (p & (_ & _ & Hmin) & Hstart).
  specialize (Hmin 10 ltac:(done)).
  change (start_offset (L:=lp64)) with (Some 2048) in Hstart.
  injection Hstart as Hstart.
  change SHMCLASS_MIN_SIZE_bytes with 64 in Hstart.
  change (sizeof_shmhead (Layout:=lp64)) with 824 in Hmin.
  change (2 ^ 10) with 1024 in Hmin. specialize (Hmin ltac:(done)). lia.
Qed.

(** ** Offsets and addresses *)

Section translation.
Context {L : Layout}.

Lemma addr_to_offset_null s :
  shmhead s ≠ NULL → addr_to_offset NULL s = Ok (0, s).
Proof.
  intros Hs. unfold addr_to_offset, mbind, M_bind, bind, get, assert.
  destruct (Z.eqb_spec (shmhead s) NULL); done.
Qed.

Lemma offset_to_addr_zero s :
  shmhead s ≠ NULL → offset_to_addr 0 s = Ok (NULL, s).
Proof.
  intros Hs. unfold offset_to_addr, mbind, M_bind, bind, get, assert.
  destruct (Z.eqb_spec (shmhead s) NULL); done.
Qed.

Lemma addr_to_offset_eq s addr :
  shmhead s ≠ NULL → addr ≠ NULL →
  addr_to_offset addr s = Ok (Int.u64 (Int.u64 addr - Int.u64 (shmhead s)), s).
Proof.
  intros Hs Ha. unfold addr_to_offset, mbind, M_bind, bind, get, assert.
  destruct (Z.eqb_spec (shmhead s) NULL); [done|]. cbn.
  destruct (Z.eqb_spec addr NULL); done.
Qed.

Lemma offset_to_addr_eq s offset :
  shmhead s ≠ NULL → offset ≠ 0 →
  offset_to_addr offset s = Ok (Int.u64 (Int.u64 (shmhead s) + offset), s).
Proof.
  intros Hs Ho. unfold offset_to_addr, mbind, M_bind, bind, get, assert.
  destruct (Z.eqb_spec (shmhead s) NULL); [done|]. cbn.
  destruct (Z.eqb_spec offset 0); done.
Qed.

Lemma u64_sub_add a b :
  0 ≤ a < 2 ^ 64 → 0 ≤ b < 2 ^ 64 →
  Int.u64 (Int.u64 b + Int.u64 (Int.u64 a - Int.u64 b)) = a.
Proof.
  intros Ha Hb. rewrite (u64_small a), (u64_small b) by done.
  unfold Int.u64. rewrite Zplus_mod_idemp_r.
  replace (b + (a - b)) with a by lia. by apply Z.mod_small.
Qed.

Lemma u64_sub_nonzero a b :
  0 ≤ a < 2 ^ 64 → 0 ≤ b < 2 ^ 64 → a ≠ b →
  Int.u64 (Int.u64 a - Int.u64 b) ≠ 0.
Proof.
  intros Ha Hb Hab. rewrite (u64_small a), (u64_small b) by done.
  unfold Int.u64. intros Hz.
  apply Z.mod_divide in Hz; [|done]. destruct Hz as [q Hq].
  assert (q = 0) by nia. lia.
Qed.

(** C6, as amended: translation to an offset and back returns every
    non-null address other than the segment base itself; the null address
    and offset 0 translate to each other. *)
Theorem offset_roundtrip s addr :
  shmhead s ≠ NULL → 0 ≤ shmhead s < 2 ^ 64 →
  0 ≤ addr < 2 ^ 64 → addr ≠ NULL → addr ≠ shmhead s →
  (offset ← addr_to_offset addr; offset_to_addr offset) s = Ok (addr, s) ∧
  addr_to_offset NULL s = Ok (0, s) ∧
  offset_to_addr 0 s = Ok (NULL, s).
Proof.
  intros Hs Hr Ha Hn Hb. split; [|split].
  - unfold mbind, M_bind, bind. rewrite addr_to_offset_eq by done.
    rewrite offset_to_addr_eq by (try apply u64_sub_nonzero; done).
    by rewrite u64_sub_add.
  - by apply addr_to_offset_null.
  - by apply offset_to_addr_zero.
Qed.

End translation.

Lemma offset_roundtrip_witness :
  (offset ← addr_to_offset (shmhead seg4k + 2056); offset_to_addr offset) seg4k
    = Ok (shmhead seg4k + 2056, seg4k) ∧
  addr_to_offset NULL seg4k = Ok (0, seg4k) ∧
  offset_to_addr 0 seg4k = Ok (NULL, seg4k).
Proof.
  assert (shmhead seg4k = 0x7f0000000000) as E by (vm_compute; reflexivity).
  apply (offset_roundtrip seg4k (shmhead seg4k + 2056));
    rewrite E; unfold NULL; lia.
Defined.

(** C6 as stated fails at the segment base, an address inside the segment:
    its offset is 0, which translates back to the null address. *)
Lemma offset_roundtrip_fails_at_base :
  in_segment seg4k (shmhead seg4k) 1 = true ∧ shmhead seg4k ≠ NULL ∧
  (offset ← addr_to_offset (shmhead seg4k); offset_to_addr offset) seg4k
    = Ok (NULL, seg4k).
Proof.
  split; [|split]; [vm_compute; reflexivity|vm_compute; discriminate|].
  vm_compute. reflexivity.
Qed.

(** ** Evaluations on sample segments *)

(** C9 fails for class 31: [1 << 31] is computed on [int], so the seeding
    loop at offset 2^31 of a 4 GiB segment writes a class 31 chunk and then
    advances the offset by -2^31, to 0, instead of 2^32; the next round
    trips the assertion on [mclass]. *)
Theorem seed_class31_advance_wraps :
  SHMCLASS_MAX_SIZE = Some (- 2 ^ 31) ∧
  result (seed_round (L:=lp64) (2 ^ 31) header4g) = Some (Continue 0) ∧
  chunks (final_state (seed_round (L:=lp64) (2 ^ 31) header4g)) !! (2 ^ 31)
    = Some {| mclass := 31; active := false |} ∧
  shmmgr_init (L:=lp64) env_ok (2 ^ 32) false detached = AssertFail.
Proof. repeat split; vm_compute; reflexivity. Qed.

(** C8 fails when the lock cannot be initialised: [shmmgr_init_mutex]
    answers [false], and [shmmgr_init] still returns 0. *)
Theorem init_ignores_lock_failure :
  result (shmmgr_init_mutex env_nolock seg4k) = Some false ∧
  result (shmmgr_init (L:=lp64) env_nolock 4096 false detached) = Some 0.
Proof. split; vm_compute; reflexivity. Qed.

(** C5 fails at class 31: a request of 2^30 bytes has class 31, the free
    list of class 31 of the 4 KiB segment is empty, [shmmgr_alloc] calls
    [shmmgr_split_chunk] with 32, and the assertion of that function
    fails. *)
Theorem alloc_max_class_split_asserts :
  request_class (L:=lp64) (2 ^ 30) = SHMCLASS_MAX_BITS ∧
  free_chunks (L:=lp64) seg4k SHMCLASS_MAX_BITS = [] ∧
  shmmgr_split_chunk (L:=lp64) split_depth (SHMCLASS_MAX_BITS + 1)
    (set_locked true seg4k) = AssertFail ∧
  shmmgr_alloc (L:=lp64) (2 ^ 30) seg4k = AssertFail.
Proof. repeat split; vm_compute; reflexivity. Qed.

(** C3 fails: [shmmgr_alloc] never sets [active], so [shmmgr_free] merges a
    released chunk with a buddy that is still allocated.  After
    [buddy_trace] on the 4 KiB segment the chunks at offsets 3968 and 3840,
    buddies of class 7, are both on the free list of class 7. *)
Theorem free_leaves_buddies_on_free_list :
  result (buddy_trace seg4k)
    = Some (shmhead seg4k + 3976, shmhead seg4k + 3848, shmhead seg4k + 3976) ∧
  free_chunks (L:=lp64) (final_state (buddy_trace seg4k)) 7 = [3968; 3840] ∧
  buddy_of 3968 7 = 3840.
Proof. repeat split; vm_compute; reflexivity. Qed.

(** C1 as stated fails: the address returned for a request of one byte in
    the 4 KiB segment is 8 bytes into a 64 byte block. *)
Lemma alloc_address_not_aligned :
  result (shmmgr_alloc (L:=lp64) 1 seg4k) = Some (shmhead seg4k + 4040) ∧
  shmhead seg4k + 4040 ≠ NULL ∧
  (shmhead seg4k + 4040) `mod` 2 ^ SHMCLASS_MIN_BITS = 8.
Proof. repeat split; vm_compute; (reflexivity || discriminate). Qed.

(** ** Reasoning about computations *)

Section rules.
Context {A B : Type}.
Implicit Types (Q : A → shm → Prop) (s : shm).

Lemma wlp_ret (a : A) Q s : Q a s → wlp (mret a) Q s.
Proof. done. Qed.

Lemma wlp_bind (m : M A) (k : A → M B) (Q : B → shm → Prop) s :
  wlp m (λ a s1, wlp (k a) Q s1) s → wlp (m ≫= k) Q s.
Proof.
  unfold wlp, mbind, M_bind, bind. by destruct (m s) as [[a s1]| | |].
Qed.

Lemma wlp_mono (m : M A) Q (Q' : A → shm → Prop) s :
  wlp m Q s → (∀ a s', Q a s' → Q' a s') → wlp m Q' s.
Proof. unfold wlp. destruct (m s) as [[a s1]| | |]; auto. Qed.

(** What [wlp] says of a run. *)
Lemma wlp_elim (m : M A) Q s :
  wlp m Q s → m s ≠ Timeout ∧ ∀ a s', m s = Ok (a, s') → Q a s'.
Proof.
  unfold wlp. destruct (m s) as [[a s1]| | |]; intros HQ; split; try done.
  by intros a' s' [= <- <-].
Qed.

Lemma wlp_fault Q s : wlp fault Q s.
Proof. done. Qed.

Lemma wlp_defined (o : option A) Q s :
  (∀ a, o = Some a → Q a s) → wlp (defined o) Q s.
Proof. unfold wlp, defined. destruct o; auto. Qed.

Lemma wlp_if (b : bool) (m1 m2 : M A) Q s :
  (b = true → wlp m1 Q s) → (b = false → wlp m2 Q s) →
  wlp (if b then m1 else m2) Q s.
Proof. destruct b; auto. Qed.

Lemma wp_ret (a : A) Q s : Q a s → wp (mret a) Q s.
Proof. intros HQ. by exists a, s. Qed.

Lemma wp_bind (m : M A) (k : A → M B) (Q : B → shm → Prop) s :
  wp m (λ a s1, wp (k a) Q s1) s → wp (m ≫= k) Q s.
Proof.
  intros (a & s1 & Hm & b & s' & Hk & HQ). exists b, s'. split; [|done].
  unfold mbind, M_bind, bind. by rewrite Hm.
Qed.

Lemma wp_mono (m : M A) Q (Q' : A → shm → Prop) s :
  wp m Q s → (∀ a s', Q a s' → Q' a s') → wp m Q' s.
Proof. intros (a & s' & Hm & HQ) Himp. exists a, s'. auto. Qed.

Lemma wp_defined (a : A) Q s : Q a s → wp (defined (Some a)) Q s.
Proof. intros HQ. by exists a, s. Qed.

Lemma wp_wlp (m : M A) Q s : wp m (λ _ _, True) s → wlp m Q s → wp m Q s.
Proof.
  intros (a & s' & Hm & _) HQ. exists a, s'. split; [done|].
  unfold wlp in HQ. by rewrite Hm in HQ.
Qed.

End rules.

Lemma wlp_get Q s : Q s s → wlp get Q s.
Proof. done. Qed.

Lemma wlp_modify f Q s : Q tt (f s) → wlp (modify f) Q s.
Proof. done. Qed.

Lemma wlp_assert b Q s : (b = true → Q tt s) → wlp (assert b) Q s.
Proof. unfold wlp, assert. destruct b; auto. Qed.

Lemma wp_get Q s : Q s s → wp get Q s.
Proof. intros HQ. by exists s, s. Qed.

Lemma wp_modify f Q s : Q tt (f s) → wp (modify f) Q s.
Proof. intros HQ. by exists tt, (f s). Qed.

Lemma wp_assert b Q s : b = true → Q tt s → wp (assert b) Q s.
Proof. intros -> HQ. by exists tt, s. Qed.

Section memory_rules.
Context {L : Layout}.

Lemma wlp_load_link p Q s :
  (in_segment s p sizeof_shmlist = true →
   Q (default zero_link (links s !! (p - shmhead s))) s) →
  wlp (load_link p) Q s.
Proof.
  unfold wlp, load_link. destruct (in_segment s p sizeof_shmlist); auto.
Qed.

Lemma wlp_store_link p l Q s :
  (in_segment s p sizeof_shmlist = true →
   Q tt (set_links <[p - shmhead s := l]> s)) →
  wlp (store_link p l) Q s.
Proof.
  unfold wlp, store_link. destruct (in_segment s p sizeof_shmlist); auto.
Qed.

Lemma wlp_load_chunk p Q s :
  (in_segment s p offsetof_list = true →
   Q (default zero_chunk (chunks s !! (p - shmhead s))) s) →
  wlp (load_chunk p) Q s.
Proof.
  unfold wlp, load_chunk. destruct (in_segment s p offsetof_list); auto.
Qed.

Lemma wlp_store_chunk p c Q s :
  (in_segment s p offsetof_list = true →
   Q tt (set_chunks <[p - shmhead s := c]> s)) →
  wlp (store_chunk p c) Q s.
Proof.
  unfold wlp, store_chunk. destruct (in_segment s p offsetof_list); auto.
Qed.

Lemma wp_load_link p Q s :
  in_segment s p sizeof_shmlist = true →
  Q (default zero_link (links s !! (p - shmhead s))) s →
  wp (load_link p) Q s.
Proof. intros Hin HQ. eexists _, s. split; [|done]. unfold load_link. by rewrite Hin. Qed.

Lemma wp_store_link p l Q s :
  in_segment s p sizeof_shmlist = true →
  Q tt (set_links <[p - shmhead s := l]> s) →
  wp (store_link p l) Q s.
Proof. intros Hin HQ. eexists tt, _. split; [|done]. unfold store_link. by rewrite Hin. Qed.

End memory_rules.

(** One step of a proof about a computation: the rule of its head. *)
Ltac wlp_step :=
  lazymatch goal with
  | |- wlp (mret _) _ _ => apply wlp_ret
  | |- wlp (_ ≫= _) _ _ => apply wlp_bind
  | |- wlp get _ _ => apply wlp_get
  | |- wlp (modify _) _ _ => apply wlp_modify
  | |- wlp (assert _) _ _ => apply wlp_assert; intros ?
  | |- wlp (defined _) _ _ => apply wlp_defined; intros ? ?
  | |- wlp fault _ _ => apply wlp_fault
  | |- wlp (load_link _) _ _ => apply wlp_load_link; intros ?
  | |- wlp (store_link _ _) _ _ => apply wlp_store_link; intros ?
  | |- wlp (load_chunk _) _ _ => apply wlp_load_chunk; intros ?
  | |- wlp (store_chunk _ _) _ _ => apply wlp_store_chunk; intros ?
  | |- wlp (if ?b then _ else _) _ _ => destruct b eqn:?
  | |- wlp (match ?x with _ => _ end) _ _ => destruct x eqn:?
  end; cbv beta.

Ltac wlp_steps := repeat wlp_step.

(** ** The primitives of the model *)

Section primitives.
Context {L : Layout}.
Implicit Types (s : shm).

Lemma wlp_addr_to_offset addr Q s :
  (∀ o, shmhead s ≠ NULL →
        o = (if addr =? NULL then 0 else Int.u64 (Int.u64 addr - Int.u64 (shmhead s))) →
        Q o s) →
  wlp (addr_to_offset addr) Q s.
Proof.
  intros HQ. unfold addr_to_offset. wlp_steps; apply HQ; try done;
    by destruct (Z.eqb_spec (shmhead s) NULL).
Qed.

Lemma wlp_offset_to_addr offset Q s :
  (∀ a, shmhead s ≠ NULL →
        a = (if offset =? 0 then NULL else Int.u64 (Int.u64 (shmhead s) + offset)) →
        Q a s) →
  wlp (offset_to_addr offset) Q s.
Proof.
  intros HQ. unfold offset_to_addr. wlp_steps; apply HQ; try done;
    by destruct (Z.eqb_spec (shmhead s) NULL).
Qed.

Lemma wlp_free_list m Q s :
  (∀ a, 0 ≤ m ≤ SHMCLASS_MAX_BITS →
        a = Int.u64 (shmhead s + offsetof_free_list + m * sizeof_shmlist) →
        Q a s) →
  wlp (free_list m) Q s.
Proof.
  intros HQ. unfold free_list. wlp_steps. apply HQ; [|done].
  apply andb_true_iff in Heqb. lia.
Qed.

Lemma wlp_get_next p Q s :
  (∀ v, in_segment s p sizeof_shmlist = true →
        v = next (default zero_link (links s !! (p - shmhead s))) → Q v s) →
  wlp (get_next p) Q s.
Proof. intros HQ. unfold get_next. wlp_steps. by apply HQ. Qed.

Lemma wlp_get_prev p Q s :
  (∀ v, in_segment s p sizeof_shmlist = true →
        v = prev (default zero_link (links s !! (p - shmhead s))) → Q v s) →
  wlp (get_prev p) Q s.
Proof. intros HQ. unfold get_prev. wlp_steps. by apply HQ. Qed.

Lemma wlp_set_next p v Q s :
  (in_segment s p sizeof_shmlist = true →
   Q tt (set_links <[p - shmhead s :=
           {| next := v; prev := prev (default zero_link (links s !! (p - shmhead s))) |}]> s)) →
  wlp (set_next p v) Q s.
Proof. intros HQ. unfold set_next. wlp_steps. by apply HQ. Qed.

Lemma wlp_set_prev p v Q s :
  (in_segment s p sizeof_shmlist = true →
   Q tt (set_links <[p - shmhead s :=
           {| next := next (default zero_link (links s !! (p - shmhead s))); prev := v |}]> s)) →
  wlp (set_prev p v) Q s.
Proof. intros HQ. unfold set_prev. wlp_steps. by apply HQ. Qed.

Lemma wlp_get_mclass p Q s :
  (∀ v, in_segment s p offsetof_list = true →
        v = mclass (default zero_chunk (chunks s !! (p - shmhead s))) → Q v s) →
  wlp (get_mclass p) Q s.
Proof. intros HQ. unfold get_mclass. wlp_steps. by apply HQ. Qed.

Lemma wlp_get_active p Q s :
  (∀ v, in_segment s p offsetof_list = true →
        v = active (default zero_chunk (chunks s !! (p - shmhead s))) → Q v s) →
  wlp (get_active p) Q s.
Proof. intros HQ. unfold get_active. wlp_steps. by apply HQ. Qed.

Lemma wlp_set_mclass p v Q s :
  (in_segment s p offsetof_list = true →
   Q tt (set_chunks <[p - shmhead s :=
           {| mclass := Int.u8 v;
              active := active (default zero_chunk (chunks s !! (p - shmhead s))) |}]> s)) →
  wlp (set_mclass p v) Q s.
Proof. intros HQ. unfold set_mclass. wlp_steps. by apply HQ. Qed.

Lemma wlp_set_active p b Q s :
  (in_segment s p offsetof_list = true →
   Q tt (set_chunks <[p - shmhead s :=
           {| mclass := mclass (default zero_chunk (chunks s !! (p - shmhead s)));
              active := b |}]> s)) →
  wlp (set_active p b) Q s.
Proof. intros HQ. unfold set_active. wlp_steps. by apply HQ. Qed.

Lemma wlp_num_free_add i d Q s :
  (∀ v, array_get (num_free s) i = Some v → Q tt (set_num_free (array_add d i) s)) →
  wlp (num_free_add i d) Q s.
Proof. intros HQ. unfold num_free_add. wlp_steps. by eapply HQ. Qed.

Lemma wlp_num_active_add i d Q s :
  (∀ v, array_get (num_active s) i = Some v → Q tt (set_num_active (array_add d i) s)) →
  wlp (num_active_add i d) Q s.
Proof. intros HQ. unfold num_active_add. wlp_steps. by eapply HQ. Qed.

Lemma wlp_lock Q s : Q tt (set_locked true s) → wlp pthread_mutex_lock Q s.
Proof. apply wlp_modify. Qed.

Lemma wlp_unlock Q s : Q tt (set_locked false s) → wlp pthread_mutex_unlock Q s.
Proof. apply wlp_modify. Qed.

(** A computation that changes the state within a relation [R]. *)
Lemma wlp_frame {A} (m : M A) (R : shm → shm → Prop) Q s :
  wlp m (λ _ s', R s s') s → (∀ a s', R s s' → Q a s') → wlp m Q s.
Proof. intros Hm HQ. eapply wlp_mono; [done|]. by apply HQ. Qed.

End primitives.

(** The rule of the primitive at the head of the computation; [tac]
    receives the value read and the facts about it. *)
Ltac wlp_rule :=
  lazymatch goal with
  | |- wlp (addr_to_offset _) _ _ => apply wlp_addr_to_offset
  | |- wlp (offset_to_addr _) _ _ => apply wlp_offset_to_addr
  | |- wlp (free_list _) _ _ => apply wlp_free_list
  | |- wlp (get_next _) _ _ => apply wlp_get_next
  | |- wlp (get_prev _) _ _ => apply wlp_get_prev
  | |- wlp (get_mclass _) _ _ => apply wlp_get_mclass
  | |- wlp (get_active _) _ _ => apply wlp_get_active
  end.

(** One step through a primitive of the model, with the value it reads. *)
Ltac wlp_prim :=
  first
    [ wlp_rule; intros ? ? ->
    | lazymatch goal with
      | |- wlp (set_next _ _) _ _ => apply wlp_set_next; intros ?
      | |- wlp (set_prev _ _) _ _ => apply wlp_set_prev; intros ?
      | |- wlp (set_mclass _ _) _ _ => apply wlp_set_mclass; intros ?
      | |- wlp (set_active _ _) _ _ => apply wlp_set_active; intros ?
      | |- wlp (num_free_add _ _) _ _ => apply wlp_num_free_add; intros ? ?
      | |- wlp (num_active_add _ _) _ _ => apply wlp_num_active_add; intros ? ?
      | |- wlp pthread_mutex_lock _ _ => apply wlp_lock
      | |- wlp pthread_mutex_unlock _ _ => apply wlp_unlock
      | |- _ => wlp_step
      end ]; cbv beta.

Ltac wlp_prims := repeat wlp_prim.

(** The same step, forgetting what is read and where. *)
Ltac wlp_skip :=
  first
    [ wlp_rule; intros ? _ _
    | lazymatch goal with
      | |- wlp (set_next _ _) _ _ => apply wlp_set_next; intros _
      | |- wlp (set_prev _ _) _ _ => apply wlp_set_prev; intros _
      | |- wlp (set_mclass _ _) _ _ => apply wlp_set_mclass; intros _
      | |- wlp (set_active _ _) _ _ => apply wlp_set_active; intros _
      | |- wlp (num_free_add _ _) _ _ => apply wlp_num_free_add; intros ? ?
      | |- wlp (num_active_add _ _) _ _ => apply wlp_num_active_add; intros ? ?
      | |- wlp pthread_mutex_lock _ _ => apply wlp_lock
      | |- wlp pthread_mutex_unlock _ _ => apply wlp_unlock
      | |- _ => wlp_step
      end ]; cbv beta.

(** ** What the list operations leave alone *)

Section frames.
Context {L : Layout}.
Implicit Types (s : shm).

Lemma heap_only_refl s : heap_only s s.
Proof. exists (links s), (chunks s), (locked s). by destruct s. Qed.

Lemma heap_only_trans s1 s2 s3 : heap_only s1 s2 → heap_only s2 s3 → heap_only s1 s3.
Proof. intros (lk & ch & b & ->) (lk' & ch' & b' & ->). by exists lk', ch', b'. Qed.

Lemma heap_only_links s f : heap_only s (set_links f s).
Proof. by exists (f (links s)), (chunks s), (locked s). Qed.

Lemma heap_only_chunks s f : heap_only s (set_chunks f s).
Proof. by exists (links s), (f (chunks s)), (locked s). Qed.

Lemma heap_only_locked s b : heap_only s (set_locked b s).
Proof. by exists (links s), (chunks s), b. Qed.

Lemma heap_only_fields s s' :
  heap_only s s' →
  shmhead s' = shmhead s ∧ shmid s' = shmid s ∧ segment_size s' = segment_size s ∧
  num_active s' = num_active s ∧ num_free s' = num_free s.
Proof. by intros (lk & ch & b & ->). Qed.

End frames.

Create HintDb frame.
Global Hint Resolve heap_only_refl heap_only_links heap_only_chunks heap_only_locked : frame.

(** Closes a goal [heap_only s s'] from the steps taken so far. *)
Ltac frame_solve :=
  repeat match goal with
         | H : heap_only _ _ |- _ => destruct H as (? & ? & ? & ->)
         end;
  lazymatch goal with
  | |- heap_only ?s ?s' => exists (links s'), (chunks s'), (locked s'); reflexivity
  end.

Section list_frames.
Context {L : Layout}.
Implicit Types (s : shm).

Lemma shmlist_empty_pure list s :
  wlp (shmlist_empty list) (λ _ s', s' = s) s.
Proof. unfold shmlist_empty. wlp_prims. done. Qed.

Lemma shmlist_init_frame list s :
  wlp (shmlist_init list) (λ _ s', heap_only s s') s.
Proof. unfold shmlist_init. wlp_prims. frame_solve. Qed.

Lemma shmlist_add_frame base list s :
  wlp (shmlist_add base list) (λ _ s', heap_only s s') s.
Proof. unfold shmlist_add. wlp_prims. frame_solve. Qed.

Lemma shmlist_del_frame list s :
  wlp (shmlist_del list) (λ _ s', heap_only s s') s.
Proof. unfold shmlist_del, shmlist_init. wlp_prims. frame_solve. Qed.

End list_frames.

(** ** The counters *)



Lemma length_array_add d i a : length (array_add d i a) = length a.
Proof. unfold array_add. destruct (array_get a i); [apply length_insert|done]. Qed.








(** Steps through a list operation by its frame lemma. *)
Ltac wlp_list :=
  lazymatch goal with
  | |- wlp (shmlist_empty _) _ _ =>
      eapply (wlp_frame _ (λ s s', s' = s)); [apply shmlist_empty_pure|]; intros ? ? ->
  | |- wlp (shmlist_init _) _ _ =>
      eapply (wlp_frame _ heap_only); [apply shmlist_init_frame|]; intros ? ? ?
  | |- wlp (shmlist_add _ _) _ _ =>
      eapply (wlp_frame _ heap_only); [apply shmlist_add_frame|]; intros ? ? ?
  | |- wlp (shmlist_del _) _ _ =>
      eapply (wlp_frame _ heap_only); [apply shmlist_del_frame|]; intros ? ? ?
  | |- _ => wlp_skip
  end; cbv beta.


(** A branch that would need more fuel than the class allows. *)
Ltac fuel_absurd :=
  exfalso; unfold SHMCLASS_MAX_BITS, SHMCLASS_MIN_BITS in *;
  repeat match goal with
         | H : (_ && _) = true |- _ => apply andb_true_iff in H as [? ?]
         | H : negb _ = false |- _ => apply negb_false_iff in H
         | H : negb _ = true |- _ => apply negb_true_iff in H
         | H : (_ <? _) = true |- _ => apply Z.ltb_lt in H
         | H : (_ <? _) = false |- _ => apply Z.ltb_ge in H
         | H : (_ <=? _) = true |- _ => apply Z.leb_le in H
         | H : (_ <=? _) = false |- _ => apply Z.leb_gt in H
         | H : (_ =? _) = true |- _ => apply Z.eqb_eq in H
         | H : (_ =? _) = false |- _ => apply Z.eqb_neq in H
         end;
  lia.

Section accounting.
Context {L : Layout}.
Implicit Types (s : shm).







End accounting.

(** ** Seeding *)

Section seeding.
Context {L : Layout}.
Implicit Types (s : shm).





Lemma seeded_heap_only start size offset s s' :
  seeded start size offset s → heap_only s s' → seeded start size offset s'.
Proof. intros Hs (lk & ch & b & ->). done. Qed.








End seeding.

(** ** Conservation of the counters *)




(** ** The offset list *)

Section links.
Context {L : Layout}.
Implicit Types (s : shm) (p q : Z) (R : Z → Prop).

Lemma is_link_range s p :
  0 < sizeof_shmlist → mapped s → is_link s p → shmhead s < p < 2 ^ 64.
Proof.
  intros Hsz [Hh Hend] [Hin Hne]. unfold in_segment in Hin.
  apply andb_true_iff in Hin as [H1 H2].
  apply Z.leb_le in H1, H2. lia.
Qed.

Lemma offset_of_link s p :
  0 < sizeof_shmlist → mapped s → is_link s p → offset_of s p = p - shmhead s.
Proof.
  intros Hsz Hm Hp. pose proof (is_link_range s p Hsz Hm Hp). destruct Hm.
  unfold offset_of, NULL. destruct (Z.eqb_spec p 0); [lia|].
  rewrite (u64_small p), (u64_small (shmhead s)) by lia. apply u64_small. lia.
Qed.

Lemma addr_of_offset_of s p :
  0 < sizeof_shmlist → mapped s → is_link s p → addr_of s (offset_of s p) = p.
Proof.
  intros Hsz Hm Hp. rewrite offset_of_link by done.
  pose proof (is_link_range s p Hsz Hm Hp). destruct Hm.
  unfold addr_of. destruct (Z.eqb_spec (p - shmhead s) 0); [lia|].
  rewrite (u64_small (shmhead s)) by lia.
  replace (shmhead s + (p - shmhead s)) with p by lia. apply u64_small. lia.
Qed.

Lemma offset_of_inj s p q :
  0 < sizeof_shmlist → mapped s → is_link s p → is_link s q →
  offset_of s p = offset_of s q → p = q.
Proof.
  intros Hsz Hm Hp Hq. rewrite !offset_of_link by done. lia.
Qed.

Lemma offset_of_nonzero s p :
  0 < sizeof_shmlist → mapped s → is_link s p → offset_of s p ≠ 0.
Proof.
  intros Hsz Hm Hp. rewrite offset_of_link by done.
  pose proof (is_link_range s p Hsz Hm Hp). lia.
Qed.

(** The state after a store. *)
Lemma link_at_store s q l p :
  link_at (store s q l) p = if decide (p = q) then l else link_at s p.
Proof.
  unfold link_at, store. cbn [links shmhead set_links].
  destruct (decide (p = q)) as [->|Hne].
  - by rewrite lookup_insert_eq.
  - rewrite lookup_insert_ne; [done|lia].
Qed.

Lemma addr_of_store s q l o : addr_of (store s q l) o = addr_of s o.
Proof. done. Qed.

Lemma offset_of_store s q l p : offset_of (store s q l) p = offset_of s p.
Proof. done. Qed.

Lemma is_link_store s q l p : is_link (store s q l) p ↔ is_link s p.
Proof. done. Qed.

Lemma mapped_store s q l : mapped (store s q l) ↔ mapped s.
Proof. done. Qed.

Lemma next_of_store s q l p :
  next_of (store s q l) p = if decide (p = q) then addr_of s (next l) else next_of s p.
Proof. unfold next_of. rewrite link_at_store, addr_of_store. by destruct (decide _). Qed.

Lemma prev_of_store s q l p :
  prev_of (store s q l) p = if decide (p = q) then addr_of s (prev l) else prev_of s p.
Proof. unfold prev_of. rewrite link_at_store, addr_of_store. by destruct (decide _). Qed.

(** The list primitives return on links. *)
Lemma wp_addr_to_offset addr Q s :
  mapped s → Q (offset_of s addr) s → wp (addr_to_offset addr) Q s.
Proof.
  intros [Hh _] HQ. unfold addr_to_offset. apply wp_bind, wp_get.
  apply wp_bind, wp_assert.
  { apply negb_true_iff, Z.eqb_neq. unfold NULL. lia. }
  unfold offset_of in HQ. destruct (addr =? NULL); by apply wp_ret.
Qed.

Lemma wp_offset_to_addr offset Q s :
  mapped s → Q (addr_of s offset) s → wp (offset_to_addr offset) Q s.
Proof.
  intros [Hh _] HQ. unfold offset_to_addr. apply wp_bind, wp_get.
  apply wp_bind, wp_assert.
  { apply negb_true_iff, Z.eqb_neq. unfold NULL. lia. }
  unfold addr_of in HQ. destruct (offset =? 0); by apply wp_ret.
Qed.

Lemma wp_get_next p Q s :
  is_link s p → Q (next (link_at s p)) s → wp (get_next p) Q s.
Proof.
  intros [Hin _] HQ. unfold get_next. apply wp_bind, wp_load_link; [done|].
  by apply wp_ret.
Qed.

Lemma wp_get_prev p Q s :
  is_link s p → Q (prev (link_at s p)) s → wp (get_prev p) Q s.
Proof.
  intros [Hin _] HQ. unfold get_prev. apply wp_bind, wp_load_link; [done|].
  by apply wp_ret.
Qed.

Lemma wp_set_next p v Q s :
  is_link s p →
  Q tt (store s p {| next := v; prev := prev (link_at s p) |}) →
  wp (set_next p v) Q s.
Proof.
  intros [Hin _] HQ. unfold set_next. apply wp_bind, wp_load_link; [done|].
  by apply wp_store_link.
Qed.

Lemma wp_set_prev p v Q s :
  is_link s p →
  Q tt (store s p {| next := next (link_at s p); prev := v |}) →
  wp (set_prev p v) Q s.
Proof.
  intros [Hin _] HQ. unfold set_prev. apply wp_bind, wp_load_link; [done|].
  by apply wp_store_link.
Qed.

End links.

Section rings.
Context {L : Layout}.
Context (Hsz : 0 < sizeof_shmlist).
Implicit Types (s : shm) (p q : Z) (R : Z → Prop).

(** The neighbours of a link of a ring, and what its fields hold. *)
Lemma rings_elim s R p :
  mapped s → rings s R → R p →
  is_link s p ∧
  ∃ n q, R n ∧ R q ∧ is_link s n ∧ is_link s q ∧
         next (link_at s p) = offset_of s n ∧ prev (link_at s p) = offset_of s q ∧
         prev (link_at s n) = offset_of s p ∧ next (link_at s q) = offset_of s p.
Proof.
  intros Hm HR Hp.
  destruct (HR p Hp) as ((Hlp & Hln & Hlq & Hnp & Hqn) & HRn & HRq).
  split; [done|]. exists (next_of s p), (prev_of s p).
  destruct (HR _ HRn) as ((_ & _ & _ & _ & Hn') & _ & _).
  destruct (HR _ HRq) as ((_ & _ & _ & Hq' & _) & _ & _).
  assert (prev_of s (next_of s p) = p) as Epn.
  { unfold prev_of at 1. rewrite Hnp. by apply addr_of_offset_of. }
  assert (next_of s (prev_of s p) = p) as Enp.
  { unfold next_of at 1. rewrite Hqn. by apply addr_of_offset_of. }
  rewrite Epn in Hn'. rewrite Enp in Hq'. done.
Qed.

Lemma rings_intro s R :
  mapped s →
  (∀ p, R p →
     is_link s p ∧
     ∃ n q, R n ∧ R q ∧ is_link s n ∧ is_link s q ∧
            next (link_at s p) = offset_of s n ∧ prev (link_at s p) = offset_of s q ∧
            prev (link_at s n) = offset_of s p ∧ next (link_at s q) = offset_of s p) →
  rings s R.
Proof.
  intros Hm HR p Hp.
  destruct (HR p Hp) as (Hlp & n & q & HRn & HRq & Hln & Hlq & En & Eq & Hnp & Hqn).
  unfold linked.
  assert (next_of s p = n) as ->.
  { unfold next_of. rewrite En. by apply addr_of_offset_of. }
  assert (prev_of s p = q) as ->.
  { unfold prev_of. rewrite Eq. by apply addr_of_offset_of. }
  auto 10.
Qed.

(** A link that lies on no ring is not the neighbour of a link of a ring. *)
Lemma rings_closed s R p n :
  mapped s → rings s R → R p → is_link s n →
  next (link_at s p) = offset_of s n ∨ prev (link_at s p) = offset_of s n → R n.
Proof.
  intros Hm HR Hp Hn Hor.
  destruct (rings_elim s R p Hm HR Hp)
    as (Hlp & n' & q' & HRn & HRq & Hln & Hlq & En & Eq & _).
  destruct Hor as [E|E].
  - rewrite En in E. by rewrite <- (offset_of_inj s n' n Hsz Hm Hln Hn E).
  - rewrite Eq in E. by rewrite <- (offset_of_inj s q' n Hsz Hm Hlq Hn E).
Qed.

(** [shmlist_init]: the state it returns. *)
Lemma shmlist_init_returns s p Q :
  mapped s → is_link s p →
  Q tt (store (store s p {| next := next (link_at s p); prev := offset_of s p |})
          p {| next := offset_of s p; prev := offset_of s p |}) →
  wp (shmlist_init p) Q s.
Proof.
  intros Hm Hp HQ. unfold shmlist_init.
  apply wp_bind, wp_addr_to_offset; [done|].
  apply wp_bind, wp_set_prev; [done|].
  apply wp_set_next; [done|].
  by rewrite link_at_store, decide_True.
Qed.

(** [shmlist_init] on a link that lies on no ring makes it a ring of its
    own and leaves the rings as they are. *)
Lemma shmlist_init_rings s R p :
  mapped s → rings s R → ¬ R p → is_link s p →
  wp (shmlist_init p)
    (λ _ s', mapped s' ∧ rings s' (λ q, R q ∨ q = p) ∧ self_ring s' p) s.
Proof.
  intros Hm HR Hnp Hp. apply shmlist_init_returns; [done..|].
  set (s' := store (store _ _ _) _ _).
  assert (∀ q, link_at s' q = if decide (q = p)
                              then {| next := offset_of s p; prev := offset_of s p |}
                              else link_at s q) as Hat.
  { intros q. unfold s'. rewrite !link_at_store. by destruct (decide (q = p)). }
  split; [done|]. split.
  - apply rings_intro; [done|]. intros q [Hq| ->].
    + destruct (rings_elim s R q Hm HR Hq)
        as (Hlq & n & r & HRn & HRr & Hln & Hlr & En & Er & Hnq & Hrq).
      split; [done|]. exists n, r. rewrite !Hat.
      rewrite !decide_False by (intros ->; done). auto 10.
    + split; [done|]. exists p, p. rewrite !Hat, decide_True by done. auto 10.
  - unfold self_ring. by rewrite Hat, decide_True.
Qed.

(** [shmlist_add]: the state it returns. *)
Lemma shmlist_add_returns s b p Q :
  mapped s → is_link s b → is_link s p → is_link s (next_of s b) →
  (∀ s', (∀ q, link_at s' q =
            if decide (q = next_of s b)
            then {| next := (if decide (next_of s b = p) then offset_of s (next_of s b)
                             else if decide (next_of s b = b) then offset_of s p
                             else next (link_at s (next_of s b)));
                    prev := offset_of s p |}
            else if decide (q = p)
            then {| next := offset_of s (next_of s b); prev := offset_of s b |}
            else if decide (q = b)
            then {| next := offset_of s p; prev := prev (link_at s b) |}
            else link_at s q) →
         shmhead s' = shmhead s → segment_size s' = segment_size s →
         Q tt s') →
  wp (shmlist_add b p) Q s.
Proof.
  intros Hm Hb Hp Hn HQ. unfold shmlist_add.
  apply wp_bind, wp_get_next; [done|].
  apply wp_bind, wp_offset_to_addr; [done|]. fold (next_of s b).
  apply wp_bind, wp_addr_to_offset; [done|].
  apply wp_bind, wp_set_next; [done|].
  apply wp_bind, wp_addr_to_offset; [done|].
  apply wp_bind, wp_set_prev; [done|].
  apply wp_bind, wp_addr_to_offset; [done|].
  apply wp_bind, wp_set_next; [done|].
  apply wp_bind, wp_addr_to_offset; [done|].
  apply wp_set_prev; [done|].
  apply HQ; [|done|done]. intros q.
  rewrite !link_at_store. rewrite !offset_of_store.
  repeat (case_decide; subst; cbn [next prev]; try done).
Qed.

(** Two links whose offsets are stored in the same field are the same
    link. *)
Ltac same_offsets :=
  repeat match goal with
         | H1 : ?X = offset_of ?s ?a, H2 : ?X = offset_of ?s ?b |- _ =>
             lazymatch a with
             | b => fail
             | _ =>
                 let E := fresh "E" in
                 assert (a = b) as E
                   by (apply (offset_of_inj s);
                       [assumption|assumption|assumption|assumption|congruence]);
                 first [subst a | subst b | (rewrite E in *; clear E)]
             end
         end.

(** [shmlist_add] keeps the rings, with the new link on the ring of the
    base. *)
Lemma shmlist_add_rings s R b p :
  mapped s → rings s R → R b → ¬ R p → is_link s p →
  wp (shmlist_add b p)
    (λ _ s', mapped s' ∧ rings s' (λ q, R q ∨ q = p) ∧
             next_of s' b = p ∧ prev_of s' p = b ∧ next_of s' p = next_of s b) s.
Proof.
  intros Hm HR Hb Hnp Hp.
  destruct (rings_elim s R b Hm HR Hb)
    as (Hlb & n & qb & HRn & HRqb & Hln & Hlqb & Enb & Eqb & Hnb & Hqbb).
  assert (next_of s b = n) as En.
  { unfold next_of. rewrite Enb. by apply addr_of_offset_of. }
  apply shmlist_add_returns; [done|done|done|by rewrite En|].
  rewrite En. clear En. intros s' Hat Hh Hs.
  assert (mapped s') as Hm' by (unfold mapped; by rewrite Hh, Hs).
  assert (∀ q, is_link s' q ↔ is_link s q) as Hl'
    by (intros q; unfold is_link, in_segment; by rewrite Hh, Hs).
  assert (∀ q, offset_of s' q = offset_of s q) as Ho'
    by (intros q; unfold offset_of; by rewrite Hh).
  assert (∀ q, is_link s q → addr_of s' (offset_of s q) = q) as Ha'.
  { intros q Hq. rewrite <- Ho'. apply addr_of_offset_of; [done|done|by apply Hl']. }
  assert (n ≠ p) as Hnp' by (by intros ->).
  assert (b ≠ p) as Hbp by (by intros ->).
  split; [done|]. split; [|split; [|split]].
  - apply rings_intro; [done|]. intros q [Hq| ->].
    + destruct (rings_elim s R q Hm HR Hq)
        as (Hlq & nq & rq & HRnq & HRrq & Hlnq & Hlrq & Enq & Erq & Hnq & Hrq).
      assert (q ≠ p) as Hqp by (by intros ->).
      assert (nq ≠ p) as Hnqp by (by intros ->).
      assert (rq ≠ p) as Hrqp by (by intros ->).
      split; [by apply Hl'|].
      exists (if decide (q = b) then p else nq), (if decide (q = n) then p else rq).
      rewrite !Hat, !Ho', !Hl'.
      repeat (case_decide; try done); cbn [next prev]; subst; same_offsets;
        repeat (match goal with |- _ ∧ _ => split end);
        try done; try (by left); try (by right); try congruence.
    + split; [by apply Hl'|]. exists n, b.
      rewrite !Hat, !Ho', !Hl'.
      repeat (case_decide; try done); cbn [next prev]; subst; same_offsets;
        repeat (match goal with |- _ ∧ _ => split end);
        try done; try (by left); try (by right); try congruence.
  - unfold next_of. rewrite Hat.
    repeat (case_decide; try done); cbn [next]; subst; try done; by apply Ha'.
  - unfold prev_of. rewrite Hat.
    repeat (case_decide; try done); cbn [prev]; subst; try done; by apply Ha'.
  - unfold next_of at 1. rewrite Hat.
    repeat (case_decide; try done); cbn [next]; subst; try done; by apply Ha'.
Qed.

(** [shmlist_del]: the state it returns. *)
Lemma shmlist_del_returns s p Q :
  mapped s → is_link s p → is_link s (prev_of s p) → is_link s (next_of s p) →
  (∀ s', (∀ q, link_at s' q =
            if decide (q = p)
            then {| next := offset_of s p; prev := offset_of s p |}
            else if decide (q = next_of s p)
            then {| next := (if decide (next_of s p = prev_of s p)
                             then offset_of s (next_of s p)
                             else next (link_at s (next_of s p)));
                    prev := offset_of s (prev_of s p) |}
            else if decide (q = prev_of s p)
            then {| next := offset_of s (next_of s p);
                    prev := prev (link_at s (prev_of s p)) |}
            else link_at s q) →
         shmhead s' = shmhead s → segment_size s' = segment_size s →
         Q tt s') →
  wp (shmlist_del p) Q s.
Proof.
  intros Hm Hp Hq Hn HQ. unfold shmlist_del.
  apply wp_bind, wp_get_prev; [done|].
  apply wp_bind, wp_offset_to_addr; [done|]. fold (prev_of s p).
  apply wp_bind, wp_get_next; [done|].
  apply wp_bind, wp_offset_to_addr; [done|]. fold (next_of s p).
  apply wp_bind, wp_addr_to_offset; [done|].
  apply wp_bind, wp_set_next; [done|].
  apply wp_bind, wp_addr_to_offset; [done|].
  apply wp_bind, wp_set_prev; [done|].
  apply shmlist_init_returns; [done|done|].
  apply HQ; [|done|done]. intros q.
  rewrite !link_at_store. rewrite !offset_of_store.
  repeat (case_decide; subst; cbn [next prev]; try done); congruence.
Qed.

(** [shmlist_del] takes a link out of its ring: the link becomes a ring of
    its own, and the other links still form rings. *)
Lemma shmlist_del_rings s R p :
  mapped s → rings s R → R p →
  wp (shmlist_del p)
    (λ _ s', mapped s' ∧ rings s' (λ q, R q ∧ q ≠ p) ∧
             self_ring s' p ∧ rings s' (λ q, q = p)) s.
Proof.
  intros Hm HR Hp.
  destruct (rings_elim s R p Hm HR Hp)
    as (Hlp & n & r & HRn & HRr & Hln & Hlr & Enp & Erp & Hnp & Hrp).
  assert (next_of s p = n) as En.
  { unfold next_of. rewrite Enp. by apply addr_of_offset_of. }
  assert (prev_of s p = r) as Er.
  { unfold prev_of. rewrite Erp. by apply addr_of_offset_of. }
  apply shmlist_del_returns; [done|done|by rewrite Er|by rewrite En|].
  rewrite En, Er. clear En Er. intros s' Hat Hh Hs.
  assert (mapped s') as Hm' by (unfold mapped; by rewrite Hh, Hs).
  assert (∀ q, is_link s' q ↔ is_link s q) as Hl'
    by (intros q; unfold is_link, in_segment; by rewrite Hh, Hs).
  assert (∀ q, offset_of s' q = offset_of s q) as Ho'
    by (intros q; unfold offset_of; by rewrite Hh).
  split; [done|]. split; [|split].
  - apply rings_intro; [done|]. intros q [Hq Hqp].
    destruct (rings_elim s R q Hm HR Hq)
      as (Hlq & nq & rq & HRnq & HRrq & Hlnq & Hlrq & Enq & Erq & Hnq & Hrq).
    split; [by apply Hl'|].
    exists (if decide (q = r) then n else nq), (if decide (q = n) then r else rq).
    rewrite !Hat, !Ho', !Hl'.
    destruct (decide (nq = p)), (decide (rq = p)), (decide (n = p)), (decide (r = p));
      repeat (case_decide; try done); cbn [next prev]; subst; same_offsets;
      repeat (match goal with |- _ ∧ _ => split end);
      try done; try congruence.
  - unfold self_ring. by rewrite Hat, Ho', decide_True.
  - apply rings_intro; [done|]. intros q ->.
    split; [by apply Hl'|]. exists p, p.
    rewrite !Hat, !Ho', !Hl', decide_True by done. cbn [next prev]. auto 10.
Qed.

End rings.

(** C10, as amended: the three list operations return and keep the ring
    invariant when the link initialised or added is on no ring yet.
    On a state whose links [R] form rings, [shmlist_init] of a link outside
    [R] makes it a ring of its own; [shmlist_add] of such a link after a
    link [base] of a ring puts it on that ring; [shmlist_del] of a link
    [old] of a ring leaves [old] an empty ring of its own,
    [old->next == old->prev == addr_to_offset(old)], and the other links
    still form rings. *)
Theorem shmlist_keeps_rings {L : Layout} (s : shm) (R : Z → Prop) (base list old : Z) :
  0 < sizeof_shmlist → mapped s → rings s R →
  R base → ¬ R list → is_link s list → R old →
  wp (shmlist_init list)
    (λ _ s', rings s' (λ q, R q ∨ q = list) ∧ self_ring s' list) s ∧
  wp (shmlist_add base list)
    (λ _ s', rings s' (λ q, R q ∨ q = list) ∧
             next_of s' base = list ∧ prev_of s' list = base ∧
             next_of s' list = next_of s base) s ∧
  wp (shmlist_del old)
    (λ _ s', rings s' (λ q, R q ∧ q ≠ old) ∧ self_ring s' old ∧
             rings s' (λ q, q = old)) s.
Proof.
  intros Hsz Hm HR Hbase Hlist Hlink Hold. split; [|split].
  - eapply wp_mono; [by apply shmlist_init_rings|]. cbv beta. by intros _ s' (_ & ? & ?).
  - eapply wp_mono; [by apply shmlist_add_rings|]. cbv beta. by intros _ s' (_ & ? & ?).
  - eapply wp_mono; [by apply shmlist_del_rings|]. cbv beta. by intros _ s' (_ & ? & ?).
Qed.

(** The ring of [free_list[11]] of the 4 KiB segment: the sentinel and the
    link of the chunk at offset 2048. *)
Lemma seg4k_ring :
  rings (L:=lp64) seg4k
    (λ q, q = 0x7f0000000000 + 192 ∨ q = 0x7f0000000000 + 2056).
Proof.
  assert (mapped seg4k) as Hm by (split; vm_compute; congruence).
  assert (is_link (L:=lp64) seg4k (0x7f0000000000 + 192)) as H1
    by (split; vm_compute; congruence).
  assert (is_link (L:=lp64) seg4k (0x7f0000000000 + 2056)) as H2
    by (split; vm_compute; congruence).
  apply (rings_intro (L:=lp64)); [reflexivity|exact Hm|]. intros q [-> | ->].
  - split; [exact H1|]. exists (0x7f0000000000 + 2056), (0x7f0000000000 + 2056).
    split; [by right|]. split; [by right|]. split; [exact H2|]. split; [exact H2|].
    repeat split; vm_compute; reflexivity.
  - split; [exact H2|]. exists (0x7f0000000000 + 192), (0x7f0000000000 + 192).
    split; [by left|]. split; [by left|]. split; [exact H1|]. split; [exact H1|].
    repeat split; vm_compute; reflexivity.
Qed.

Lemma shmlist_keeps_rings_witness :
  let R := λ q, q = 0x7f0000000000 + 192 ∨ q = 0x7f0000000000 + 2056 in
  let base := 0x7f0000000000 + 192 in
  let list := 0x7f0000000000 + 4040 in
  let old := 0x7f0000000000 + 2056 in
  wp (shmlist_init (L:=lp64) list)
    (λ _ s', rings (L:=lp64) s' (λ q, R q ∨ q = list) ∧ self_ring s' list) seg4k ∧
  wp (shmlist_add (L:=lp64) base list)
    (λ _ s', rings (L:=lp64) s' (λ q, R q ∨ q = list) ∧
             next_of s' base = list ∧ prev_of s' list = base ∧
             next_of s' list = next_of seg4k base) seg4k ∧
  wp (shmlist_del (L:=lp64) old)
    (λ _ s', rings (L:=lp64) s' (λ q, R q ∧ q ≠ old) ∧ self_ring s' old ∧
             rings (L:=lp64) s' (λ q, q = old)) seg4k.
Proof.
  intros R base list old.
  apply (shmlist_keeps_rings (L:=lp64) seg4k R base list old).
  - reflexivity.
  - split; vm_compute; congruence.
  - apply seg4k_ring.
  - by left.
  - unfold R, list. lia.
  - split; vm_compute; congruence.
  - by right.
Defined.

(** C10 as stated fails: [shmlist_add] and [shmlist_init] do not test
    whether the link is on a ring already.  After [ring_trace] on the 4 KiB
    segment the sentinel of [free_list[8]] and the link at offset 3848 form
    a ring, and that link is the address the trace still holds.
    [shmlist_add] of the sentinel and the link, the call that [shmmgr_free]
    of this address makes, leaves the sentinel with the link as its [next]
    while the [prev] of the link is the link itself; [shmlist_init] of the
    link does the same. *)
Lemma shmlist_add_member_breaks_ring :
  let s := final_state (ring_trace seg4k) in
  let base := 0x7f0000000000 + 144 in
  let list := 0x7f0000000000 + 3848 in
  let R := λ q, q = base ∨ q = list in
  result (ring_trace seg4k) = Some list ∧
  rings (L:=lp64) s R ∧
  (∃ s', shmlist_add (L:=lp64) base list s = Ok (tt, s') ∧
         next_of s' base = list ∧
         prev (link_at s' (next_of s' base)) ≠ offset_of s' base ∧
         ¬ rings (L:=lp64) s' R ∧
         links (final_state (shmmgr_free (L:=lp64) list s)) = links s') ∧
  (∃ s', shmlist_init (L:=lp64) list s = Ok (tt, s') ∧
         next_of s' base = list ∧
         prev (link_at s' (next_of s' base)) ≠ offset_of s' base ∧
         ¬ rings (L:=lp64) s' R).
Proof.
  intros s base list R.
  assert (mapped s) as Hm by (split; vm_compute; congruence).
  assert (is_link (L:=lp64) s base) as H1 by (split; vm_compute; congruence).
  assert (is_link (L:=lp64) s list) as H2 by (split; vm_compute; congruence).
  split; [vm_compute; reflexivity|]. split; [|split].
  - apply (rings_intro (L:=lp64)); [reflexivity|exact Hm|]. intros q [-> | ->].
    + split; [exact H1|]. exists list, list.
      split; [by right|]. split; [by right|]. split; [exact H2|]. split; [exact H2|].
      repeat split; vm_compute; reflexivity.
    + split; [exact H2|]. exists base, base.
      split; [by left|]. split; [by left|]. split; [exact H1|]. split; [exact H1|].
      repeat split; vm_compute; reflexivity.
  - exists (final_state (shmlist_add (L:=lp64) base list s)).
    split; [vm_compute; reflexivity|]. split; [vm_compute; reflexivity|].
    split; [vm_compute; congruence|]. split; [|vm_compute; reflexivity].
    intros HR. unfold rings in HR.
    specialize (HR base (or_introl eq_refl)) as [(_ & _ & _ & Hp & _) _].
    vm_compute in Hp. congruence.
  - exists (final_state (shmlist_init (L:=lp64) list s)).
    split; [vm_compute; reflexivity|]. split; [vm_compute; reflexivity|].
    split; [vm_compute; congruence|].
    intros HR. unfold rings in HR.
    specialize (HR base (or_introl eq_refl)) as [(_ & _ & _ & Hp & _) _].
    vm_compute in Hp. congruence.
Qed.

(** ** Allocation *)

Section allocation.
Context {L : Layout}.
Implicit Types (s : shm).

Lemma links_only_refl s : links_only s s.
Proof. exists (links s). by destruct s. Qed.

Lemma links_only_trans s1 s2 s3 : links_only s1 s2 → links_only s2 s3 → links_only s1 s3.
Proof. intros (lk & ->) (lk' & ->). by exists lk'. Qed.

(** Closes a goal [links_only s s'] from the steps taken so far. *)
Local Ltac links_solve :=
  repeat match goal with
         | H : links_only _ _ |- _ => destruct H as (? & ->)
         end;
  lazymatch goal with
  | |- links_only ?s ?s' => exists (links s'); reflexivity
  end.

Lemma shmlist_init_links list s :
  wlp (shmlist_init list) (λ _ s', links_only s s') s.
Proof. unfold shmlist_init. repeat wlp_skip. links_solve. Qed.

Lemma shmlist_add_links base list s :
  wlp (shmlist_add base list) (λ _ s', links_only s s') s.
Proof. unfold shmlist_add. repeat wlp_skip. links_solve. Qed.

Lemma shmlist_del_links list s :
  wlp (shmlist_del list)
    (λ _ s', links_only s s' ∧ in_segment s list sizeof_shmlist = true) s.
Proof.
  unfold shmlist_del, shmlist_init. wlp_step. apply wlp_get_prev. intros v Hin _.
  repeat wlp_skip. split; [links_solve|done].
Qed.

Lemma u64_divide k x : 0 ≤ k ≤ 64 → (2 ^ k | Int.u64 x) ↔ (2 ^ k | x).
Proof.
  intros Hk. unfold Int.u64.
  assert (2 ^ k | 2 ^ 64) as Hd.
  { exists (2 ^ (64 - k)). rewrite <- Z.pow_add_r by lia. f_equal. lia. }
  rewrite (Z.div_mod x (2 ^ 64)) at 2 by lia. split; intros H.
  - apply Z.divide_add_r; [|done]. by apply Z.divide_mul_l.
  - eapply Z.divide_add_cancel_r; [|done]. by apply Z.divide_mul_l.
Qed.

Lemma chunks_aligned_insert s k h :
  chunks_aligned s → (2 ^ SHMCLASS_MIN_BITS | k) →
  chunks_aligned (set_chunks <[k := h]> s).
Proof.
  intros Hs Hk c h'. cbn [chunks set_chunks]. rewrite lookup_insert.
  case_decide; [by intros _; subst|]. apply Hs.
Qed.

(** A header that reads a class other than 0 was written. *)
Lemma chunk_written_aligned s k :
  chunks_aligned s → mclass (default zero_chunk (chunks s !! k)) ≠ 0 →
  (2 ^ SHMCLASS_MIN_BITS | k).
Proof.
  intros Hs Hm. destruct (chunks s !! k) as [h|] eqn:E; [by eapply Hs|done].
Qed.

Lemma u64_eq x : ∃ q, Int.u64 x = x - 2 ^ 64 * q.
Proof.
  exists (x `div` 2 ^ 64). unfold Int.u64.
  pose proof (Z.div_mod x (2 ^ 64) ltac:(lia)). lia.
Qed.

(** The offset of an aligned address and the address of an aligned offset
    are aligned, whether or not the 64-bit arithmetic wraps. *)
Lemma offset_of_divide s p :
  (2 ^ SHMCLASS_MIN_BITS | p - shmhead s) →
  (2 ^ SHMCLASS_MIN_BITS | Int.u64 (Int.u64 p - Int.u64 (shmhead s))).
Proof.
  unfold SHMCLASS_MIN_BITS. intros [k Hk].
  destruct (u64_eq p) as [q1 ->], (u64_eq (shmhead s)) as [q2 ->].
  destruct (u64_eq (p - 2 ^ 64 * q1 - (shmhead s - 2 ^ 64 * q2))) as [q3 ->].
  exists (k - 2 ^ 58 * (q1 - q2 + q3)). lia.
Qed.

Lemma addr_of_divide s o :
  (2 ^ SHMCLASS_MIN_BITS | o) →
  (2 ^ SHMCLASS_MIN_BITS | Int.u64 (Int.u64 (shmhead s) + o) - shmhead s).
Proof.
  unfold SHMCLASS_MIN_BITS. intros [k Hk].
  destruct (u64_eq (shmhead s)) as [q2 ->].
  destruct (u64_eq (shmhead s - 2 ^ 64 * q2 + o)) as [q3 ->].
  exists (k - 2 ^ 58 * (q2 + q3)). lia.
Qed.

Lemma half_divide o m :
  SHMCLASS_MIN_BITS < m ≤ SHMCLASS_MAX_BITS → (2 ^ SHMCLASS_MIN_BITS | o) →
  (2 ^ SHMCLASS_MIN_BITS | Int.u64 (o + 2 ^ (m - 1))).
Proof.
  unfold SHMCLASS_MIN_BITS, SHMCLASS_MAX_BITS. intros Hm Ho.
  apply u64_divide; [lia|]. apply Z.divide_add_r; [done|].
  exists (2 ^ (m - 1 - 6)). rewrite <- Z.pow_add_r by lia. f_equal. lia.
Qed.

End allocation.

(** Steps through a list operation, which changes links only. *)
Ltac wlp_links :=
  lazymatch goal with
  | |- wlp (shmlist_empty _) _ _ =>
      eapply (wlp_frame _ (λ s s', s' = s)); [apply shmlist_empty_pure|]; intros ? ? ->
  | |- wlp (shmlist_init _) _ _ =>
      eapply (wlp_frame _ links_only); [apply shmlist_init_links|]; intros ? ? ?
  | |- wlp (shmlist_add _ _) _ _ =>
      eapply (wlp_frame _ links_only); [apply shmlist_add_links|]; intros ? ? ?
  | |- _ => wlp_skip
  end; cbv beta.

Section allocation_aligned.
Context {L : Layout}.
Implicit Types (s : shm).

Lemma split_chunk_aligned fuel : ∀ m s,
  mapped s → chunks_aligned s → SHMCLASS_MAX_BITS - m ≤ Z.of_nat fuel →
  wlp (shmmgr_split_chunk fuel m)
    (λ _ s', chunks_aligned s' ∧ shmhead s' = shmhead s ∧
             segment_size s' = segment_size s) s.
Proof.
  induction fuel as [|fuel IH]; intros m s Hm Hs Hfuel;
    cbn [shmmgr_split_chunk]; do 6 wlp_links; wlp_step;
    (eapply (wlp_mono _ (λ _ s', chunks_aligned s' ∧ shmhead s' = shmhead s ∧
                                 segment_size s' = segment_size s));
     [repeat wlp_links; try done; try fuel_absurd;
      try (apply IH; [done|done|unfold SHMCLASS_MAX_BITS in *; lia])|]);
    intros ok s1 (Hs1 & Hh1 & Hz1); cbv beta;
    assert (mapped s1) as Hm1 by (unfold mapped; by rewrite Hh1, Hz1);
    (wlp_links; [by wlp_links|]);
    do 6 wlp_skip; wlp_step; apply wlp_get_mclass; intros cls Hin1 Hcls;
    do 2 wlp_skip;
    match goal with H : (_ =? _) = true |- _ => apply Z.eqb_eq in H; subst cls end;
    match goal with
    | H : (_ && _) = true |- _ =>
        apply andb_true_iff in H as [Hlo%Z.ltb_lt Hhi%Z.leb_le]
    end;
    match goal with
    | H : mclass _ = m |- _ =>
        pose proof (chunk_written_aligned s1 _ Hs1
                      ltac:(rewrite H; unfold SHMCLASS_MIN_BITS in *; lia)) as Hc1
    end;
    wlp_step;
    (eapply (wlp_frame _ (λ s s', links_only s s' ∧ _));
     [apply shmlist_del_links|]); intros _ s2 [(lk & ->) _];
    do 2 wlp_skip; wlp_step; apply wlp_addr_to_offset; intros off _ Hoff;
    wlp_step; apply wlp_defined; intros half Hhalf;
    rewrite shl1_small in Hhalf
      by (unfold SHMCLASS_MIN_BITS, SHMCLASS_MAX_BITS in *; lia);
    injection Hhalf as <-;
    wlp_step; apply wlp_offset_to_addr; intros chunk2 _ Hchunk2;
    cbn [shmhead set_num_free set_links] in Hoff, Hchunk2;
    assert ((2 ^ SHMCLASS_MIN_BITS | off)) as Hoffd
      by (subst off; destruct (_ =? NULL) eqn:E;
          [apply Z.divide_0_r|by apply offset_of_divide]);
    assert ((2 ^ SHMCLASS_MIN_BITS | chunk2 - shmhead s1) ∨ chunk2 = NULL) as Hc2
      by (subst chunk2; destruct (_ =? 0) eqn:E; [by right|left];
          apply addr_of_divide; by apply half_divide);
    wlp_step; apply wlp_set_mclass; intros Hin2;
    (destruct Hc2 as [Hc2| ->];
     [|exfalso; destruct Hm1 as [Hpos _]; unfold in_segment in Hin2;
       cbn [shmhead set_num_free set_links segment_size] in Hin2;
       apply andb_true_iff in Hin2 as [Hle%Z.leb_le _]; unfold NULL in *; lia]);
    repeat wlp_links;
    repeat match goal with
           | H : links_only _ _ |- _ => destruct H as (? & ->)
           end;
    (split; [|by rewrite <- Hh1, <- Hz1]);
    intros c h; cbn [chunks set_chunks set_links set_num_free set_locked shmhead];
    rewrite !lookup_insert; repeat case_decide; subst; try done; apply Hs1.
Qed.

(** The class of a request is the smallest class, from
    [SHMCLASS_MIN_BITS] up, that holds the request and the chunk header. *)
Lemma request_class_smallest n :
  0 < n → 0 < offsetof_list → n + offsetof_list - 1 < 2 ^ 64 →
  smallest_class (n + offsetof_list)
    (if request_class n <? SHMCLASS_MIN_BITS then SHMCLASS_MIN_BITS else request_class n).
Proof.
  intros Hn Ho Hmax. unfold request_class, SHMCLASS_MIN_BITS.
  rewrite u64_small by lia.
  remember (n + offsetof_list - 1) as v eqn:Ev.
  assert (0 < v < 2 ^ 64) as Hv by lia.
  destruct (fls64_bounds v Hv) as [Hr [Hlo Hhi]].
  destruct (fls64_smallest_pow2_above v) as (_ & _ & Hmin); [lia|].
  destruct (Z.ltb_spec (fls64 v) 6) as [Hlt|Hge]; split; [done| |done|].
  - split.
    + pose proof (Z.pow_le_mono_r 2 (fls64 v) 6). lia.
    + by intros m' Hm' _.
  - split; [lia|]. intros m' Hm' Hfit.
    destruct (Z.le_gt_cases (fls64 v) m') as [|Hgt]; [done|].
    assert (v < 2 ^ m') as Hvm by lia.
    assert (0 ≤ m') as Hm0 by (unfold SHMCLASS_MIN_BITS in *; lia).
    specialize (Hmin m' Hm0 Hvm).
    pose proof (Z.pow_lt_mono_r 2 m' (fls64 v)). lia.
Qed.

(** C1, as amended: for a request of [n] bytes, [n + offsetof_list - 1]
    below 2^64, let [m] be the smallest class from [SHMCLASS_MIN_BITS] up
    with [2 ^ m >= n + offsetof_list].  If [m] exceeds [SHMCLASS_MAX_BITS],
    [shmmgr_alloc] returns null and leaves the state alone.  Whenever it
    returns an address that is not null, the address is that of the [list]
    member of a chunk of class [m]: [offsetof_list] bytes past a chunk start
    that is a multiple of [2 ^ SHMCLASS_MIN_BITS] from the segment base, with
    at least [n] bytes from the address to the end of the chunk. *)
Theorem alloc_returns_chunk s n :
  0 < n → 0 < offsetof_list → n + offsetof_list - 1 < 2 ^ 64 →
  mapped s → chunks_aligned s →
  ∃ m, smallest_class (n + offsetof_list) m ∧
       (SHMCLASS_MAX_BITS < m → shmmgr_alloc n s = Ok (NULL, s)) ∧
       wlp (shmmgr_alloc n)
         (λ p s', p = NULL ∨
                  ∃ c, p = shmhead s + c + offsetof_list ∧
                       (2 ^ SHMCLASS_MIN_BITS | c) ∧
                       mclass (default zero_chunk (chunks s' !! c)) = m ∧
                       m ≤ SHMCLASS_MAX_BITS ∧ n ≤ usable_bytes m) s.
Proof.
  intros Hn Ho Hmax Hm Hs.
  pose proof (request_class_smallest n Hn Ho Hmax) as Hsm.
  set (m := if request_class n <? SHMCLASS_MIN_BITS then _ else _) in *.
  exists m. split; [done|]. split.
  - intros Hbig. unfold shmmgr_alloc.
    assert ((SHMCLASS_MAX_BITS <? request_class n) = true) as ->; [|done].
    apply Z.ltb_lt. unfold m, SHMCLASS_MIN_BITS, SHMCLASS_MAX_BITS in *.
    destruct (Z.ltb_spec (request_class n) 6); lia.
  - unfold shmmgr_alloc. fold m. wlp_step; [wlp_step; by left|].
    match goal with H : (_ <? _) = false |- _ => apply Z.ltb_ge in H; rename H into Hle end.
    assert (m ≤ SHMCLASS_MAX_BITS) as Hm31.
    { unfold m, SHMCLASS_MIN_BITS, SHMCLASS_MAX_BITS in *.
      destruct (Z.ltb_spec (request_class n) 6); lia. }
    do 6 wlp_links. wlp_step.
    eapply (wlp_mono _ (λ _ s', chunks_aligned s' ∧ shmhead s' = shmhead s ∧
                                segment_size s' = segment_size s)).
    { wlp_links; [|by wlp_links].
      eapply wlp_mono;
        [apply (split_chunk_aligned _ _ (set_locked true s)); [done|done|]|].
      - change (Z.of_nat split_depth) with 32.
        destruct Hsm as [Hm6 _]. unfold SHMCLASS_MIN_BITS, SHMCLASS_MAX_BITS in *. lia.
      - cbv beta. by intros _ sf (? & ? & ?). }
    intros ok s1 (Hs1 & Hh1 & Hz1). cbv beta.
    wlp_links; [repeat wlp_links; by left|].
    do 12 wlp_links. wlp_step. apply wlp_get_mclass. intros cls Hin1 Hcls.
    do 2 wlp_links.
    match goal with H : (_ =? _) = true |- _ => apply Z.eqb_eq in H; subst cls end.
    match goal with H : mclass _ = m |- _ => rename H into Hcls end.
    destruct Hsm as (Hm6 & Hfit & _).
    pose proof (chunk_written_aligned s1 _ Hs1
                  ltac:(rewrite Hcls; unfold SHMCLASS_MIN_BITS in *; lia)) as Hc1.
    wlp_step.
    eapply (wlp_frame _ (λ s s', links_only s s' ∧ _)); [apply shmlist_del_links|].
    intros _ s2 [(lk & ->) Hin2]. repeat wlp_links. right.
    match goal with
    | H : in_segment s1 (container_of ?l) offsetof_list = true |- _ =>
        set (chunk := container_of l) in *
    end.
    exists (chunk - shmhead s1).
    unfold in_segment in Hin1, Hin2.
    apply andb_true_iff in Hin1 as [Hlo1%Z.leb_le Hhi1%Z.leb_le].
    apply andb_true_iff in Hin2 as [Hlo2%Z.leb_le _].
    destruct Hm as [Hpos Hend]. rewrite Hh1, Hz1 in *.
    split; [|split; [done|split; [|split; [done|unfold usable_bytes; lia]]]].
    + unfold list_of in *.
      destruct (Z.eq_dec (chunk + offsetof_list) (2 ^ 64)) as [E|E].
      * exfalso. rewrite E in Hlo2. change (Int.u64 (2 ^ 64)) with 0 in Hlo2. lia.
      * rewrite u64_small by lia. lia.
    + cbn [chunks set_locked set_num_active set_num_free set_links]. exact Hcls.
Qed.

End allocation_aligned.

Lemma seg4k_chunks : chunks seg4k = {[2048 := {| mclass := 11; active := false |}]}.
Proof. vm_compute. reflexivity. Qed.

Lemma seg4k_chunks_aligned : chunks_aligned seg4k.
Proof.
  intros c h. rewrite seg4k_chunks. intros [<- _]%lookup_singleton_Some.
  exists 32. reflexivity.
Qed.

Lemma alloc_returns_chunk_witness :
  ∃ m, smallest_class (1 + offsetof_list (Layout:=lp64)) m ∧
       (SHMCLASS_MAX_BITS < m → shmmgr_alloc (L:=lp64) 1 seg4k = Ok (NULL, seg4k)) ∧
       wlp (shmmgr_alloc (L:=lp64) 1)
         (λ p s', p = NULL ∨
                  ∃ c, p = shmhead seg4k + c + offsetof_list (Layout:=lp64) ∧
                       (2 ^ SHMCLASS_MIN_BITS | c) ∧
                       mclass (default zero_chunk (chunks s' !! c)) = m ∧
                       m ≤ SHMCLASS_MAX_BITS ∧ 1 ≤ usable_bytes (L:=lp64) m) seg4k.
Proof.
  apply (alloc_returns_chunk (L:=lp64) seg4k 1).
  - lia.
  - reflexivity.
  - reflexivity.
  - split; vm_compute; congruence.
  - apply seg4k_chunks_aligned.
Defined.

(** ** Failure of an allocation *)

Section failure.
Context {L : Layout}.
Implicit Types (s : shm).

(** [shmmgr_split_chunk] trips its assertion on every class above
    [SHMCLASS_MAX_BITS]. *)
Lemma split_chunk_above_max fuel m s :
  SHMCLASS_MAX_BITS < m → shmmgr_split_chunk fuel m s = AssertFail.
Proof.
  intros Hm. destruct fuel; cbn [shmmgr_split_chunk];
    unfold mbind, M_bind, bind, assert;
    (replace (m <=? SHMCLASS_MAX_BITS) with false by (symmetry; apply Z.leb_gt; lia));
    by rewrite andb_false_r.
Qed.

(** When [shmmgr_split_chunk] answers [false] it has changed nothing. *)
Lemma split_chunk_false_unchanged fuel : ∀ m s,
  SHMCLASS_MAX_BITS - m ≤ Z.of_nat fuel →
  wlp (shmmgr_split_chunk fuel m)
    (λ ok s', (ok = false → s' = s) ∧ shmhead s' = shmhead s) s.
Proof.
  induction fuel as [|fuel IH]; intros m s Hfuel;
    cbn [shmmgr_split_chunk]; do 6 wlp_links; wlp_step;
    (eapply (wlp_mono _ (λ ok s', (ok = false → s' = s) ∧ shmhead s' = shmhead s));
     [repeat wlp_links; try done; try fuel_absurd;
      try (apply IH; unfold SHMCLASS_MAX_BITS in *; lia)|]);
    intros ok s1 [Hs1 Hh1]; cbv beta;
    (wlp_links; [wlp_links; split; [intros _; apply Hs1; by destruct ok|done]|]);
    repeat wlp_list; (split; [by intros [=]|]);
    repeat match goal with
           | H : heap_only _ _ |- _ => destruct H as (? & ? & ? & ->)
           end;
    cbn [shmhead set_links set_chunks set_num_free set_locked]; exact Hh1.
Qed.

(** When [shmmgr_alloc] returns null it has changed nothing: the lock it
    took is released and no list, chunk or counter was written. *)
Lemma alloc_null_unchanged n s :
  0 < shmhead s → locked s = false →
  wlp (shmmgr_alloc n) (λ p s', p = NULL → s' = s) s.
Proof.
  intros Hpos Hlock. unfold shmmgr_alloc. wlp_step; [by wlp_step|].
  match goal with H : (_ <? _) = false |- _ => apply Z.ltb_ge in H; rename H into Hle end.
  set (m := if request_class n <? SHMCLASS_MIN_BITS then _ else _) in *.
  assert (SHMCLASS_MIN_BITS ≤ m ≤ SHMCLASS_MAX_BITS) as Hm.
  { unfold m, SHMCLASS_MIN_BITS, SHMCLASS_MAX_BITS in *.
    destruct (Z.ltb_spec (request_class n) 6); lia. }
  do 6 wlp_links. wlp_step.
  eapply (wlp_mono _ (λ ok s', (ok = false → s' = set_locked true s) ∧
                               shmhead s' = shmhead s)).
  { wlp_links; [|by wlp_links].
    apply (split_chunk_false_unchanged _ _ (set_locked true s)).
    change (Z.of_nat split_depth) with 32.
    unfold SHMCLASS_MIN_BITS, SHMCLASS_MAX_BITS in *. lia. }
  intros ok s1 [Hs1 Hh1]. cbv beta.
  wlp_links.
  - repeat wlp_links. intros _. rewrite Hs1 by (by destruct ok).
    destruct s. cbn in *. by subst.
  - do 16 wlp_links. wlp_step.
    eapply (wlp_frame _ (λ s s', links_only s s' ∧ _)); [apply shmlist_del_links|].
    intros _ s2 [_ Hin2]. repeat wlp_links. intros Hnull. exfalso.
    unfold in_segment in Hin2. apply andb_true_iff in Hin2 as [Hlo%Z.leb_le _].
    rewrite Hnull, Hh1 in Hlo. unfold NULL in Hlo. lia.
Qed.

End failure.

(** C4 fails at class 31, by the defect of C5: a request of 2^31 - 8 bytes
    has class 31 and the 1 MiB segment has no free chunk of class 31, so the
    request cannot be satisfied; [shmmgr_alloc] then calls
    [shmmgr_split_chunk] with 32 and stops at its assertion instead of
    returning null.  One class lower the same segment answers null and is
    left as it was. *)
Theorem alloc_unsatisfiable_class31_aborts :
  request_class (L:=lp64) (2 ^ 31 - 8) = SHMCLASS_MAX_BITS ∧
  free_chunks (L:=lp64) seg1m SHMCLASS_MAX_BITS = [] ∧
  shmmgr_alloc (L:=lp64) (2 ^ 31 - 8) seg1m = AssertFail ∧
  request_class (L:=lp64) (2 ^ 30 - 8) = SHMCLASS_MAX_BITS - 1 ∧
  shmmgr_alloc (L:=lp64) (2 ^ 30 - 8) seg1m = Ok (NULL, seg1m).
Proof. split; [|split; [|split; [|split]]]; vm_compute; reflexivity. Qed.

(** ** Calls that return *)

Section returns.
Context {L : Layout}.
Implicit Types (s : shm) (p q : Z) (R : Z → Prop).

Lemma wp_conj {A} (m : M A) (Q1 Q2 : A → shm → Prop) s :
  wp m Q1 s → wp m Q2 s → wp m (λ a s', Q1 a s' ∧ Q2 a s') s.
Proof.
  intros (a & s1 & E1 & H1) (a' & s2 & E2 & H2).
  rewrite E1 in E2. injection E2 as <- <-. by exists a, s1.
Qed.

(** What a computation keeps whenever it returns, it keeps when it is
    known to return. *)
Lemma wp_keeps {A} (m : M A) (Q Q' : A → shm → Prop) s :
  wlp m Q' s → wp m Q s → wp m (λ a s', Q a s' ∧ Q' a s') s.
Proof.
  intros H' (a & s1 & E & H). exists a, s1. split; [done|]. split; [done|].
  unfold wlp in H'. by rewrite E in H'.
Qed.

Lemma wp_load_chunk c (Q : shmchunk_t → shm → Prop) s :
  in_segment s c offsetof_list = true →
  Q (default zero_chunk (chunks s !! (c - shmhead s))) s →
  wp (load_chunk c) Q s.
Proof. intros Hin HQ. eexists _, s. split; [|done]. unfold load_chunk. by rewrite Hin. Qed.

Lemma wp_store_chunk c h (Q : unit → shm → Prop) s :
  in_segment s c offsetof_list = true →
  Q tt (set_chunks <[c - shmhead s := h]> s) →
  wp (store_chunk c h) Q s.
Proof. intros Hin HQ. eexists tt, _. split; [|done]. unfold store_chunk. by rewrite Hin. Qed.

Lemma wp_get_mclass c (Q : Z → shm → Prop) s :
  in_segment s c offsetof_list = true →
  Q (mclass (default zero_chunk (chunks s !! (c - shmhead s)))) s →
  wp (get_mclass c) Q s.
Proof.
  intros Hin HQ. unfold get_mclass. apply wp_bind, wp_load_chunk; [done|].
  by apply wp_ret.
Qed.

Lemma wp_set_mclass c v (Q : unit → shm → Prop) s :
  in_segment s c offsetof_list = true →
  Q tt (set_chunks
          <[c - shmhead s :=
              {| mclass := Int.u8 v;
                 active := active (default zero_chunk (chunks s !! (c - shmhead s))) |}]> s) →
  wp (set_mclass c v) Q s.
Proof.
  intros Hin HQ. unfold set_mclass. apply wp_bind, wp_load_chunk; [done|].
  by apply wp_store_chunk.
Qed.

Lemma wp_set_active c b (Q : unit → shm → Prop) s :
  in_segment s c offsetof_list = true →
  Q tt (set_chunks
          <[c - shmhead s :=
              {| mclass := mclass (default zero_chunk (chunks s !! (c - shmhead s)));
                 active := b |}]> s) →
  wp (set_active c b) Q s.
Proof.
  intros Hin HQ. unfold set_active. apply wp_bind, wp_load_chunk; [done|].
  by apply wp_store_chunk.
Qed.

Lemma wp_free_list m (Q : Z → shm → Prop) s :
  0 ≤ m ≤ SHMCLASS_MAX_BITS →
  Q (Int.u64 (sentinel s m)) s → wp (free_list m) Q s.
Proof.
  intros Hm HQ. unfold free_list.
  replace ((0 <=? m) && (m <=? SHMCLASS_MAX_BITS)) with true
    by (symmetry; apply andb_true_iff; split; apply Z.leb_le; lia).
  apply wp_bind, wp_get. by apply wp_ret.
Qed.

Lemma wp_num_free_add m d (Q : unit → shm → Prop) s :
  0 ≤ m ≤ SHMCLASS_MAX_BITS → length (num_free s) = 32%nat →
  Q tt (set_num_free (array_add d m) s) → wp (num_free_add m d) Q s.
Proof.
  intros Hm Hlen HQ. unfold num_free_add. apply wp_bind, wp_get.
  destruct (array_get (num_free s) m) as [v|] eqn:E.
  - apply wp_bind, wp_defined. by apply wp_modify.
  - exfalso. unfold array_get in E.
    replace (0 <=? m) with true in E by (symmetry; apply Z.leb_le; lia).
    apply lookup_ge_None in E. unfold SHMCLASS_MAX_BITS in Hm. lia.
Qed.

Lemma wp_num_active_add m d (Q : unit → shm → Prop) s :
  0 ≤ m ≤ SHMCLASS_MAX_BITS → length (num_active s) = 32%nat →
  Q tt (set_num_active (array_add d m) s) → wp (num_active_add m d) Q s.
Proof.
  intros Hm Hlen HQ. unfold num_active_add. apply wp_bind, wp_get.
  destruct (array_get (num_active s) m) as [v|] eqn:E.
  - apply wp_bind, wp_defined. by apply wp_modify.
  - exfalso. unfold array_get in E.
    replace (0 <=? m) with true in E by (symmetry; apply Z.leb_le; lia).
    apply lookup_ge_None in E. unfold SHMCLASS_MAX_BITS in Hm. lia.
Qed.

Lemma wp_shmlist_empty p (Q : bool → shm → Prop) s :
  mapped s → is_link s p →
  Q (next_of s p =? p) s → wp (shmlist_empty p) Q s.
Proof.
  intros Hm Hp HQ. unfold shmlist_empty.
  apply wp_bind, wp_get_next; [done|].
  apply wp_bind, wp_offset_to_addr; [done|]. by apply wp_ret.
Qed.

(** [shmmgr_split_chunk] is its test of the free list followed by
    [halve_first_chunk]. *)
Lemma split_chunk_unfold fuel m :
  shmmgr_split_chunk fuel m =
    (assert ((SHMCLASS_MIN_BITS <? m) && (m <=? SHMCLASS_MAX_BITS));;
     fl ← free_list m;
     e ← shmlist_empty fl;
     ok ← (if e : bool then
             if m =? SHMCLASS_MAX_BITS then mret false
             else match fuel with
                  | O => timeout
                  | S fuel => shmmgr_split_chunk fuel (m + 1)
                  end
           else mret true);
     if negb ok then mret false else halve_first_chunk m).
Proof. by destruct fuel. Qed.

(** [shmmgr_alloc] is its call of [shmmgr_split_chunk] followed by
    [take_first_chunk]. *)
Lemma alloc_unfold n :
  shmmgr_alloc n =
    (let m := request_class n in
     if SHMCLASS_MAX_BITS <? m then mret NULL else
     let m := if m <? SHMCLASS_MIN_BITS then SHMCLASS_MIN_BITS else m in
     pthread_mutex_lock;;
     fl ← free_list m;
     e ← shmlist_empty fl;
     ok ← (if e : bool then shmmgr_split_chunk split_depth (m + 1) else mret true);
     if negb ok then pthread_mutex_unlock;; mret NULL else take_first_chunk m).
Proof. done. Qed.

End returns.

(** ** The free lists under the list operations *)

Section lists.
Context {L : Layout}.
Context (Hsz : 0 < sizeof_shmlist).
Implicit Types (s : shm) (p q : Z) (R : Z → Prop) (cls : Z → Z).

(** The rings are a matter of the links and of where the segment is. *)
Lemma lists_ok_ext s s' R cls :
  links s' = links s → shmhead s' = shmhead s → segment_size s' = segment_size s →
  lists_ok s R cls → lists_ok s' R cls.
Proof.
  intros Hl Hh Hz.
  assert (∀ q, link_at s' q = link_at s q) as Hat
    by (intros q; unfold link_at; by rewrite Hl, Hh).
  assert (∀ o, addr_of s' o = addr_of s o) as Ha
    by (intros o; unfold addr_of; by rewrite Hh).
  assert (∀ q, offset_of s' q = offset_of s q) as Ho
    by (intros q; unfold offset_of; by rewrite Hh).
  assert (∀ q, is_link s' q ↔ is_link s q) as Hi
    by (intros q; unfold is_link, in_segment; by rewrite Hh, Hz).
  assert (∀ q, next_of s' q = next_of s q) as Hn
    by (intros q; unfold next_of; by rewrite Hat, Ha).
  assert (∀ q, prev_of s' q = prev_of s q) as Hp
    by (intros q; unfold prev_of; by rewrite Hat, Ha).
  intros [HR Hc]. split.
  - intros p Hp'. destruct (HR p Hp') as [(H1 & H2 & H3 & H4 & H5) [H6 H7]].
    unfold linked. rewrite !Hn, !Hp, !Hat, !Ho, !Hi. auto 10.
  - intros p Hp'. rewrite Hn. by apply Hc.
Qed.

(** The [next] links after [shmlist_add]. *)
Lemma shmlist_add_next s R b p :
  mapped s → rings s R → R b → ¬ R p → is_link s p →
  wp (shmlist_add b p)
    (λ _ s', ∀ q, R q → q ≠ b → next_of s' q = next_of s q) s.
Proof.
  intros Hm HR Hb Hnp Hp.
  destruct (rings_elim Hsz s R b Hm HR Hb)
    as (Hlb & n & qb & HRn & HRqb & Hln & Hlqb & Enb & Eqb & Hnb & Hqbb).
  assert (next_of s b = n) as En.
  { unfold next_of. rewrite Enb. by apply addr_of_offset_of. }
  apply shmlist_add_returns; [done|done|done|by rewrite En|].
  rewrite En. clear En. intros s' Hat Hh Hs q Hq Hqb.
  assert (q ≠ p) as Hqp by (by intros ->).
  assert (n ≠ p) as Hnp' by (by intros ->).
  unfold next_of. rewrite Hat.
  assert (∀ o, addr_of s' o = addr_of s o) as Ha
    by (intros o; unfold addr_of; by rewrite Hh).
  rewrite Ha.
  repeat (case_decide; try done); cbn [next]; subst; done.
Qed.

(** The [next] links after [shmlist_del]. *)
Lemma shmlist_del_next s R p :
  mapped s → rings s R → R p →
  wp (shmlist_del p)
    (λ _ s', ∀ q, R q → q ≠ p →
                  next_of s' q = if decide (next_of s q = p) then next_of s p
                                 else next_of s q) s.
Proof.
  intros Hm HR Hp.
  destruct (rings_elim Hsz s R p Hm HR Hp)
    as (Hlp & n & r & HRn & HRr & Hln & Hlr & Enp & Erp & Hnp & Hrp).
  assert (next_of s p = n) as En.
  { unfold next_of. rewrite Enp. by apply addr_of_offset_of. }
  assert (prev_of s p = r) as Er.
  { unfold prev_of. rewrite Erp. by apply addr_of_offset_of. }
  apply shmlist_del_returns; [done|done|by rewrite Er|by rewrite En|].
  rewrite En, Er. intros s' Hat Hh Hs q Hq Hqp.
  assert (∀ o, addr_of s' o = addr_of s o) as Ha
    by (intros o; unfold addr_of; by rewrite Hh).
  destruct (rings_elim Hsz s R q Hm HR Hq)
    as (Hlq & nq & rq & HRnq & HRrq & Hlnq & Hlrq & Enq & Erq & Hnq & Hrq).
  assert (next_of s q = nq) as Enq'.
  { unfold next_of. rewrite Enq. by apply addr_of_offset_of. }
  assert (next_of s r = p) as Enr.
  { unfold next_of. rewrite Hrp. by apply addr_of_offset_of. }
  assert (nq = p → q = r) as Hqr.
  { intros ->. apply (offset_of_inj s); [done|done|done|done|congruence]. }
  unfold next_of at 1. rewrite Hat, Ha, Enq'.
  repeat (case_decide; try done); cbn [next]; subst;
    try done; try (by apply addr_of_offset_of); try (by rewrite Hqr in * by done);
    try (by exfalso; auto); try (exfalso; congruence).
Qed.

(** [shmlist_del] takes a link off the free lists. *)
Lemma shmlist_del_lists s R cls p :
  mapped s → lists_ok s R cls → R p →
  wp (shmlist_del p)
    (λ _ s', links_only s s' ∧ lists_ok s' (λ q, R q ∧ q ≠ p) cls) s.
Proof.
  intros Hm [HR Hc] Hp.
  eapply wp_mono.
  { apply wp_keeps; [apply shmlist_del_links|].
    apply wp_conj; [by apply shmlist_del_rings|by apply (shmlist_del_next s R)]. }
  cbv beta. intros _ s' [[(_ & HR' & _) Hn] [Hl _]].
  split; [done|]. split; [done|].
  intros q [Hq Hqp]. rewrite Hn by done. case_decide as E.
  - rewrite Hc by done. rewrite <- E. by apply Hc.
  - by apply Hc.
Qed.

(** [shmlist_add] puts a link on the free list of its base. *)
Lemma shmlist_add_lists s R cls b p :
  mapped s → lists_ok s R cls → R b → ¬ R p → is_link s p →
  wp (shmlist_add b p)
    (λ _ s', links_only s s' ∧
             lists_ok s' (λ q, R q ∨ q = p) (upd cls p (cls b)) ∧
             next_of s' b = p) s.
Proof.
  intros Hm [HR Hc] Hb Hnp Hp.
  eapply wp_mono.
  { apply wp_keeps; [apply shmlist_add_links|].
    apply wp_conj; [by apply shmlist_add_rings|by apply (shmlist_add_next s R)]. }
  cbv beta. intros _ s' [[(_ & HR' & Hb' & _ & Hp') Hn] Hl].
  split; [done|]. split; [|done]. split; [done|].
  assert (b ≠ p) as Hbp by (by intros ->).
  assert (∀ q, R q → upd cls p (cls b) q = cls q) as Hu.
  { intros q Hq. unfold upd. rewrite decide_False; [done|]. by intros ->. }
  intros q [Hq| ->].
  - destruct (decide (q = b)) as [->|Hqb].
    + rewrite Hb', (Hu b) by done. unfold upd. by rewrite decide_True.
    + rewrite Hn by done. destruct (HR q Hq) as (_ & Hnq & _).
      rewrite !Hu by done. by apply Hc.
  - rewrite Hp'. destruct (HR b Hb) as (_ & Hnb & _).
    rewrite (Hu (next_of s b)) by done. unfold upd. rewrite decide_True by done.
    by apply Hc.
Qed.

End lists.

(** ** The free chunks under a split *)

Section chunks.
Context {L : Layout}.
Context (Hlay : layout_ok).
Implicit Types (s : shm) (p q : Z) (R : Z → Prop) (cls : Z → Z).

Lemma layout_link_size : 0 < sizeof_shmlist.
Proof. by destruct Hlay as (_ & ? & _). Qed.

Lemma pow2_class m : SHMCLASS_MIN_BITS ≤ m → 2 ^ SHMCLASS_MIN_BITS ≤ 2 ^ m.
Proof. intros Hm. apply Z.pow_le_mono_r; [lia|done]. Qed.

Lemma pow2_half m : SHMCLASS_MIN_BITS < m → 2 ^ m = 2 * 2 ^ (m - 1).
Proof.
  intros Hm. unfold SHMCLASS_MIN_BITS in Hm.
  rewrite <- Z.pow_succ_r by lia. f_equal. lia.
Qed.

Lemma pow2_divide k m : 0 ≤ k ≤ m → (2 ^ k | 2 ^ m).
Proof.
  intros Hk. exists (2 ^ (m - k)). rewrite <- Z.pow_add_r by lia. f_equal. lia.
Qed.

(** The sentinels lie in the header. *)
Lemma sentinel_bounds s k :
  0 ≤ k ≤ SHMCLASS_MAX_BITS →
  shmhead s < sentinel s k ∧
  sentinel s k + sizeof_shmlist ≤ shmhead s + sizeof_shmhead.
Proof.
  destruct Hlay as (Ho & Hsz & Hfit & Hfl & Hhd). unfold SHMCLASS_MAX_BITS in *.
  intros Hk. unfold sentinel. nia.
Qed.

Lemma sentinel_link s k :
  mapped s → sizeof_shmhead ≤ segment_size s → 0 ≤ k ≤ SHMCLASS_MAX_BITS →
  is_link s (sentinel s k) ∧ Int.u64 (sentinel s k) = sentinel s k.
Proof.
  intros [Hpos Hend] Hhd Hk. destruct (sentinel_bounds s k Hk) as [Hlo Hhi].
  pose proof layout_link_size as Hsz.
  split; [split|].
  - unfold in_segment. apply andb_true_iff. split; apply Z.leb_le; lia.
  - lia.
  - apply u64_small. lia.
Qed.

Lemma sentinel_inj s j k : sentinel s j = sentinel s k → j = k.
Proof. pose proof layout_link_size. unfold sentinel. nia. Qed.

(** The [list] member of a free chunk. *)
Lemma free_chunk_link s p m :
  mapped s → free_chunk s p m →
  shmhead s + sizeof_shmhead + offsetof_list ≤ p ∧ is_link s p ∧
  container_of p = p - offsetof_list ∧ list_of (p - offsetof_list) = p ∧
  in_segment s (p - offsetof_list) offsetof_list = true ∧
  offset_of s (p - offsetof_list) = p - offsetof_list - shmhead s.
Proof.
  intros [Hpos Hend] (Hlo & Hhi & Hal & [Hm Hm'] & Hcls).
  destruct Hlay as (Ho & Hsz & Hfit & Hfl & Hhd).
  pose proof (pow2_class m Hm) as Hpow.
  assert (0 < sizeof_shmhead) as Hh by (unfold SHMCLASS_MAX_BITS in Hhd; lia).
  split; [lia|]. split; [split|split; [|split; [|split]]].
  - unfold in_segment. apply andb_true_iff. split; apply Z.leb_le; lia.
  - lia.
  - unfold container_of. apply u64_small. lia.
  - unfold list_of. replace (p - offsetof_list + offsetof_list) with p by lia.
    apply u64_small. lia.
  - unfold in_segment. apply andb_true_iff. split; apply Z.leb_le; lia.
  - unfold offset_of, NULL. destruct (Z.eqb_spec (p - offsetof_list) 0); [lia|].
    rewrite (u64_small (p - offsetof_list)), (u64_small (shmhead s)) by lia.
    apply u64_small. lia.
Qed.

(** A free chunk is no sentinel. *)
Lemma free_chunk_not_sentinel s p m k :
  free_chunk s p m → 0 ≤ k ≤ SHMCLASS_MAX_BITS → p ≠ sentinel s k.
Proof.
  intros (Hlo & _) Hk. destruct (sentinel_bounds s k Hk) as [_ Hhi].
  destruct Hlay as (Ho & Hsz & _). lia.
Qed.

(** The first link of a free list that is not empty is a free chunk of
    the class of the list. *)
Lemma first_chunk s R cls m :
  lists_ok s R cls → chunks_ok s R cls → 0 ≤ m ≤ SHMCLASS_MAX_BITS →
  next_of s (sentinel s m) ≠ sentinel s m →
  R (next_of s (sentinel s m)) ∧ cls (next_of s (sentinel s m)) = m ∧
  free_chunk s (next_of s (sentinel s m)) m.
Proof.
  intros [HR Hc] (Hsen & Hch & Hap) Hm Hne.
  destruct (Hsen m Hm) as [Hfl Hcfl].
  destruct (HR _ Hfl) as (_ & Hn & _).
  pose proof (Hc _ Hfl) as Hcn. rewrite Hcfl in Hcn.
  split; [done|]. split; [done|].
  destruct (Hch _ Hn) as [(k & Hk & E)|Hfree]; [|by rewrite Hcn in Hfree].
  exfalso. destruct (Hsen k Hk) as [_ Hck]. rewrite <- E, Hcn in Hck.
  subst k. done.
Qed.

(** Taking a free chunk off the lists. *)
Lemma chunks_ok_remove s R cls p m :
  chunks_ok s R cls → free_chunk s p m →
  chunks_ok s (λ q, R q ∧ q ≠ p) cls.
Proof.
  intros (Hsen & Hch & Hap) Hp. split; [|split].
  - intros k Hk. destruct (Hsen k Hk) as [HRk Hck].
    split; [|done]. split; [done|].
    intros E. by apply (free_chunk_not_sentinel s p m k).
  - intros q [Hq _]. by apply Hch.
  - intros q r [Hq _] [Hr _]. by apply Hap.
Qed.

(** The free chunks of a state with the same chunk headers. *)
Lemma free_chunk_ext s s' p m :
  shmhead s' = shmhead s → segment_size s' = segment_size s →
  chunks s' !! (p - offsetof_list - shmhead s) = chunks s !! (p - offsetof_list - shmhead s) →
  free_chunk s p m → free_chunk s' p m.
Proof.
  intros Hh Hz Hc. unfold free_chunk. cbv zeta. by rewrite Hh, Hz, Hc.
Qed.

Lemma chunks_ok_ext s s' R cls :
  shmhead s' = shmhead s → segment_size s' = segment_size s →
  chunks s' = chunks s → chunks_ok s R cls → chunks_ok s' R cls.
Proof.
  intros Hh Hz Hc (Hsen & Hch & Hap).
  assert (∀ k, sentinel s' k = sentinel s k) as Hs
    by (intros k; unfold sentinel; by rewrite Hh).
  assert (∀ p m, free_chunk s' p m ↔ free_chunk s p m) as Hf
    by (intros p m; unfold free_chunk; cbv zeta; by rewrite Hh, Hz, Hc).
  split; [|split].
  - intros k Hk. rewrite Hs. by apply Hsen.
  - intros p Hp. destruct (Hch p Hp) as [(k & Hk & E)|Hfree].
    + left. exists k. by rewrite Hs.
    + right. by apply Hf.
  - intros p q Hp Hq Hfree. apply Hap; [done|done|by apply Hf].
Qed.

(** Cutting the free chunk at [p] in two: the halves take its place. *)
Lemma chunks_ok_halve s s' R cls p m :
  chunks_ok s R cls → R p → cls p = m → free_chunk s p m →
  SHMCLASS_MIN_BITS < m →
  shmhead s' = shmhead s → segment_size s' = segment_size s →
  mclass (default zero_chunk (chunks s' !! (p - offsetof_list - shmhead s))) = m - 1 →
  mclass (default zero_chunk
            (chunks s' !! (p - offsetof_list - shmhead s + 2 ^ (m - 1)))) = m - 1 →
  (∀ o, o ≠ p - offsetof_list - shmhead s →
        o ≠ p - offsetof_list - shmhead s + 2 ^ (m - 1) →
        chunks s' !! o = chunks s !! o) →
  ¬ R (p + 2 ^ (m - 1)) ∧
  chunks_ok s' (λ q, ((R q ∧ q ≠ p) ∨ q = p) ∨ q = p + 2 ^ (m - 1))
    (upd (upd cls p (m - 1)) (p + 2 ^ (m - 1)) (m - 1)).
Proof.
  intros (Hsen & Hch & Hap) Hp Hcp Hfree Hm Hh Hz Hc1 Hc2 Hc.
  pose proof (pow2_half m Hm) as Hpow.
  pose proof (pow2_class (m - 1) ltac:(lia)) as Hmin.
  assert (0 < 2 ^ (m - 1)) as Hpos by (unfold SHMCLASS_MIN_BITS in *; lia).
  set (p2 := p + 2 ^ (m - 1)) in *.
  assert (¬ R p2) as Hp2.
  { intros Hp2. rewrite <- Hcp in Hfree.
    pose proof (Hap p p2 Hp Hp2 Hfree ltac:(unfold p2; lia)) as Hle.
    rewrite Hcp in Hle. unfold p2 in Hle. lia. }
  split; [done|].
  assert (∀ k, sentinel s' k = sentinel s k) as Hs
    by (intros k; unfold sentinel; by rewrite Hh).
  assert (∀ q, R q → q ≠ p → upd (upd cls p (m - 1)) p2 (m - 1) q = cls q) as Hu.
  { intros q Hq Hqp. unfold upd. rewrite !decide_False; [done|done|]. by intros ->. }
  assert (upd (upd cls p (m - 1)) p2 (m - 1) p = m - 1) as Hup.
  { unfold upd. rewrite decide_False by (unfold p2; lia). by rewrite decide_True. }
  assert (upd (upd cls p (m - 1)) p2 (m - 1) p2 = m - 1) as Hup2.
  { unfold upd. by rewrite decide_True. }
  assert (free_chunk s p (cls p)) as Hfp by (by rewrite Hcp).
  destruct Hfree as (Hlo & Hhi & Hal & Hrange & Hcls).
  assert (free_chunk s' p (m - 1)) as Hf1.
  { unfold free_chunk. cbv zeta. rewrite Hh, Hz.
    split; [done|]. split; [lia|]. split; [|split; [lia|done]].
    apply (Z.divide_trans _ (2 ^ m)); [|done].
    apply pow2_divide. unfold SHMCLASS_MIN_BITS in *. lia. }
  assert (free_chunk s' p2 (m - 1)) as Hf2.
  { unfold free_chunk. cbv zeta. rewrite Hh, Hz.
    replace (p2 - offsetof_list - shmhead s)
      with (p - offsetof_list - shmhead s + 2 ^ (m - 1)) by (unfold p2; lia).
    split; [lia|]. split; [lia|]. split; [|split; [lia|done]].
    apply Z.divide_add_r; [|done].
    apply (Z.divide_trans _ (2 ^ m)); [|done].
    apply pow2_divide. unfold SHMCLASS_MIN_BITS in *. lia. }
  assert (∀ q, R q → q ≠ p → free_chunk s' q (cls q) ↔ free_chunk s q (cls q)) as Hf.
  { intros q Hq Hqp. unfold free_chunk. cbv zeta. rewrite Hh, Hz, Hc; [done|lia|].
    intros E. apply Hp2. replace p2 with q by (unfold p2; lia). done. }
  split; [|split].
  - intros k Hk. destruct (Hsen k Hk) as [HRk Hck]. rewrite Hs.
    assert (sentinel s k ≠ p) as Hne.
    { intros E. by apply (free_chunk_not_sentinel s p (cls p) k). }
    split; [by left; left|]. by rewrite Hu.
  - intros q [[[Hq Hqp]| ->]| ->].
    + rewrite Hu by done. destruct (Hch q Hq) as [(k & Hk & E)|Hfq].
      * left. exists k. by rewrite Hs.
      * right. by apply Hf.
    + right. by rewrite Hup.
    + right. by rewrite Hup2.
  - intros q r [[[Hq Hqp]| ->]| ->] [[[Hr Hrp]| ->]| ->];
      rewrite ?Hu, ?Hup, ?Hup2 by done; intros Hfq Hlt.
    + apply Hap; [done|done|by apply Hf|done].
    + apply Hap; [done|done|by apply Hf|done].
    + apply Hf in Hfq; [|done|done].
      destruct (Z.lt_ge_cases q p) as [Hqlt|Hqge].
      * pose proof (Hap q p Hq Hp Hfq Hqlt). unfold p2. lia.
      * pose proof (Hap p q Hp Hq Hfp ltac:(lia)) as Hle.
        rewrite Hcp in Hle. unfold p2 in Hlt. lia.
    + pose proof (Hap p r Hp Hr Hfp Hlt) as Hle. rewrite Hcp in Hle. lia.
    + lia.
    + unfold p2. lia.
    + pose proof (Hap p r Hp Hr Hfp ltac:(unfold p2 in Hlt; lia)) as Hle.
      rewrite Hcp in Hle. unfold p2. lia.
    + unfold p2 in Hlt. lia.
    + lia.
Qed.

End chunks.

(** ** Splitting and allocating return *)

Section halving.
Context {L : Layout}.
Context (Hlay : layout_ok).
Implicit Types (s : shm) (p q : Z) (R : Z → Prop) (cls : Z → Z).

(** [halve_first_chunk] returns on a free list that is not empty, and
    leaves the list of the class below not empty. *)
Lemma halve_first_chunk_returns s R cls m :
  heap_ok s R cls → SHMCLASS_MIN_BITS < m ≤ SHMCLASS_MAX_BITS →
  next_of s (sentinel s m) ≠ sentinel s m →
  wp (halve_first_chunk m)
    (λ ok s', ok = true ∧ shmhead s' = shmhead s ∧
              segment_size s' = segment_size s ∧
              (∃ R' cls', heap_ok s' R' cls') ∧
              next_of s' (sentinel s' (m - 1)) ≠ sentinel s' (m - 1)) s.
Proof.
  intros [Hmap Hhd Hnf Hna Hl Hc] Hm Hne.
  pose proof (layout_link_size Hlay) as Hsz.
  assert (0 ≤ m ≤ SHMCLASS_MAX_BITS) as Hm0 by (unfold SHMCLASS_MIN_BITS in *; lia).
  assert (0 ≤ m - 1 ≤ SHMCLASS_MAX_BITS) as Hm1
    by (unfold SHMCLASS_MIN_BITS, SHMCLASS_MAX_BITS in *; lia).
  destruct (sentinel_link Hlay s m Hmap Hhd Hm0) as [Hfl Hflu].
  destruct (sentinel_link Hlay s (m - 1) Hmap Hhd Hm1) as [Hfl' Hflu'].
  destruct (first_chunk s R cls m Hl Hc Hm0 Hne) as (HRp & Hcp & Hfree).
  set (p := next_of s (sentinel s m)) in *.
  destruct (free_chunk_link Hlay s p m Hmap Hfree)
    as (Hplo & Hpl & Hcont & Hlist & Hin & Hoff).
  pose proof Hfree as (Hlo & Hhi & Hal & Hrange & Hcls).
  pose proof (pow2_half m ltac:(lia)) as Hpow.
  pose proof (pow2_class (m - 1) ltac:(lia)) as Hmin.
  unfold halve_first_chunk.
  apply wp_bind, wp_free_list; [done|]. rewrite Hflu.
  apply wp_bind, wp_get_next; [done|].
  apply wp_bind, wp_offset_to_addr; [done|].
  fold (next_of s (sentinel s m)). fold p. rewrite Hcont, Hlist.
  apply wp_bind, wp_get_mclass; [done|].
  apply wp_bind, wp_assert; [by apply Z.eqb_eq|].
  apply wp_bind.
  eapply wp_mono; [by apply (shmlist_del_lists Hsz s R cls p)|].
  cbv beta. intros _ s1 [(lk1 & ->) Hl1].
  apply wp_bind, wp_num_free_add; [done|done|].
  apply wp_bind, wp_addr_to_offset; [done|].
  change (offset_of _ (p - offsetof_list)) with (offset_of s (p - offsetof_list)).
  rewrite Hoff.
  rewrite shl1_small by (unfold SHMCLASS_MIN_BITS, SHMCLASS_MAX_BITS in *; lia).
  apply wp_bind, wp_defined.
  apply wp_bind, wp_offset_to_addr; [done|].
  set (o := p - offsetof_list - shmhead s) in *.
  set (half := 2 ^ (m - 1)) in *.
  assert (0 < sizeof_shmhead) as Hhpos
    by (destruct Hlay as (? & ? & ? & ? & Hh); unfold SHMCLASS_MAX_BITS in Hh; lia).
  pose proof Hlay as (Hol & _ & Hfit & _ & _).
  pose proof Hmap as [Hpos Hend].
  set (s2 := set_num_free _ _).
  assert (addr_of s2 (Int.u64 (o + half)) = p - offsetof_list + half) as ->.
  { unfold addr_of. cbn [s2 shmhead set_num_free set_links].
    rewrite (u64_small (o + half)), (u64_small (shmhead s)) by lia.
    destruct (Z.eqb_spec (o + half) 0); [lia|].
    rewrite u64_small by lia. unfold o. lia. }
  assert (list_of (p - offsetof_list + half) = p + half) as ->.
  { unfold list_of. rewrite u64_small by lia. lia. }
  assert (in_segment s (p - offsetof_list + half) offsetof_list = true) as Hin2.
  { unfold in_segment. apply andb_true_iff. split; apply Z.leb_le; lia. }
  assert (Int.u8 (m - 1) = m - 1) as Hu8.
  { unfold Int.u8. apply Z.mod_small.
    unfold SHMCLASS_MIN_BITS, SHMCLASS_MAX_BITS in *. lia. }
  apply wp_bind, wp_set_mclass; [done|].
  apply wp_bind, wp_set_mclass; [done|].
  apply wp_bind, wp_set_active; [done|].
  apply wp_bind, wp_set_active; [done|].
  cbn [s2 shmhead chunks set_chunks set_num_free set_links]. rewrite Hu8.
  replace (p - offsetof_list + half - shmhead s) with (o + half) by (unfold o; lia).
  fold o. set (s6 := set_chunks _ _).
  assert (0 < half) as Hhalf by (unfold half, SHMCLASS_MIN_BITS in *; lia).
  assert (mclass (default zero_chunk (chunks s6 !! o)) = m - 1) as Hc1.
  { unfold s6. cbn [chunks set_chunks set_num_free set_links].
    rewrite !lookup_insert. repeat (case_decide; try lia); done. }
  assert (mclass (default zero_chunk (chunks s6 !! (o + half))) = m - 1) as Hc2.
  { unfold s6. cbn [chunks set_chunks set_num_free set_links].
    rewrite !lookup_insert. repeat (case_decide; try lia); done. }
  assert (∀ o', o' ≠ o → o' ≠ o + half → chunks s6 !! o' = chunks s !! o') as Hco.
  { intros o' Ho1 Ho2. unfold s6. cbn [chunks set_chunks set_num_free set_links].
    rewrite !lookup_insert. repeat (case_decide; try lia); done. }
  destruct (chunks_ok_halve Hlay s s6 R cls p m Hc HRp Hcp Hfree
              ltac:(lia) eq_refl eq_refl Hc1 Hc2 Hco) as [Hnp2 Hc6].
  fold half in Hnp2, Hc6.
  assert (lists_ok s6 (λ q, R q ∧ q ≠ p) cls) as Hl6
    by (by apply (lists_ok_ext _ _ _ _ eq_refl eq_refl eq_refl Hl1)).
  assert (length (num_free s6) = 32%nat) as Hnf6
    by (cbn [s6 s2 num_free set_chunks set_num_free set_links];
        by rewrite length_array_add).
  assert (mapped s6 ∧ is_link s6 p ∧ is_link s6 (p + half) ∧
          sentinel s6 (m - 1) = sentinel s (m - 1)) as (Hmap6 & Hpl6 & Hp2l6 & Hsen6).
  { split; [done|]. split; [done|]. split; [|done].
    unfold is_link, in_segment.
    cbn [s6 s2 shmhead segment_size set_chunks set_num_free set_links].
    split; [|lia]. apply andb_true_iff. split; apply Z.leb_le; lia. }
  assert (shmhead s6 = shmhead s ∧ segment_size s6 = segment_size s ∧
          length (num_active s6) = 32%nat) as (Hh6 & Hz6 & Hna6) by done.
  clearbody s6. clear Hc1 Hc2 Hco s2.
  pose proof Hc as (Hsen & _ & _).
  destruct (Hsen (m - 1) Hm1) as [HRfl' Hcfl'].
  assert (sentinel s (m - 1) ≠ p) as Hflp.
  { intros E. by apply (free_chunk_not_sentinel Hlay s p m (m - 1)). }
  apply wp_bind, wp_free_list; [done|]. rewrite Hsen6, Hflu'.
  apply wp_bind.
  eapply wp_mono;
    [by apply (shmlist_add_lists Hsz s6 (λ q, R q ∧ q ≠ p) cls (sentinel s (m - 1)) p);
       [| | |intros [_ ?]|]|].
  cbv beta. intros _ s7 [(lk7 & ->) [Hl7 Hn7]]. rewrite Hcfl' in Hl7.
  apply wp_bind, wp_free_list; [done|].
  change (sentinel (set_links _ s6) (m - 1)) with (sentinel s6 (m - 1)).
  rewrite Hsen6, Hflu'.
  apply wp_bind.
  eapply wp_mono;
    [apply (shmlist_add_lists Hsz (set_links (λ _, lk7) s6) _ _
              (sentinel s (m - 1)) (p + half) Hmap6 Hl7)|].
  { by left. }
  { intros [[Hp2 _]|Hp2]; [done|lia]. }
  { done. }
  cbv beta. intros _ s8 [(lk8 & ->) [Hl8 Hn8]].
  assert (upd cls p (m - 1) (sentinel s (m - 1)) = m - 1) as Hcfl2
    by (unfold upd; by rewrite decide_False).
  rewrite Hcfl2 in Hl8.
  apply wp_bind, wp_num_free_add; [done|done|].
  apply wp_ret. split; [done|]. split; [done|]. split; [done|]. split.
  - eexists _, _. split.
    + done.
    + cbn [segment_size set_num_free set_links]. by rewrite Hz6.
    + cbn [num_free set_num_free set_links]. by rewrite length_array_add.
    + done.
    + by apply (lists_ok_ext _ _ _ _ eq_refl eq_refl eq_refl Hl8).
    + by apply (chunks_ok_ext _ _ _ _ eq_refl eq_refl eq_refl Hc6).
  - change (next_of _ (sentinel _ (m - 1))) with
      (next_of (set_links (λ _, lk8) (set_links (λ _, lk7) s6)) (sentinel s6 (m - 1))).
    change (sentinel _ (m - 1)) with (sentinel s6 (m - 1)) at 2.
    rewrite Hsen6, Hn8.
    destruct (sentinel_bounds Hlay s (m - 1) Hm1) as [_ Hsb]. lia.
Qed.

(** [shmmgr_split_chunk] returns.  It answers [true] when one of the free
    lists from [m] up is not empty, and then the free list of the class
    below is not empty; it answers [false] otherwise, and then it has
    changed nothing. *)
Lemma split_chunk_returns fuel : ∀ m s R cls,
  heap_ok s R cls → SHMCLASS_MIN_BITS < m ≤ SHMCLASS_MAX_BITS →
  SHMCLASS_MAX_BITS - m ≤ Z.of_nat fuel →
  wp (shmmgr_split_chunk fuel m)
    (λ ok s', shmhead s' = shmhead s ∧ segment_size s' = segment_size s ∧
              (∃ R' cls', heap_ok s' R' cls') ∧
              (ok = true ↔
               ∃ k, m ≤ k ≤ SHMCLASS_MAX_BITS ∧
                    next_of s (sentinel s k) ≠ sentinel s k) ∧
              (ok = true →
               next_of s' (sentinel s' (m - 1)) ≠ sentinel s' (m - 1)) ∧
              (ok = false → s' = s)) s.
Proof.
  induction fuel as [|fuel IH]; intros m s R cls Hok Hm Hfuel;
    rewrite split_chunk_unfold;
    assert (0 ≤ m ≤ SHMCLASS_MAX_BITS) as Hm0
      by (unfold SHMCLASS_MIN_BITS in *; lia);
    destruct (sentinel_link Hlay s m (heap_mapped _ _ _ Hok) (heap_header _ _ _ Hok) Hm0)
      as [Hfl Hflu];
    (apply wp_bind, wp_assert;
     [apply andb_true_iff; split; [apply Z.ltb_lt|apply Z.leb_le]; lia|]);
    (apply wp_bind, wp_free_list; [done|]); rewrite Hflu;
    (apply wp_bind, wp_shmlist_empty; [by destruct Hok|done|]);
    (destruct (Z.eqb_spec (next_of s (sentinel s m)) (sentinel s m)) as [He|He];
     [|apply wp_bind, wp_ret; cbn [negb];
       eapply wp_mono; [by apply (halve_first_chunk_returns s R cls m)|];
       cbv beta; intros ok s' (-> & ? & ? & ? & ?);
       (split; [done|]); (split; [done|]); (split; [done|]);
       (split; [split; [intros _; exists m; split; [lia|done]|done]|]);
       (split; [done|done])]);
    (destruct (Z.eqb_spec m SHMCLASS_MAX_BITS) as [Hmax|Hmax];
     [apply wp_bind, wp_ret; cbn [negb]; apply wp_ret;
      split; [done|]; split; [done|]; split; [by exists R, cls|];
      split; [|done];
      split; [done|]; intros (k & Hk & Hne); exfalso;
      assert (k = m) as -> by lia; done|]).
  - exfalso. lia.
  - apply wp_bind. eapply wp_mono.
    { apply (IH (m + 1) s R cls Hok); unfold SHMCLASS_MIN_BITS in *; lia. }
    cbv beta. intros ok s1 (Hh1 & Hz1 & (R1 & cls1 & Hok1) & Hiff & Hne1 & Hsame).
    replace (m + 1 - 1) with m in Hne1 by lia.
    assert ((∃ k, m ≤ k ≤ SHMCLASS_MAX_BITS ∧
                  next_of s (sentinel s k) ≠ sentinel s k) ↔ ok = true) as Hiff'.
    { rewrite Hiff. split.
      - intros (k & Hk & Hne). exists k. split; [|done].
        destruct (Z.eq_dec k m) as [->|]; [done|lia].
      - intros (k & Hk & Hne). exists k. split; [lia|done]. }
    destruct ok; cbn [negb].
    + eapply wp_mono; [by apply (halve_first_chunk_returns s1 R1 cls1 m); auto|].
      cbv beta. intros ok s' (-> & Hh & Hz & Hok' & Hne').
      rewrite Hh, Hz. split; [done|]. split; [done|]. split; [done|].
      split; [split; [intros _; by apply Hiff'|done]|]. done.
    + apply wp_ret. split; [done|]. split; [done|]. split; [by exists R1, cls1|].
      split; [by rewrite Hiff'|]. split; [done|]. intros _. by apply Hsame.
Qed.

(** The invariant does not depend on the lock. *)
Lemma heap_ok_locked s R cls b : heap_ok s R cls → heap_ok (set_locked b s) R cls.
Proof.
  intros [Hmap Hhd Hnf Hna Hl Hc]. by split.
Qed.

(** [take_first_chunk] returns the [list] member of the first chunk of a
    free list that is not empty. *)
Lemma take_first_chunk_returns s R cls m :
  heap_ok s R cls → 0 ≤ m ≤ SHMCLASS_MAX_BITS →
  next_of s (sentinel s m) ≠ sentinel s m →
  wp (take_first_chunk m)
    (λ p s', free_chunk s' p m ∧ shmhead s' = shmhead s ∧
             segment_size s' = segment_size s ∧
             ∃ R' cls', heap_ok s' R' cls') s.
Proof.
  intros [Hmap Hhd Hnf Hna Hl Hc] Hm0 Hne.
  pose proof (layout_link_size Hlay) as Hsz.
  destruct (sentinel_link Hlay s m Hmap Hhd Hm0) as [Hfl Hflu].
  destruct (first_chunk s R cls m Hl Hc Hm0 Hne) as (HRp & Hcp & Hfree).
  set (p := next_of s (sentinel s m)) in *.
  destruct (free_chunk_link Hlay s p m Hmap Hfree)
    as (Hplo & Hpl & Hcont & Hlist & Hin & Hoff).
  pose proof Hfree as (Hlo & Hhi & Hal & Hrange & Hcls).
  unfold take_first_chunk.
  apply wp_bind, wp_free_list; [done|]. rewrite Hflu.
  apply wp_bind, wp_shmlist_empty; [done|done|]. fold p.
  apply wp_bind, wp_assert; [by apply negb_true_iff, Z.eqb_neq|].
  apply wp_bind, wp_free_list; [done|]. rewrite Hflu.
  apply wp_bind, wp_get_next; [done|].
  apply wp_bind, wp_offset_to_addr; [done|].
  fold (next_of s (sentinel s m)). fold p. rewrite Hcont, Hlist.
  apply wp_bind, wp_get_mclass; [done|].
  apply wp_bind, wp_assert; [by apply Z.eqb_eq|].
  apply wp_bind.
  eapply wp_mono; [by apply (shmlist_del_lists Hsz s R cls p)|].
  cbv beta. intros _ s1 [(lk1 & ->) Hl1].
  apply wp_bind, wp_num_free_add; [done|done|].
  apply wp_bind, wp_num_active_add; [done|done|].
  apply wp_bind, wp_modify. apply wp_ret.
  split; [done|]. split; [done|]. split; [done|].
  exists (λ q, R q ∧ q ≠ p), cls. split.
  - done.
  - done.
  - cbn [num_free set_locked set_num_active set_num_free set_links].
    by rewrite length_array_add.
  - cbn [num_active set_locked set_num_active set_num_free set_links].
    by rewrite length_array_add.
  - by apply (lists_ok_ext _ _ _ _ eq_refl eq_refl eq_refl Hl1).
  - apply (chunks_ok_ext s); [done|done|done|].
    by apply (chunks_ok_remove Hlay s R cls p m).
Qed.

End halving.

Section allocating.
Context {L : Layout}.
Context (Hlay : layout_ok).
Implicit Types (s : shm) (p q : Z) (R : Z → Prop) (cls : Z → Z).

(** A state that was not locked is the same after lock and unlock. *)
Lemma unlock_lock s : locked s = false → set_locked false (set_locked true s) = s.
Proof. intros Hl. destruct s. cbn in *. by subst. Qed.

(** [shmmgr_alloc] for a request of class [m]: either every free list
    from [m] up is empty, the result is null and nothing has changed but
    the lock, taken and released; or one of them is not, and the result is
    the [list] member of a chunk of class [m]. *)
Lemma alloc_class_returns s R cls n :
  let m := if request_class n <? SHMCLASS_MIN_BITS then SHMCLASS_MIN_BITS
           else request_class n in
  heap_ok s R cls → SHMCLASS_MIN_BITS ≤ m →
  m < SHMCLASS_MAX_BITS ∨
  m = SHMCLASS_MAX_BITS ∧ next_of s (sentinel s m) ≠ sentinel s m →
  wp (shmmgr_alloc n)
    (λ p s', shmhead s' = shmhead s ∧ segment_size s' = segment_size s ∧
             (∃ R' cls', heap_ok s' R' cls') ∧
             ((p = NULL ∧ s' = set_locked false (set_locked true s) ∧
               ∀ k, m ≤ k ≤ SHMCLASS_MAX_BITS →
                    next_of s (sentinel s k) = sentinel s k) ∨
              (p ≠ NULL ∧ free_chunk s' p m ∧
               ∃ k, m ≤ k ≤ SHMCLASS_MAX_BITS ∧
                    next_of s (sentinel s k) ≠ sentinel s k))) s.
Proof.
  intros m Hok Hm6 Hm.
  assert (0 ≤ m ≤ SHMCLASS_MAX_BITS) as Hm0
    by (unfold SHMCLASS_MIN_BITS, SHMCLASS_MAX_BITS in *; lia).
  rewrite alloc_unfold. cbv zeta.
  assert ((SHMCLASS_MAX_BITS <? request_class n) = false) as ->.
  { apply Z.ltb_ge. unfold m, SHMCLASS_MIN_BITS, SHMCLASS_MAX_BITS in *.
    destruct (Z.ltb_spec (request_class n) 6); lia. }
  fold m. apply wp_bind, wp_modify.
  pose proof (heap_ok_locked s R cls true Hok) as Hok0.
  set (s0 := set_locked true s) in *.
  destruct (sentinel_link Hlay s0 m (heap_mapped _ _ _ Hok0)
              (heap_header _ _ _ Hok0) Hm0) as [Hfl Hflu].
  apply wp_bind, wp_free_list; [done|]. rewrite Hflu.
  apply wp_bind, wp_shmlist_empty; [by destruct Hok0|done|].
  assert (∀ s1 R1 cls1,
            heap_ok s1 R1 cls1 → shmhead s1 = shmhead s →
            segment_size s1 = segment_size s →
            next_of s1 (sentinel s1 m) ≠ sentinel s1 m →
            wp (take_first_chunk m)
              (λ p s', shmhead s' = shmhead s ∧ segment_size s' = segment_size s ∧
                       (∃ R' cls', heap_ok s' R' cls') ∧
                       p ≠ NULL ∧ free_chunk s' p m) s1) as Htake.
  { intros s1 R1 cls1 Hok1 Hh1 Hz1 Hne1.
    eapply wp_mono; [by apply (take_first_chunk_returns Hlay s1 R1 cls1 m)|].
    cbv beta. intros p s' (Hfree & Hh & Hz & Hok').
    split; [congruence|]. split; [congruence|]. split; [done|]. split; [|done].
    pose proof Hok' as (R' & cls' & Hok2).
    pose proof (heap_mapped _ _ _ Hok2) as Hmap2.
    destruct (free_chunk_link Hlay s' p m Hmap2 Hfree) as (_ & Hl & _).
    destruct Hl as [Hin _]. destruct Hmap2 as [Hpos _]. unfold in_segment in Hin.
    apply andb_true_iff in Hin as [Hlo%Z.leb_le _]. unfold NULL. lia. }
  destruct (Z.eqb_spec (next_of s0 (sentinel s0 m)) (sentinel s0 m)) as [He|He].
  - destruct Hm as [Hlt|[_ Hne]]; [|done].
    apply wp_bind. eapply wp_mono.
    { apply (split_chunk_returns Hlay split_depth (m + 1) s0 R cls Hok0).
      - unfold SHMCLASS_MIN_BITS, SHMCLASS_MAX_BITS in *. lia.
      - change (Z.of_nat split_depth) with 32.
        unfold SHMCLASS_MIN_BITS, SHMCLASS_MAX_BITS in *. lia. }
    cbv beta.
    intros ok s1 (Hh1 & Hz1 & (R1 & cls1 & Hok1) & Hiff & Hne1 & Hsame).
    replace (m + 1 - 1) with m in Hne1 by lia.
    destruct ok; cbn [negb].
    + eapply wp_mono; [by apply (Htake s1 R1 cls1); auto|].
      cbv beta. intros p s' (? & ? & ? & ? & ?).
      split; [done|]. split; [done|]. split; [done|]. right.
      split; [done|]. split; [done|].
      destruct (proj1 Hiff eq_refl) as (k & Hk & Hnek).
      exists k. split; [lia|done].
    + apply wp_bind, wp_modify. apply wp_ret.
      rewrite (Hsame eq_refl).
      split; [done|]. split; [done|].
      split; [exists R, cls; by apply heap_ok_locked|]. left.
      split; [done|]. split; [done|].
      intros k Hk. destruct (Z.eq_dec k m) as [->|Hkm]; [done|].
      destruct (Z.eq_dec (next_of s (sentinel s k)) (sentinel s k)) as [|Hnek];
        [done|].
      assert (false = true) as Habs; [|done].
      apply Hiff. exists k. split; [lia|done].
  - apply wp_bind, wp_ret. cbn [negb].
    eapply wp_mono; [by apply (Htake s0 R cls)|].
    cbv beta. intros p s' (? & ? & ? & ? & ?).
    split; [done|]. split; [done|]. split; [done|]. right.
    split; [done|]. split; [done|]. exists m. split; [lia|done].
Qed.

End allocating.

(** X1: on a segment whose free lists satisfy the invariant [heap_ok],
    for a request of [n] bytes, [n + offsetof_list - 1] below 2^64, let [m]
    be the smallest class from [SHMCLASS_MIN_BITS] up with
    [2 ^ m >= n + offsetof_list].  If [m] exceeds [SHMCLASS_MAX_BITS],
    [shmmgr_alloc] returns null and leaves the state alone.  If [m] is below
    [SHMCLASS_MAX_BITS], or the free list of [SHMCLASS_MAX_BITS] is not
    empty, [shmmgr_alloc] returns, the invariant holds again, and the
    result is null or the address of the [list] member of a chunk of class
    [m]: [offsetof_list] bytes past a chunk start that is a multiple of
    the chunk size [2 ^ m] from the segment base, the chunk inside the
    segment after the header, with at least [n] bytes from the address to
    its end. *)
Theorem alloc_returns {L : Layout} (s : shm) (R : Z → Prop) (cls : Z → Z) (n : Z) :
  layout_ok → heap_ok s R cls → 0 < n → n + offsetof_list - 1 < 2 ^ 64 →
  ∃ m, smallest_class (n + offsetof_list) m ∧
       (SHMCLASS_MAX_BITS < m → shmmgr_alloc n s = Ok (NULL, s)) ∧
       (m < SHMCLASS_MAX_BITS ∨
        m = SHMCLASS_MAX_BITS ∧ next_of s (sentinel s m) ≠ sentinel s m →
        wp (shmmgr_alloc n)
          (λ p s', (p = NULL ∨
                    ∃ c, p = shmhead s + c + offsetof_list ∧
                         (2 ^ m | c) ∧
                         sizeof_shmhead ≤ c ∧ c + 2 ^ m ≤ segment_size s ∧
                         mclass (default zero_chunk (chunks s' !! c)) = m ∧
                         n ≤ usable_bytes m) ∧
                   ∃ R' cls', heap_ok s' R' cls') s).
Proof.
  intros Hlay Hok Hn Hmax.
  pose proof Hlay as (Hol & _).
  pose proof (request_class_smallest n Hn Hol Hmax) as Hsm.
  set (m := if request_class n <? SHMCLASS_MIN_BITS then _ else _) in *.
  exists m. split; [done|]. split.
  - intros Hbig. unfold shmmgr_alloc.
    assert ((SHMCLASS_MAX_BITS <? request_class n) = true) as ->; [|done].
    apply Z.ltb_lt. unfold m, SHMCLASS_MIN_BITS, SHMCLASS_MAX_BITS in *.
    destruct (Z.ltb_spec (request_class n) 6); lia.
  - intros Hm. destruct Hsm as (Hm6 & Hfit & _).
    eapply wp_mono; [by apply (alloc_class_returns Hlay s R cls n)|].
    cbv beta. fold m.
    intros p s' (Hh & Hz & Hok' & [(-> & _)|(_ & Hfree & _)]);
      (split; [|done]); [by left|right].
    destruct Hfree as (Hlo & Hhi & Hal & _ & Hcls). rewrite Hh, Hz in *.
    exists (p - offsetof_list - shmhead s).
    split; [lia|]. split; [done|]. split; [done|]. split; [done|].
    split; [done|]. unfold usable_bytes. lia.
Qed.

(** X4: on an unlocked segment whose free lists satisfy the invariant,
    a request of class [m] below [SHMCLASS_MAX_BITS] gets null exactly when
    every free list from [m] to [SHMCLASS_MAX_BITS] is empty, and a call
    that returns null has changed nothing. *)
Theorem alloc_null_iff_exhausted {L : Layout} (s : shm) (R : Z → Prop) (cls : Z → Z)
    (n m : Z) :
  layout_ok → heap_ok s R cls → locked s = false →
  m = (if request_class n <? SHMCLASS_MIN_BITS then SHMCLASS_MIN_BITS
       else request_class n) →
  m < SHMCLASS_MAX_BITS →
  wp (shmmgr_alloc n)
    (λ p s', (p = NULL ↔
              ∀ k, m ≤ k ≤ SHMCLASS_MAX_BITS →
                   next_of s (sentinel s k) = sentinel s k) ∧
             (p = NULL → s' = s)) s.
Proof.
  intros Hlay Hok Hlock -> Hm.
  eapply wp_mono.
  { apply (alloc_class_returns Hlay s R cls n Hok); [|by left].
    unfold SHMCLASS_MIN_BITS. destruct (Z.ltb_spec (request_class n) 6); lia. }
  cbv beta.
  intros p s' (_ & _ & _ & [(-> & -> & Hempty)|(Hp & _ & k & Hk & Hne)]).
  - split; [done|]. intros _. by apply unlock_lock.
  - split; [|done]. split; [done|]. intros Hempty. exfalso.
    by apply Hne, Hempty.
Qed.

(** ** The invariant on the 4 KiB segment *)

Lemma lp64_layout_ok : layout_ok (L:=lp64).
Proof. repeat split; vm_compute; congruence. Qed.

(** The cases of a class [k] between 0 and [SHMCLASS_MAX_BITS]. *)
Ltac class_cases k :=
  let H := fresh "Hk" in
  assert (k ∈ seqZ 0 32) as H
    by (apply elem_of_seqZ; unfold SHMCLASS_MAX_BITS in *; lia);
  let l := eval vm_compute in (seqZ 0 32) in
  change (seqZ 0 32) with l in H;
  repeat (apply elem_of_cons in H as [->|H]);
  [..|by apply elem_of_nil in H].

(** A link computed on the 4 KiB segment is one of its free-list links. *)
Ltac seg4k_link :=
  first
    [ right; vm_compute; reflexivity
    | left;
      lazymatch goal with
      | |- ∃ k, _ ∧ ?f seg4k (sentinel seg4k ?j) = _ =>
          exists j; split; [assumption|vm_compute; reflexivity]
      | |- ∃ k, _ ∧ ?f seg4k _ = _ =>
          exists 11; split; [done|vm_compute; reflexivity]
      end ].

Lemma seg4k_lists_ok : lists_ok (L:=lp64) seg4k seg4k_links seg4k_class.
Proof.
  assert (mapped seg4k) as Hm by (split; vm_compute; congruence).
  split.
  - intros p [(k & Hk & ->)| ->].
    + class_cases k;
        (split; [|split; seg4k_link]);
        (split; [|split; [|split; [|split]]]);
        try (split; vm_compute; congruence); vm_compute; reflexivity.
    + (split; [|split; seg4k_link]);
        (split; [|split; [|split; [|split]]]);
        try (split; vm_compute; congruence); vm_compute; reflexivity.
  - intros p [(k & Hk & ->)| ->].
    + class_cases k; vm_compute; reflexivity.
    + vm_compute; reflexivity.
Qed.

Lemma seg4k_chunks_ok : chunks_ok (L:=lp64) seg4k seg4k_links seg4k_class.
Proof.
  assert (∀ k, 0 ≤ k ≤ SHMCLASS_MAX_BITS →
               seg4k_class (sentinel (L:=lp64) seg4k k) = k) as Hcls.
  { intros k Hk. class_cases k; vm_compute; reflexivity. }
  assert (free_chunk (L:=lp64) seg4k (shmhead seg4k + 2048 + offsetof_list (Layout:=lp64)) 11)
    as Hfree.
  { unfold free_chunk. cbv zeta. split; [vm_compute; congruence|].
    split; [vm_compute; congruence|]. split; [vm_compute; by exists 1|].
    split; [done|]. vm_compute. reflexivity. }
  split; [|split].
  - intros k Hk. split; [left; by exists k|by apply Hcls].
  - intros p [(k & Hk & ->)| ->]; [left; by exists k|right].
    replace (seg4k_class _) with 11 by (vm_compute; reflexivity). exact Hfree.
  - intros p q Hp Hq Hfp Hlt. exfalso.
    destruct Hp as [(k & Hk & ->)| ->].
    + exact (free_chunk_not_sentinel lp64_layout_ok seg4k _ _ k Hfp Hk eq_refl).
    + destruct Hq as [(k & Hk & ->)| ->]; [|lia].
      pose proof (free_chunk_not_sentinel lp64_layout_ok seg4k _ _ k Hfree Hk).
      destruct (sentinel_bounds lp64_layout_ok seg4k k Hk) as [_ Hhi].
      change (sizeof_shmlist (Layout:=lp64)) with 16 in Hhi.
      change (sizeof_shmhead (Layout:=lp64)) with 824 in Hhi.
      change (offsetof_list (Layout:=lp64)) with 8 in Hlt. lia.
Qed.

Lemma seg4k_heap_ok : heap_ok (L:=lp64) seg4k seg4k_links seg4k_class.
Proof.
  split.
  - split; vm_compute; congruence.
  - vm_compute. congruence.
  - vm_compute. reflexivity.
  - vm_compute. reflexivity.
  - exact seg4k_lists_ok.
  - exact seg4k_chunks_ok.
Qed.

Lemma alloc_returns_witness :
  ∃ m, smallest_class (1 + offsetof_list (Layout:=lp64)) m ∧
       (SHMCLASS_MAX_BITS < m → shmmgr_alloc (L:=lp64) 1 seg4k = Ok (NULL, seg4k)) ∧
       (m < SHMCLASS_MAX_BITS ∨
        m = SHMCLASS_MAX_BITS ∧
        next_of seg4k (sentinel (L:=lp64) seg4k m) ≠ sentinel (L:=lp64) seg4k m →
        wp (shmmgr_alloc (L:=lp64) 1)
          (λ p s', (p = NULL ∨
                    ∃ c, p = shmhead seg4k + c + offsetof_list (Layout:=lp64) ∧
                         (2 ^ m | c) ∧
                         sizeof_shmhead (Layout:=lp64) ≤ c ∧
                         c + 2 ^ m ≤ segment_size seg4k ∧
                         mclass (default zero_chunk (chunks s' !! c)) = m ∧
                         1 ≤ usable_bytes (L:=lp64) m) ∧
                   ∃ R' cls', heap_ok (L:=lp64) s' R' cls') seg4k).
Proof.
  apply (alloc_returns (L:=lp64) seg4k seg4k_links seg4k_class 1).
  - exact lp64_layout_ok.
  - exact seg4k_heap_ok.
  - lia.
  - reflexivity.
Defined.

(** ** ffs64 *)

Lemma land_ones_zero k v :
  0 ≤ k → Z.land v (Z.ones k) = 0 ↔ ∀ i, 0 ≤ i < k → Z.testbit v i = false.
Proof.
  intros Hk. split.
  - intros Hz i Hi.
    assert (Z.testbit (Z.land v (Z.ones k)) i = false) as Hb
      by (rewrite Hz; apply Z.bits_0).
    rewrite Z.land_spec, Z.ones_spec_low, andb_true_r in Hb by lia. done.
  - intros Hlow. apply Z.bits_inj'. intros i Hi.
    rewrite Z.land_spec, Z.bits_0.
    destruct (Z.lt_ge_cases i k) as [Hik|Hik].
    + rewrite Hlow by lia. done.
    + rewrite Z.ones_spec_high by lia. apply andb_false_r.
Qed.

Lemma ffs64_steps v :
  ffs64 v =
  if v =? 0 then 0
  else (ffs_step 1 (ffs_step 2 (ffs_step 4 (ffs_step 8 (ffs_step 16
         (ffs_step 32 (v, 1))))))).2.
Proof.
  unfold ffs64, ffs_step. destruct (v =? 0); [done|].
  change (Z.ones 32) with 0xffffffff.
  change (Z.ones 16) with 0x0000ffff.
  change (Z.ones 8) with 0x000000ff.
  change (Z.ones 4) with 0x0000000f.
  change (Z.ones 2) with 0x00000003.
  change (Z.ones 1) with 0x00000001.
  cbn [fst snd].
  repeat (match goal with
          | |- context [Z.land ?a ?b =? 0] => destruct (Z.land a b =? 0)
          end; cbn [fst snd]); reflexivity.
Qed.

(** One step of [ffs64] on the value [v0]: the bits below the position
    found so far are clear, and a set bit lies within the next [k]
    positions. *)
Lemma ffs_step_spec k v0 v r :
  0 < k → 1 ≤ r → v = Z.shiftr v0 (r - 1) →
  (∀ i, 0 ≤ i < r - 1 → Z.testbit v0 i = false) →
  Z.land v (Z.ones (2 * k)) ≠ 0 →
  (ffs_step k (v, r)).1 = Z.shiftr v0 ((ffs_step k (v, r)).2 - 1) ∧
  r ≤ (ffs_step k (v, r)).2 ≤ r + k ∧
  (∀ i, 0 ≤ i < (ffs_step k (v, r)).2 - 1 → Z.testbit v0 i = false) ∧
  Z.land (ffs_step k (v, r)).1 (Z.ones k) ≠ 0.
Proof.
  intros Hk Hr -> Hlow Hset. unfold ffs_step. cbn [fst snd].
  destruct (Z.eqb_spec (Z.land (Z.shiftr v0 (r - 1)) (Z.ones k)) 0) as [Hz|Hnz];
    cbn [fst snd]; [|split; [done|]; split; [lia|]; split; done].
  rewrite land_ones_zero in Hz by lia.
  split; [|split; [lia|split]].
  - rewrite Z.shiftr_shiftr by lia. f_equal. lia.
  - intros i Hi. destruct (Z.lt_ge_cases i (r - 1)) as [Hlt|Hge]; [apply Hlow; lia|].
    specialize (Hz (i - (r - 1)) ltac:(lia)).
    rewrite Z.shiftr_spec in Hz by lia.
    by replace (i - (r - 1) + (r - 1)) with i in Hz by lia.
  - intros Hz'. apply Hset. rewrite land_ones_zero in Hz' |- * by lia.
    intros i Hi. destruct (Z.lt_ge_cases i k) as [Hlt|Hge]; [apply Hz; lia|].
    specialize (Hz' (i - k) ltac:(lia)).
    rewrite Z.shiftr_spec in Hz' by lia.
    by replace (i - k + k) with i in Hz' by lia.
Qed.

(** [ffs64] finds the lowest set bit: the bit at position [ffs64 v - 1] is
    set and the bits below are clear. *)
Lemma ffs64_lowest_bit v :
  0 < v < 2 ^ 64 →
  1 ≤ ffs64 v ≤ 64 ∧ Z.testbit v (ffs64 v - 1) = true ∧
  ∀ i, 0 ≤ i < ffs64 v - 1 → Z.testbit v i = false.
Proof.
  intros Hv. rewrite ffs64_steps.
  destruct (Z.eqb_spec v 0) as [|_]; [lia|].
  assert (Z.land v (Z.ones (2 * 32)) ≠ 0) as H64.
  { rewrite Z.land_ones by lia. rewrite Z.mod_small by (change (2 * 32) with 64; lia).
    lia. }
  pose proof (ffs_step_spec 32 v v 1 ltac:(lia) ltac:(lia)
                ltac:(by rewrite Z.shiftr_0_r) ltac:(intros; lia) H64)
    as (E32 & R32 & L32 & S32).
  destruct (ffs_step 32 (v, 1)) as [v1 r1]; cbn [fst snd] in *.
  pose proof (ffs_step_spec 16 v v1 r1 ltac:(lia) ltac:(lia) E32 L32 S32)
    as (E16 & R16 & L16 & S16).
  destruct (ffs_step 16 (v1, r1)) as [v2 r2]; cbn [fst snd] in *.
  pose proof (ffs_step_spec 8 v v2 r2 ltac:(lia) ltac:(lia) E16 L16 S16)
    as (E8 & R8 & L8 & S8).
  destruct (ffs_step 8 (v2, r2)) as [v3 r3]; cbn [fst snd] in *.
  pose proof (ffs_step_spec 4 v v3 r3 ltac:(lia) ltac:(lia) E8 L8 S8)
    as (E4 & R4 & L4 & S4).
  destruct (ffs_step 4 (v3, r3)) as [v4 r4]; cbn [fst snd] in *.
  pose proof (ffs_step_spec 2 v v4 r4 ltac:(lia) ltac:(lia) E4 L4 S4)
    as (E2 & R2 & L2 & S2).
  destruct (ffs_step 2 (v4, r4)) as [v5 r5]; cbn [fst snd] in *.
  pose proof (ffs_step_spec 1 v v5 r5 ltac:(lia) ltac:(lia) E2 L2 S2)
    as (E1 & R1 & L1 & S1).
  destruct (ffs_step 1 (v5, r5)) as [v6 r6]; cbn [fst snd] in *.
  split; [lia|]. split; [|done].
  destruct (Z.testbit v (r6 - 1)) eqn:Hb; [done|]. exfalso. apply S1.
  apply land_ones_zero; [lia|]. intros i Hi. assert (i = 0) as -> by lia.
  rewrite E1, Z.shiftr_spec by lia. done.
Qed.

(** A value that is a multiple of [2 ^ k] has its lowest set bit at
    position [k] or above. *)
Lemma ffs64_multiple v k :
  0 < v < 2 ^ 64 → 0 ≤ k → (2 ^ k | v) → k ≤ ffs64 v - 1.
Proof.
  intros Hv Hk [c ->].
  destruct (ffs64_lowest_bit _ Hv) as (Hr & Hset & _).
  destruct (Z.lt_ge_cases (ffs64 (c * 2 ^ k) - 1) k) as [Hlt|]; [|done].
  rewrite Z.mul_pow2_bits_low in Hset by lia. done.
Qed.

(** The value is a multiple of the power of two that [ffs64] finds. *)
Lemma ffs64_divides v :
  0 < v < 2 ^ 64 → (2 ^ (ffs64 v - 1) | v).
Proof.
  intros Hv. destruct (ffs64_lowest_bit _ Hv) as (Hr & _ & Hlow).
  apply Z.mod_divide; [apply Z.pow_nonzero; lia|].
  rewrite <- Z.land_ones by lia. apply land_ones_zero; [lia|done].
Qed.

(** ** Bootstrap builds the free lists *)

Section bootstrap.
Context {L : Layout}.
Context (Hlay : layout_ok).
Implicit Types (s : shm) (p q : Z) (R : Z → Prop) (cls : Z → Z).

Lemma wp_num_free_clear m (Q : unit → shm → Prop) s :
  0 ≤ m ≤ SHMCLASS_MAX_BITS → length (num_free s) = 32%nat →
  Q tt (set_num_free <[Z.to_nat m := 0]> s) → wp (num_free_clear m) Q s.
Proof.
  intros Hm Hlen HQ. unfold num_free_clear. apply wp_bind, wp_get.
  destruct (array_get (num_free s) m) as [v|] eqn:E.
  - apply wp_bind, wp_defined. by apply wp_modify.
  - exfalso. unfold array_get in E.
    replace (0 <=? m) with true in E by (symmetry; apply Z.leb_le; lia).
    apply lookup_ge_None in E. unfold SHMCLASS_MAX_BITS in Hm. lia.
Qed.

Lemma wp_num_active_clear m (Q : unit → shm → Prop) s :
  0 ≤ m ≤ SHMCLASS_MAX_BITS → length (num_active s) = 32%nat →
  Q tt (set_num_active <[Z.to_nat m := 0]> s) → wp (num_active_clear m) Q s.
Proof.
  intros Hm Hlen HQ. unfold num_active_clear. apply wp_bind, wp_get.
  destruct (array_get (num_active s) m) as [v|] eqn:E.
  - apply wp_bind, wp_defined. by apply wp_modify.
  - exfalso. unfold array_get in E.
    replace (0 <=? m) with true in E by (symmetry; apply Z.leb_le; lia).
    apply lookup_ge_None in E. unfold SHMCLASS_MAX_BITS in Hm. lia.
Qed.

(** A counted loop that returns: the invariant [I i] holds before the
    round of [i]. *)
Lemma for_each_returns (I : Z → shm → Prop) (body : Z → M unit) (n : nat) :
  ∀ m s,
  (∀ i s, m ≤ i < m + Z.of_nat n → I i s → wp (body i) (λ _ s', I (i + 1) s') s) →
  I m s →
  wp (for_each (seqZ m (Z.of_nat n)) body) (λ _ s', I (m + Z.of_nat n) s') s.
Proof.
  induction n as [|n IH]; intros m s Hbody HI.
  - cbn [for_each]. apply wp_ret. by rewrite Z.add_0_r.
  - rewrite seqZ_cons by lia. cbn [for_each].
    apply wp_bind. eapply wp_mono; [apply Hbody; [lia|done]|].
    cbv beta. intros _ s1 HI1.
    replace (Z.pred (Z.of_nat (S n))) with (Z.of_nat n) by lia.
    replace (m + Z.of_nat (S n)) with (Z.succ m + Z.of_nat n) by lia.
    apply IH; [|by replace (Z.succ m) with (m + 1) by lia].
    intros i s2 Hi. apply Hbody. lia.
Qed.

(** The truncation loop returns the largest class, at most [m], whose
    chunk at [offset] ends inside the segment. *)
Lemma truncate_class_returns size offset fuel : ∀ m s,
  m ≤ Z.of_nat fuel →
  segment_size s = size → 0 ≤ offset → offset + 64 ≤ size → size ≤ 2 ^ 31 →
  SHMCLASS_MIN_BITS ≤ m ≤ 30 →
  wp (truncate_class fuel offset m)
    (λ m' s', s' = s ∧ SHMCLASS_MIN_BITS ≤ m' ≤ m ∧ offset + 2 ^ m' ≤ size ∧
              (m' < m → size < offset + 2 ^ (m' + 1))) s.
Proof.
  unfold SHMCLASS_MIN_BITS.
  induction fuel as [|fuel IH]; intros m s Hfuel Hsize Ho Hfit Hmax Hm; [lia|].
  cbn [truncate_class]. apply wp_bind, wp_get.
  rewrite shl1_small by lia. apply wp_bind, wp_defined.
  assert (0 < 2 ^ m ≤ 2 ^ 30)
    by (split; [apply Z.pow_pos_nonneg; lia|apply Z.pow_le_mono_r; lia]).
  rewrite u64_small by lia. rewrite Hsize.
  destruct (Z.ltb_spec size (offset + 2 ^ m)) as [Hlt|Hge].
  - assert (m ≠ 6) by (intros ->; change (2 ^ 6) with 64 in *; lia).
    eapply wp_mono; [apply (IH (m - 1) s); try done; lia|].
    cbv beta. intros m' s' (-> & Hm' & Hfit' & Hnext).
    split; [done|]. split; [lia|]. split; [done|]. intros _.
    destruct (Z.eq_dec m' (m - 1)) as [->|Hne].
    + by replace (m - 1 + 1) with m by lia.
    + apply Hnext. lia.
  - apply wp_ret. split; [done|]. split; [lia|]. split; [lia|]. lia.
Qed.

(** The header loop of [shmmgr_init] returns and leaves every free list
    empty. *)
Lemma init_header_returns s :
  mapped s → sizeof_shmhead ≤ segment_size s →
  length (num_free s) = 32%nat → length (num_active s) = 32%nat →
  wp init_header
    (λ _ s', shmhead s' = shmhead s ∧ segment_size s' = segment_size s ∧
             chunks s' = chunks s ∧
             length (num_free s') = 32%nat ∧ length (num_active s') = 32%nat ∧
             ∀ k, 0 ≤ k ≤ SHMCLASS_MAX_BITS → self_ring s' (sentinel s' k)) s.
Proof.
  intros Hmap Hhd Hnf Hna. unfold init_header.
  set (I := λ (i : Z) (s1 : shm),
         shmhead s1 = shmhead s ∧ segment_size s1 = segment_size s ∧
         chunks s1 = chunks s ∧
         length (num_free s1) = 32%nat ∧ length (num_active s1) = 32%nat ∧
         ∀ k, 0 ≤ k < i → self_ring s1 (sentinel s k)).
  eapply wp_mono.
  { apply (for_each_returns I _ 32 0 s).
    - intros i s1 Hi (Hh1 & Hz1 & Hc1 & Hnf1 & Hna1 & Hself).
      assert (0 ≤ i ≤ SHMCLASS_MAX_BITS) as Hi' by (unfold SHMCLASS_MAX_BITS; lia).
      assert (mapped s1) as Hmap1 by (unfold mapped; by rewrite Hh1, Hz1).
      destruct (sentinel_link Hlay s1 i Hmap1 ltac:(by rewrite Hz1) Hi') as [Hfl Hflu].
      assert (∀ k, sentinel s1 k = sentinel s k) as Hsen
        by (intros k; unfold sentinel; by rewrite Hh1).
      apply wp_bind, wp_free_list; [done|]. rewrite Hflu.
      apply wp_bind, shmlist_init_returns; [done|done|].
      apply wp_bind, wp_num_free_clear; [done|done|].
      apply wp_num_active_clear; [done|done|].
      split; [done|]. split; [done|]. split; [done|].
      split; [cbn [num_free set_num_active set_num_free store set_links];
              by rewrite length_insert|].
      split; [cbn [num_active set_num_active]; by rewrite length_insert|].
      intros k Hk. unfold self_ring.
      change (link_at (set_num_active _ (set_num_free _ ?s')) ?q) with (link_at s' q).
      change (offset_of (set_num_active _ (set_num_free _ ?s')) ?q) with (offset_of s1 q).
      rewrite !link_at_store, Hsen.
      destruct (decide (sentinel s k = sentinel s i)) as [E|Hne]; [by rewrite <- E|].
      apply Hself.
      destruct (Z.eq_dec k i) as [->|]; [done|lia].
    - unfold I. split; [done|]. split; [done|]. split; [done|].
      split; [done|]. split; [done|]. intros k Hk. lia. }
  cbv beta. intros _ s' (Hh & Hz & Hc & Hnf' & Hna' & Hself).
  split; [done|]. split; [done|]. split; [done|]. split; [done|]. split; [done|].
  intros k Hk. replace (sentinel s' k) with (sentinel s k)
    by (unfold sentinel; by rewrite Hh).
  apply Hself. unfold SHMCLASS_MAX_BITS in Hk. lia.
Qed.

(** Links that are all empty rings satisfy the invariant of the lists. *)
Lemma self_rings_lists s R cls :
  mapped s → (∀ p, R p → is_link s p ∧ self_ring s p) → lists_ok s R cls.
Proof.
  intros Hmap Hself. pose proof (layout_link_size Hlay) as Hsz.
  assert (∀ p, R p → next_of s p = p) as Hnext.
  { intros p Hp. destruct (Hself p Hp) as [Hl [Hn _]].
    unfold next_of. rewrite Hn. by apply addr_of_offset_of. }
  split.
  - apply rings_intro; [done|done|]. intros p Hp.
    destruct (Hself p Hp) as [Hl [Hn Hq]].
    split; [done|]. exists p, p. auto 10.
  - intros p Hp. by rewrite Hnext.
Qed.

Lemma sentinel_class_sentinel s k : sentinel_class s (sentinel s k) = k.
Proof.
  pose proof (layout_link_size Hlay) as Hsz. unfold sentinel_class, sentinel.
  replace (shmhead s + offsetof_free_list + k * sizeof_shmlist - shmhead s
           - offsetof_free_list) with (k * sizeof_shmlist) by lia.
  apply Z.div_mul. lia.
Qed.

(** The free lists after the header loop: the sentinels alone. *)
Lemma empty_heap_ok s :
  mapped s → sizeof_shmhead ≤ segment_size s →
  length (num_free s) = 32%nat → length (num_active s) = 32%nat →
  (∀ k, 0 ≤ k ≤ SHMCLASS_MAX_BITS → self_ring s (sentinel s k)) →
  heap_ok s (is_sentinel s) (sentinel_class s).
Proof.
  intros Hmap Hhd Hnf Hna Hself. split; try done.
  - apply self_rings_lists; [done|]. intros p (k & Hk & ->).
    split; [by apply sentinel_link|by apply Hself].
  - split; [|split].
    + intros k Hk. split; [by exists k|apply sentinel_class_sentinel].
    + intros p Hp. by left.
    + intros p q (k & Hk & ->) _ Hfree _. exfalso.
      by apply (free_chunk_not_sentinel Hlay s _ _ k Hfree Hk).
Qed.

(** A chunk written at [offset], past every free chunk, joins them. *)
Lemma chunks_ok_insert s s' R cls offset m :
  mapped s → chunks_ok s R cls →
  (∀ q, R q → free_chunk s q (cls q) →
        q - offsetof_list - shmhead s + 2 ^ cls q ≤ offset) →
  sizeof_shmhead ≤ offset → offset + 2 ^ m ≤ segment_size s →
  (2 ^ m | offset) →
  SHMCLASS_MIN_BITS ≤ m ≤ SHMCLASS_MAX_BITS →
  shmhead s' = shmhead s → segment_size s' = segment_size s →
  mclass (default zero_chunk (chunks s' !! offset)) = m →
  (∀ o, o ≠ offset → chunks s' !! o = chunks s !! o) →
  let p := shmhead s + offset + offsetof_list in
  ¬ R p ∧ chunks_ok s' (λ q, R q ∨ q = p) (upd cls p m) ∧
  ∀ q, R q ∨ q = p → free_chunk s' q (upd cls p m q) →
       q - offsetof_list - shmhead s' + 2 ^ upd cls p m q ≤ offset + 2 ^ m.
Proof.
  intros Hmap (Hsen & Hch & Hap) Hbound Hlo Hhi Hal Hm Hh Hz Hc Hco p.
  pose proof Hlay as (Hol & Hsz & _).
  assert (0 < 2 ^ m) as Hpos by (apply Z.pow_pos_nonneg; unfold SHMCLASS_MIN_BITS in *; lia).
  assert (∀ q, R q → q < p ∧
               (free_chunk s q (cls q) → q + 2 ^ cls q ≤ p)) as Hbelow.
  { intros q Hq. destruct (Hch q Hq) as [(k & Hk & ->)|Hfree].
    - destruct (sentinel_bounds Hlay s k Hk) as [_ Hs]. split; [unfold p; lia|].
      intros Hfree. exfalso. by apply (free_chunk_not_sentinel Hlay s _ _ k Hfree Hk).
    - pose proof (Hbound q Hq Hfree).
      assert (0 < 2 ^ cls q)
        by (destruct Hfree as (_ & _ & _ & ? & _);
            apply Z.pow_pos_nonneg; unfold SHMCLASS_MIN_BITS in *; lia).
      split; [unfold p; lia|]. intros _. unfold p. lia. }
  assert (¬ R p) as Hnp by (intros Hp; destruct (Hbelow p Hp); lia).
  assert (∀ q, R q → upd cls p m q = cls q) as Hu.
  { intros q Hq. unfold upd. rewrite decide_False; [done|]. by intros ->. }
  assert (upd cls p m p = m) as Hup by (unfold upd; by rewrite decide_True).
  assert (∀ q k, R q → free_chunk s' q k ↔ free_chunk s q k) as Hf.
  { intros q k Hq. unfold free_chunk. cbv zeta. rewrite Hh, Hz, Hco; [done|].
    destruct (Hbelow q Hq). unfold p in *. lia. }
  assert (free_chunk s' p m) as Hfp.
  { unfold free_chunk. cbv zeta. rewrite Hh, Hz.
    replace (p - offsetof_list - shmhead s) with offset by (unfold p; lia). done. }
  assert (∀ k, sentinel s' k = sentinel s k) as Hs
    by (intros k; unfold sentinel; by rewrite Hh).
  split; [done|]. split; [split; [|split]|].
  - intros k Hk. destruct (Hsen k Hk) as [HRk Hck]. rewrite Hs.
    split; [by left|]. by rewrite Hu.
  - intros q [Hq| ->].
    + rewrite Hu by done. destruct (Hch q Hq) as [(k & Hk & E)|Hfq].
      * left. exists k. by rewrite Hs.
      * right. by apply Hf.
    + right. by rewrite Hup.
  - intros q r [Hq| ->] [Hr| ->]; rewrite ?Hu, ?Hup by done; intros Hfq Hlt.
    + apply Hap; [done|done|by apply Hf|done].
    + apply Hf in Hfq; [|done]. by apply Hbelow.
    + destruct (Hbelow r Hr). lia.
    + lia.
  - intros q [Hq| ->]; rewrite ?Hu, ?Hup by done; intros Hfq; rewrite Hh.
    + apply Hf in Hfq; [|done]. pose proof (Hbound q Hq Hfq). lia.
    + unfold p. lia.
Qed.

(** Headers written with a clear [active] flag. *)
Lemma inactive_default s c :
  all_inactive s → active (default zero_chunk (chunks s !! c)) = false.
Proof.
  intros Hs. destruct (chunks s !! c) as [h|] eqn:E; [by apply (Hs c)|done].
Qed.

Lemma inactive_store s c h :
  all_inactive s → active h = false → all_inactive (set_chunks <[c := h]> s).
Proof.
  intros Hs Hh c' h'. cbn [chunks set_chunks]. rewrite lookup_insert.
  case_decide; [by intros [= <-]|apply Hs].
Qed.

(** One round of the seeding loop returns and keeps the invariant. *)
Lemma seed_round_returns size offset s :
  size ≤ 2 ^ 31 → seeding size offset s →
  wp (seed_round offset)
    (λ r s', shmhead s' = shmhead s ∧
             match r with
             | Break o => o = offset ∧ seeding size offset s' ∧ size - offset < 64
             | Continue o => seeding size o s' ∧ offset + 64 ≤ o
             end) s.
Proof.
  intros Hmax (Hsize & Hal & Hoff & Hina & R & cls & Hok & Hbound).
  pose proof Hok as [Hmap Hhd Hnf Hna Hl Hc].
  pose proof Hmap as [Hpos Hend].
  pose proof Hlay as (Hol & Hsz & Hfit & Hfl & Hhead).
  assert (0 < sizeof_shmhead) as Hhpos by (unfold SHMCLASS_MAX_BITS in Hhead; lia).
  assert (2 ^ 31 < 2 ^ 64) as H3164 by done.
  unfold seed_round. apply wp_bind, wp_get.
  rewrite min_size_64. apply wp_bind, wp_defined.
  rewrite Hsize. change (Int.u64 64) with 64. rewrite u64_small by lia.
  destruct (Z.leb_spec 64 (size - offset)) as [Hroom|Hfull]; cbn [negb];
    [|apply wp_ret; split; [done|]; split; [done|]; split; [|lia];
      split; [done|]; split; [done|]; split; [done|]; split; [done|];
      by exists R, cls].
  assert (0 < offset < 2 ^ 64) as Ho64 by lia.
  pose proof (ffs64_multiple offset SHMCLASS_MIN_BITS Ho64 ltac:(done) Hal) as Hlow.
  assert (ffs64 offset - 1 ≤ 30) as Hhigh.
  { destruct (ffs64_lowest_bit offset Ho64) as (Hr & _ & _).
    destruct (ffs64_divides offset Ho64) as [c Hc'].
    destruct (Z.lt_ge_cases 30 (ffs64 offset - 1)) as [Hgt|]; [|lia].
    pose proof (Z.pow_le_mono_r 2 31 (ffs64 offset - 1) ltac:(lia) ltac:(lia)).
    assert (0 < c) by nia. nia. }
  replace (SHMCLASS_MAX_BITS <? ffs64 offset - 1) with false
    by (symmetry; apply Z.ltb_ge; unfold SHMCLASS_MAX_BITS; lia).
  apply wp_bind, wp_assert; [by apply Z.leb_le|].
  apply wp_bind. eapply wp_mono.
  { apply (truncate_class_returns size offset 64 (ffs64 offset - 1) s);
      [change (Z.of_nat 64) with 64; lia|done|lia|lia|done|lia]. }
  cbv beta. intros m ? (-> & Hm & Hfits & _).
  replace (m <? SHMCLASS_MIN_BITS) with false by (symmetry; apply Z.ltb_ge; lia).
  assert (0 ≤ m ≤ SHMCLASS_MAX_BITS) as Hm0
    by (unfold SHMCLASS_MIN_BITS, SHMCLASS_MAX_BITS in *; lia).
  pose proof (pow2_class m ltac:(lia)) as Hmin.
  assert (64 ≤ 2 ^ m) as Hm64 by exact Hmin.
  assert (offsetof_list + sizeof_shmlist ≤ 64) as Hfit64 by exact Hfit.
  assert (2 ^ m ≤ 2 ^ 30) as Hm30 by (apply Z.pow_le_mono_r; lia).
  destruct (sentinel_link Hlay s m Hmap Hhd Hm0) as [Hflm Hflu].
  apply wp_bind, wp_offset_to_addr; [done|].
  assert (addr_of s offset = shmhead s + offset) as ->.
  { unfold addr_of. destruct (Z.eqb_spec offset 0); [lia|].
    rewrite (u64_small (shmhead s)) by lia. apply u64_small. lia. }
  assert (in_segment s (shmhead s + offset) offsetof_list = true) as Hin.
  { unfold in_segment. apply andb_true_iff. split; apply Z.leb_le; lia. }
  assert (Int.u8 m = m) as Hu8.
  { unfold Int.u8. apply Z.mod_small.
    unfold SHMCLASS_MIN_BITS, SHMCLASS_MAX_BITS in *. lia. }
  apply wp_bind, wp_set_mclass; [done|].
  apply wp_bind, wp_set_active; [done|].
  cbn [shmhead chunks set_chunks]. rewrite Hu8.
  replace (shmhead s + offset - shmhead s) with offset by lia.
  set (s2 := set_chunks _ _).
  assert (list_of (shmhead s + offset) = shmhead s + offset + offsetof_list) as ->.
  { unfold list_of. apply u64_small. lia. }
  set (p := shmhead s + offset + offsetof_list).
  assert (mclass (default zero_chunk (chunks s2 !! offset)) = m) as Hc1.
  { unfold s2. cbn [chunks set_chunks]. by rewrite !lookup_insert, !decide_True. }
  assert (∀ o, o ≠ offset → chunks s2 !! o = chunks s !! o) as Hco.
  { intros o Hne. unfold s2. cbn [chunks set_chunks].
    rewrite !lookup_insert. repeat (case_decide; try lia); done. }
  assert ((2 ^ m | offset)) as Halm.
  { apply (Z.divide_trans _ (2 ^ (ffs64 offset - 1))); [|by apply ffs64_divides].
    apply pow2_divide. unfold SHMCLASS_MIN_BITS in *. lia. }
  destruct (chunks_ok_insert s s2 R cls offset m Hmap Hc Hbound
              ltac:(lia) ltac:(lia) Halm ltac:(unfold SHMCLASS_MAX_BITS in *; lia)
              eq_refl eq_refl Hc1 Hco) as (Hnp & Hc2 & Hbound2).
  fold p in Hnp, Hc2, Hbound2.
  assert (is_link s p) as Hpl.
  { unfold is_link, in_segment. split; [|unfold p; lia].
    apply andb_true_iff. split; apply Z.leb_le; unfold p; lia. }
  assert (lists_ok s2 R cls) as Hl2
    by (by apply (lists_ok_ext _ _ _ _ eq_refl eq_refl eq_refl Hl)).
  pose proof Hc as (Hsen & _ & _). destruct (Hsen m Hm0) as [HRfl Hcfl].
  assert (shmhead s2 = shmhead s ∧ segment_size s2 = segment_size s ∧
          num_free s2 = num_free s ∧ num_active s2 = num_active s)
    as (Hh2 & Hz2 & Hnf2 & Hna2) by done.
  assert (all_inactive s2) as Hina2.
  { unfold s2. apply inactive_store; [|done].
    apply inactive_store; [done|]. by apply inactive_default. }
  assert (mapped s2) as Hmap2 by done.
  assert (is_link s2 p) as Hpl2 by done.
  assert (sentinel s2 m = sentinel s m) as Hsen2 by done.
  clearbody s2. clear Hc1 Hco.
  apply wp_bind, wp_free_list; [done|]. rewrite Hsen2, Hflu.
  apply wp_bind.
  eapply wp_mono;
    [by apply (shmlist_add_lists Hsz s2 R cls (sentinel s m) p)|].
  cbv beta. intros _ s3 [(lk3 & ->) [Hl3 _]]. rewrite Hcfl in Hl3.
  apply wp_bind, wp_num_free_add;
    [done|cbn [num_free set_links]; by rewrite Hnf2|].
  rewrite shl1_small by (unfold SHMCLASS_MIN_BITS in *; lia).
  apply wp_bind, wp_defined. apply wp_ret.
  rewrite u64_small by lia.
  split; [done|]. split; [|lia].
  split; [by rewrite <- Hsize, <- Hz2|]. split.
  { apply Z.divide_add_r; [done|].
    exists (2 ^ (m - SHMCLASS_MIN_BITS)).
    rewrite <- Z.pow_add_r by (unfold SHMCLASS_MIN_BITS in *; lia).
    f_equal. lia. }
  split; [lia|]. split; [done|].
  exists (λ q, R q ∨ q = p), (upd cls p m). split.
  - split.
    + done.
    + cbn [segment_size set_num_free set_links]. by rewrite Hz2.
    + cbn [num_free set_num_free set_links]. by rewrite length_array_add, Hnf2.
    + cbn [num_active set_num_free set_links]. by rewrite Hna2.
    + by apply (lists_ok_ext _ _ _ _ eq_refl eq_refl eq_refl Hl3).
    + by apply (chunks_ok_ext _ _ _ _ eq_refl eq_refl eq_refl Hc2).
  - intros q Hq Hfq. by apply (Hbound2 q Hq).
Qed.

Lemma seed_rounds_returns size rounds : ∀ offset s,
  size ≤ 2 ^ 31 → seeding size offset s →
  wp (seed_rounds rounds offset)
    (λ r s', shmhead s' = shmhead s ∧
             match r with
             | Break o => offset ≤ o ∧ seeding size o s' ∧ size - o < 64
             | Continue o => seeding size o s' ∧ offset + 64 * Z.pos rounds ≤ o
             end) s.
Proof.
  induction rounds as [p IH|p IH|]; intros offset s Hmax Hs; cbn [seed_rounds].
  - apply wp_bind. eapply wp_mono; [by apply (seed_round_returns size)|].
    cbv beta. intros [o|o] s1 [Hh1 Hr1];
      [destruct Hr1 as [Hs1 Ho]
      |destruct Hr1 as (-> & ? & ?); apply wp_ret; split; [done|]; split; [lia|done]].
    apply wp_bind. eapply wp_mono; [by apply IH|].
    cbv beta. intros [o'|o'] s2 [Hh2 Hr2];
      [destruct Hr2 as [Hs2 Ho']
      |destruct Hr2 as (? & ? & ?); apply wp_ret;
       split; [congruence|]; split; [lia|done]].
    eapply wp_mono; [by apply IH|].
    cbv beta. intros [o''|o''] s3 [Hh3 Hr3]; (split; [congruence|]).
    + destruct Hr3. split; [done|lia].
    + destruct Hr3 as (? & ? & ?). split; [lia|done].
  - apply wp_bind. eapply wp_mono; [by apply IH|].
    cbv beta. intros [o'|o'] s2 [Hh2 Hr2];
      [destruct Hr2 as [Hs2 Ho']
      |destruct Hr2 as (? & ? & ?); apply wp_ret; split; [done|]; split; [lia|done]].
    eapply wp_mono; [by apply IH|].
    cbv beta. intros [o''|o''] s3 [Hh3 Hr3]; (split; [congruence|]).
    + destruct Hr3. split; [done|lia].
    + destruct Hr3 as (? & ? & ?). split; [lia|done].
  - eapply wp_mono; [by apply (seed_round_returns size)|].
    cbv beta. intros [o|o] s1 [Hh1 Hr1]; (split; [done|]).
    + destruct Hr1. split; [done|lia].
    + destruct Hr1 as (-> & ? & ?). split; [lia|done].
Qed.

(** The seeding loop returns within its bound of rounds. *)
Lemma seed_returns size offset s :
  size ≤ 2 ^ 31 → seeding size offset s →
  wp (seed offset)
    (λ final s', shmhead s' = shmhead s ∧ offset ≤ final ∧
                 seeding size final s' ∧ size - final < 64) s.
Proof.
  intros Hmax Hs. unfold seed. apply wp_bind, wp_get. apply wp_bind.
  eapply wp_mono; [by apply (seed_rounds_returns size)|].
  cbv beta. intros [o|o] s1 [Hh1 Hr1]; [|by apply wp_ret].
  exfalso. destruct Hr1 as [(_ & _ & Ho & _) Hprog], Hs as (Hsize & _ & Hoff & _).
  pose proof Hlay as (_ & _ & _ & Hfl & Hhead).
  assert (0 < sizeof_shmhead) as Hhpos
    by (pose proof (layout_link_size Hlay); unfold SHMCLASS_MAX_BITS in Hhead; lia).
  rewrite Hsize in Hprog. unfold seed_fuel in Hprog.
  rewrite Z.shiftr_div_pow2 in Hprog by lia. change (2 ^ 6) with 64 in Hprog.
  assert (0 ≤ size `div` 64) by (apply Z.div_pos; lia).
  rewrite Z2Pos.id in Hprog by lia.
  pose proof (Z.mul_div_le size 64 ltac:(lia)).
  pose proof (Z.mod_pos_bound size 64 ltac:(lia)).
  pose proof (Z.div_mod size 64 ltac:(lia)). lia.
Qed.

(** The offset at which seeding starts lies past the header, at a multiple
    of [2 ^ SHMCLASS_MIN_BITS]. *)
Lemma start_offset_aligned :
  0 < sizeof_shmhead < 2 ^ 29 →
  ∃ start, start_offset = Some start ∧ sizeof_shmhead < start ≤ 2 ^ 30 ∧
           (2 ^ SHMCLASS_MIN_BITS | start).
Proof.
  intros Hh. assert (2 ^ 29 < 2 ^ 64) by done.
  unfold start_offset. rewrite u64_small by lia.
  assert (0 < sizeof_shmhead < 2 ^ 64) as Hh' by lia.
  destruct (fls64_bounds sizeof_shmhead Hh') as [Hr [Hlo Hhi]].
  assert (fls64 sizeof_shmhead ≤ 29) as Hle.
  { destruct (Z.lt_ge_cases 29 (fls64 sizeof_shmhead)) as [Hgt|]; [|lia].
    pose proof (Z.pow_le_mono_r 2 29 (fls64 sizeof_shmhead - 1)). lia. }
  rewrite shl1_small by lia. rewrite min_size_64. cbn [mbind option_bind].
  assert (0 < 2 ^ (fls64 sizeof_shmhead + 1) ≤ 2 ^ 30) as Hp.
  { split; [apply Z.pow_pos_nonneg; lia|apply Z.pow_le_mono_r; lia]. }
  assert (2 ^ fls64 sizeof_shmhead < 2 ^ (fls64 sizeof_shmhead + 1)) as Hlt
    by (apply Z.pow_lt_mono_r; lia).
  rewrite !u64_small by lia. eexists. split; [done|].
  destruct (Z.ltb_spec (2 ^ (fls64 sizeof_shmhead + 1)) 64) as [Hsmall|Hbig].
  - split; [lia|]. by exists 1.
  - split; [lia|]. exists (2 ^ (fls64 sizeof_shmhead + 1 - SHMCLASS_MIN_BITS)).
    assert (SHMCLASS_MIN_BITS ≤ fls64 sizeof_shmhead + 1) as Hge.
    { destruct (Z.lt_ge_cases (fls64 sizeof_shmhead + 1) SHMCLASS_MIN_BITS) as [Hc|];
        [|done].
      pose proof (Z.pow_lt_mono_r 2 (fls64 sizeof_shmhead + 1) SHMCLASS_MIN_BITS
                    ltac:(lia) ltac:(done) Hc) as Hpow.
      change (2 ^ SHMCLASS_MIN_BITS) with 64 in Hpow. lia. }
    rewrite <- Z.pow_add_r by (unfold SHMCLASS_MIN_BITS in *; lia).
    f_equal. lia.
Qed.

(** The segment that [shmmgr_init] writes: the free lists satisfy the
    invariant, and fewer than [SHMCLASS_MIN_SIZE] bytes are left at the
    tail. *)
Lemma init_segment_returns addr id size start :
  0 < addr → addr + size ≤ 2 ^ 64 →
  0 < sizeof_shmhead < 2 ^ 29 → start_offset = Some start →
  start ≤ size → size ≤ 2 ^ 31 →
  wp (init_segment id size)
    (λ final s', shmhead s' = addr ∧ start ≤ final ∧
                 seeding size final s' ∧ size - final < 64)
    (attached addr size).
Proof.
  intros Haddr Hend Hh Hso Hstart Hmax.
  destruct (start_offset_aligned Hh) as (start' & Hso' & Hlo & Hal).
  rewrite Hso in Hso'. injection Hso' as <-.
  unfold init_segment. apply wp_bind, wp_modify. apply wp_bind.
  eapply wp_mono.
  { apply init_header_returns; [split; [done|exact Hend]| |done|done].
    cbn [segment_size set_ident attached]. lia. }
  cbv beta. intros _ s1 (Hh1 & Hz1 & Hc1 & Hnf1 & Hna1 & Hself).
  cbn [shmhead segment_size set_ident attached] in Hh1, Hz1.
  assert (mapped s1) as Hmap1 by (unfold mapped; rewrite Hh1, Hz1; lia).
  rewrite Hso. apply wp_bind, wp_defined.
  eapply wp_mono.
  { apply (seed_returns size start s1 Hmax).
    split; [done|]. split; [done|]. split; [lia|].
    split; [intros c h; by rewrite Hc1|].
    exists (is_sentinel s1), (sentinel_class s1). split.
    - apply empty_heap_ok; [done|rewrite Hz1; lia|done|done|done].
    - intros q (k & Hk & ->) Hfree. exfalso.
      by apply (free_chunk_not_sentinel Hlay s1 _ _ k Hfree Hk). }
  cbv beta. intros final s' (Hh' & Hge & Hs' & Htail).
  split; [congruence|done].
Qed.

End bootstrap.

(** X2: when [shmget] and [shmat] succeed, on a segment of at most
    2 GiB that holds the starting offset, [shmmgr_init] returns 0 with the
    segment attached, and the free lists it has built satisfy the invariant
    [heap_ok]: every sentinel and every seeded chunk is on a ring of its
    class, the chunks lie between the header and the end of the segment and
    do not overlap, and no chunk header is marked active.  The answers of
    the three [pthread] calls do not matter. *)
Theorem shmmgr_init_builds_heap {L : Layout} (e : env) (size : Z) (hugetlb : bool)
    (id addr start : Z) (s0 : shm) :
  layout_ok → 0 < sizeof_shmhead < 2 ^ 29 → start_offset = Some start →
  start ≤ size → size ≤ 2 ^ 31 →
  shmget e IPC_PRIVATE size (if hugetlb then 3968 else 1920) = id → 0 ≤ id →
  shmat e id = addr → addr ≠ Int.u64 (-1) → 0 < addr → addr + size ≤ 2 ^ 64 →
  (∀ s, shmbuf_init e size s = Ok (tt, s)) →
  wp (shmmgr_init e size hugetlb)
    (λ r s', r = 0 ∧ shmhead s' = addr ∧ segment_size s' = size ∧
             all_inactive s' ∧ ∃ R cls, heap_ok s' R cls) s0.
Proof.
  intros Hlay Hh Hso Hstart Hmax Hget Hid Hat Hne Haddr Hend Hbuf.
  unfold shmmgr_init. cbv zeta.
  assert ((if hugetlb
           then Z.lor (Z.lor (Z.lor 384 IPC_CREAT) IPC_EXCL) SHM_HUGETLB
           else Z.lor (Z.lor 384 IPC_CREAT) IPC_EXCL)
          = if hugetlb then 3968 else 1920) as -> by (by destruct hugetlb).
  rewrite Hget, Hat.
  replace (id <? 0) with false by (symmetry; apply Z.ltb_ge; lia).
  replace (addr =? Int.u64 (-1)) with false by (symmetry; by apply Z.eqb_neq).
  apply wp_bind, wp_modify. apply wp_bind.
  eapply wp_mono; [by apply (init_segment_returns Hlay addr id size start)|].
  cbv beta.
  intros final s1 (Hh1 & _ & (Hz1 & _ & _ & Hina & R & cls & Hok & _) & _).
  assert (wp (shmbuf_init e size ≫= λ _, mret 0)
            (λ r s', r = 0 ∧ shmhead s' = addr ∧ segment_size s' = size ∧
                     all_inactive s' ∧ ∃ R cls, heap_ok s' R cls) s1) as Hrest.
  { apply wp_bind. exists tt, s1. split; [apply Hbuf|].
    apply wp_ret. split; [done|]. split; [done|]. split; [done|].
    split; [done|]. by exists R, cls. }
  apply wp_bind. unfold shmmgr_init_mutex.
  repeat (match goal with
          | |- wp (if ?b then _ else _) _ _ => destruct b
          end; [by apply wp_ret|]).
  apply wp_bind, wp_modify. apply wp_ret.
  apply wp_bind. exists tt, (set_locked false s1). split; [apply Hbuf|].
  apply wp_ret. split; [done|]. split; [done|]. split; [done|].
  split; [done|]. exists R, cls. by apply heap_ok_locked.
Qed.

Lemma shmmgr_init_builds_heap_witness :
  wp (shmmgr_init (L:=lp64) env_ok 4096 false)
    (λ r s', r = 0 ∧ shmhead s' = 0x7f0000000000 ∧ segment_size s' = 4096 ∧
             all_inactive s' ∧ ∃ R cls, heap_ok (L:=lp64) s' R cls) detached.
Proof.
  apply (shmmgr_init_builds_heap (L:=lp64) env_ok 4096 false 5 0x7f0000000000 2048).
  - exact lp64_layout_ok.
  - done.
  - reflexivity.
  - lia.
  - lia.
  - reflexivity.
  - lia.
  - reflexivity.
  - done.
  - lia.
  - lia.
  - reflexivity.
Defined.

(** X3: when [shmget] fails, [shmmgr_init] returns -1 and leaves the
    state of the process alone.  When [shmat] fails it returns -1 as well,
    but [shmhead] has been set to the address -1 that [shmat] answered,
    which is not [NULL]: [addr_to_offset] on that state passes its
    assertion and translates against this base. *)
Theorem shmmgr_init_failure {L : Layout} (e : env) (size : Z) (hugetlb : bool) (s : shm) :
  let id := shmget e IPC_PRIVATE size (if hugetlb then 3968 else 1920) in
  (id < 0 → shmmgr_init e size hugetlb s = Ok (-1, s)) ∧
  (0 ≤ id → shmat e id = Int.u64 (-1) →
   ∃ s', shmmgr_init e size hugetlb s = Ok (-1, s') ∧
         shmhead s' = 2 ^ 64 - 1 ∧ segment_size s' = segment_size s ∧
         links s' = links s ∧ chunks s' = chunks s ∧
         ∀ a, 0 < a < 2 ^ 64 - 1 → addr_to_offset a s' = Ok (a + 1, s')).
Proof.
  intros id. unfold shmmgr_init. cbv zeta.
  assert ((if hugetlb
           then Z.lor (Z.lor (Z.lor 384 IPC_CREAT) IPC_EXCL) SHM_HUGETLB
           else Z.lor (Z.lor 384 IPC_CREAT) IPC_EXCL)
          = if hugetlb then 3968 else 1920) as -> by (by destruct hugetlb).
  fold id. split.
  - intros Hid. by replace (id <? 0) with true by (symmetry; apply Z.ltb_lt; lia).
  - intros Hid Hat. replace (id <? 0) with false by (symmetry; apply Z.ltb_ge; lia).
    rewrite Hat, Z.eqb_refl.
    exists (set_shmhead (Int.u64 (-1)) s). split; [done|]. split; [done|].
    split; [done|]. split; [done|]. split; [done|].
    intros a Ha. rewrite addr_to_offset_eq; [|done|unfold NULL; lia].
    cbn [shmhead set_shmhead]. change (Int.u64 (Int.u64 (-1))) with (2 ^ 64 - 1).
    rewrite (u64_small a) by lia. do 2 f_equal.
    unfold Int.u64. replace (a - (2 ^ 64 - 1)) with (a + 1 + (-1) * 2 ^ 64) by lia.
    rewrite Z.mod_add by lia. apply Z.mod_small. lia.
Qed.

Lemma shmmgr_init_failure_witness :
  shmmgr_init (L:=lp64) env_noget 4096 false detached = Ok (-1, detached) ∧
  ∃ s', shmmgr_init (L:=lp64) env_noat 4096 false detached = Ok (-1, s') ∧
        shmhead s' = 2 ^ 64 - 1 ∧ segment_size s' = segment_size detached ∧
        links s' = links detached ∧ chunks s' = chunks detached ∧
        ∀ a, 0 < a < 2 ^ 64 - 1 → addr_to_offset a s' = Ok (a + 1, s').
Proof.
  split.
  - apply (proj1 (shmmgr_init_failure (L:=lp64) env_noget 4096 false detached)).
    reflexivity.
  - apply (proj2 (shmmgr_init_failure (L:=lp64) env_noat 4096 false detached)).
    + discriminate.
    + reflexivity.
Defined.

Lemma alloc_null_iff_exhausted_witness :
  wp (shmmgr_alloc (L:=lp64) 1)
    (λ p s', (p = NULL ↔
              ∀ k, 6 ≤ k ≤ SHMCLASS_MAX_BITS →
                   next_of seg4k (sentinel (L:=lp64) seg4k k) =
                   sentinel (L:=lp64) seg4k k) ∧
             (p = NULL → s' = seg4k)) seg4k.
Proof.
  apply (alloc_null_iff_exhausted (L:=lp64) seg4k seg4k_links seg4k_class 1 6).
  - exact lp64_layout_ok.
  - exact seg4k_heap_ok.
  - vm_compute. reflexivity.
  - vm_compute. reflexivity.
  - reflexivity.
Defined.

(** X5: on a segment whose free lists satisfy the invariant,
    [shmmgr_split_chunk] on a class [m] above [SHMCLASS_MIN_BITS] returns
    within the depth [shmmgr_alloc] allows and keeps the invariant.  It
    answers [true] exactly when a free list of class [m] or above is not
    empty, and then the free list of class [m - 1] is not empty; when it
    answers [false] it has changed nothing. *)
Theorem split_chunk_splits {L : Layout} (s : shm) (R : Z → Prop) (cls : Z → Z) (m : Z) :
  layout_ok → heap_ok s R cls → SHMCLASS_MIN_BITS < m ≤ SHMCLASS_MAX_BITS →
  wp (shmmgr_split_chunk split_depth m)
    (λ ok s', shmhead s' = shmhead s ∧ segment_size s' = segment_size s ∧
              (∃ R' cls', heap_ok s' R' cls') ∧
              (ok = true ↔
               ∃ k, m ≤ k ≤ SHMCLASS_MAX_BITS ∧
                    next_of s (sentinel s k) ≠ sentinel s k) ∧
              (ok = true →
               next_of s' (sentinel s' (m - 1)) ≠ sentinel s' (m - 1)) ∧
              (ok = false → s' = s)) s.
Proof.
  intros Hlay Hok Hm. apply (split_chunk_returns Hlay split_depth m s R cls Hok Hm).
  change (Z.of_nat split_depth) with 32.
  unfold SHMCLASS_MIN_BITS, SHMCLASS_MAX_BITS in *. lia.
Qed.

Lemma split_chunk_splits_witness :
  wp (shmmgr_split_chunk (L:=lp64) split_depth 7)
    (λ ok s', shmhead s' = shmhead seg4k ∧ segment_size s' = segment_size seg4k ∧
              (∃ R' cls', heap_ok (L:=lp64) s' R' cls') ∧
              (ok = true ↔
               ∃ k, 7 ≤ k ≤ SHMCLASS_MAX_BITS ∧
                    next_of seg4k (sentinel (L:=lp64) seg4k k) ≠
                    sentinel (L:=lp64) seg4k k) ∧
              (ok = true →
               next_of s' (sentinel (L:=lp64) s' (7 - 1)) ≠
               sentinel (L:=lp64) s' (7 - 1)) ∧
              (ok = false → s' = seg4k)) seg4k.
Proof.
  apply (split_chunk_splits (L:=lp64) seg4k seg4k_links seg4k_class 7).
  - exact lp64_layout_ok.
  - exact seg4k_heap_ok.
  - done.
Defined.

(** ** The [active] flag *)




Section inactive.
Context {L : Layout}.
Implicit Types (s : shm).





End inactive.



(** ** The bit scans *)

(** X7: [ffs64] returns 0 for 0, and for any other 64-bit value the
    position, counted from 1, of its lowest set bit: that bit is set and
    every bit below it is clear. *)
Theorem ffs64_finds_lowest_bit (v : Z) :
  0 ≤ v < 2 ^ 64 →
  (v = 0 → ffs64 v = 0) ∧
  (0 < v → 1 ≤ ffs64 v ≤ 64 ∧ Z.testbit v (ffs64 v - 1) = true ∧
           ∀ i, 0 ≤ i < ffs64 v - 1 → Z.testbit v i = false).
Proof.
  intros Hv. split; [by intros ->|]. intros Hpos. apply ffs64_lowest_bit. lia.
Qed.

Lemma ffs64_finds_lowest_bit_witness :
  0 ≤ 2048 < 2 ^ 64 ∧
  (2048 = 0 → ffs64 2048 = 0) ∧
  (0 < 2048 → 1 ≤ ffs64 2048 ≤ 64 ∧ Z.testbit 2048 (ffs64 2048 - 1) = true ∧
              ∀ i, 0 ≤ i < ffs64 2048 - 1 → Z.testbit 2048 i = false).
Proof.
  split; [done|]. apply (ffs64_finds_lowest_bit 2048). done.
Defined.

(** X8: [fls64] returns 0 for 0, and for any other 64-bit value the
    position, counted from 1, of its highest set bit: that bit is set and
    every bit above it is clear. *)
Theorem fls64_finds_highest_bit (v : Z) :
  0 ≤ v < 2 ^ 64 →
  (v = 0 → fls64 v = 0) ∧
  (0 < v → 1 ≤ fls64 v ≤ 64 ∧ Z.testbit v (fls64 v - 1) = true ∧
           ∀ i, fls64 v ≤ i → Z.testbit v i = false).
Proof.
  intros Hv. split; [by intros ->|]. intros Hpos.
  assert (0 < v < 2 ^ 64) as Hv' by lia.
  destruct (fls64_bounds v Hv') as [Hr _]. rewrite fls64_log2 by done.
  rewrite fls64_log2 in Hr by done.
  split; [done|]. split.
  - replace (Z.log2 v + 1 - 1) with (Z.log2 v) by lia. by apply Z.bit_log2.
  - intros i Hi. apply Z.bits_above_log2; lia.
Qed.

Lemma fls64_finds_highest_bit_witness :
  0 ≤ 824 < 2 ^ 64 ∧
  (824 = 0 → fls64 824 = 0) ∧
  (0 < 824 → 1 ≤ fls64 824 ≤ 64 ∧ Z.testbit 824 (fls64 824 - 1) = true ∧
             ∀ i, fls64 824 ≤ i → Z.testbit 824 i = false).
Proof.
  split; [done|]. apply (fls64_finds_highest_bit 824). done.
Defined.

(** ** Round trips *)

(** X9: an offset translated to an address and back is the same offset,
    for every offset but the one that makes the address wrap to null:
    there the result is 0. *)
Theorem offset_addr_offset {L : Layout} (s : shm) (o : Z) :
  0 < shmhead s < 2 ^ 64 → 0 ≤ o < 2 ^ 64 →
  (a ← offset_to_addr o; addr_to_offset a) s
    = Ok (if decide (shmhead s + o = 2 ^ 64) then 0 else o, s).
Proof.
  intros Hh Ho. unfold mbind, M_bind, bind.
  assert (shmhead s ≠ NULL) as Hne by (unfold NULL; lia).
  destruct (Z.eq_dec o 0) as [->|Ho0].
  - rewrite offset_to_addr_zero, addr_to_offset_null by done.
    rewrite decide_False by lia. done.
  - rewrite offset_to_addr_eq by done. rewrite (u64_small (shmhead s)) by lia.
    case_decide as Hwrap.
    + rewrite Hwrap. change (Int.u64 (2 ^ 64)) with NULL.
      by rewrite addr_to_offset_null.
    + assert (Int.u64 (shmhead s + o) ≠ NULL) as Ha.
      { unfold Int.u64, NULL. intros Hz. apply Z.mod_divide in Hz as [c Hc]; [|lia].
        assert (c = 0 ∨ c = 1 ∨ c < 0 ∨ 2 ≤ c) as [->|[->|[?|?]]] by lia; lia. }
      rewrite addr_to_offset_eq by done. do 2 f_equal.
      rewrite (u64_small (shmhead s)) by lia. unfold Int.u64.
      rewrite Z.mod_mod by lia. rewrite Zminus_mod_idemp_l.
      replace (shmhead s + o - shmhead s) with o by lia. apply Z.mod_small. lia.
Qed.

Lemma offset_addr_offset_witness :
  (a ← offset_to_addr 4040; addr_to_offset a) seg4k
    = Ok (if decide (shmhead seg4k + 4040 = 2 ^ 64) then 0 else 4040, seg4k).
Proof.
  apply (offset_addr_offset (L:=lp64) seg4k 4040).
  - vm_compute. split; reflexivity.
  - done.
Defined.

Section list_round_trip.
Context {L : Layout}.
Context (Hsz : 0 < sizeof_shmlist).
Implicit Types (s : shm) (p q : Z) (R : Z → Prop).

Lemma link_eta (l : shmlist_t) : {| next := next l; prev := prev l |} = l.
Proof. by destruct l. Qed.

(** The links after [shmlist_add] followed by [shmlist_del]. *)
Lemma shmlist_add_del_links s R b p :
  mapped s → rings s R → R b → ¬ R p → is_link s p →
  wp (shmlist_add b p;; shmlist_del p)
    (λ _ s', (∀ q, q ≠ p → link_at s' q = link_at s q) ∧ self_ring s' p) s.
Proof.
  intros Hm HR Hb Hnp Hp.
  destruct (rings_elim Hsz s R b Hm HR Hb)
    as (Hlb & n & qb & HRn & HRqb & Hln & Hlqb & Enb & Eqb & Hnb & Hqbb).
  assert (next_of s b = n) as En.
  { unfold next_of. rewrite Enb. by apply addr_of_offset_of. }
  assert (n ≠ p) as Hnp' by (by intros ->).
  assert (b ≠ p) as Hbp by (by intros ->).
  apply wp_bind, shmlist_add_returns; [done|done|done|by rewrite En|].
  rewrite En. intros s1 Hat1 Hh1 Hz1.
  assert (mapped s1) as Hm1 by (unfold mapped; by rewrite Hh1, Hz1).
  assert (∀ q, is_link s1 q ↔ is_link s q) as Hl1
    by (intros q; unfold is_link, in_segment; by rewrite Hh1, Hz1).
  assert (∀ q, offset_of s1 q = offset_of s q) as Ho1
    by (intros q; unfold offset_of; by rewrite Hh1).
  assert (∀ o, addr_of s1 o = addr_of s o) as Ha1
    by (intros o; unfold addr_of; by rewrite Hh1).
  assert (next_of s1 p = n) as En1.
  { unfold next_of. rewrite Hat1, Ha1.
    rewrite decide_False, decide_True by done. cbn [next].
    by apply addr_of_offset_of. }
  assert (prev_of s1 p = b) as Eb1.
  { unfold prev_of. rewrite Hat1, Ha1.
    rewrite decide_False, decide_True by done. cbn [prev].
    by apply addr_of_offset_of. }
  apply shmlist_del_returns;
    [done|by apply Hl1|rewrite Eb1; by apply Hl1|rewrite En1; by apply Hl1|].
  rewrite En1, Eb1. clear En En1 Eb1. intros s2 Hat2 Hh2 Hz2. split.
  - intros q Hq. rewrite Hat2, !Hat1, !Ho1.
    rewrite (decide_False (P := q = p)) by done.
    repeat (case_decide; try done); cbn [next prev]; subst; try done;
      match goal with
      | |- _ = link_at s ?x => rewrite <- (link_eta (link_at s x))
      end; f_equal; congruence.
  - unfold self_ring. rewrite Hat2, decide_True by done. cbn [next prev].
    unfold offset_of. by rewrite Hh2.
Qed.

(** Whether a list is empty, after it is initialised and after a link is
    added to it. *)
Lemma shmlist_init_empty s p :
  mapped s → is_link s p →
  wp (shmlist_init p;; shmlist_empty p) (λ e _, e = true) s.
Proof.
  intros Hm Hp. apply wp_bind, shmlist_init_returns; [done|done|].
  set (s1 := store _ _ _).
  apply (wp_shmlist_empty p _ s1); [exact Hm|exact Hp|].
  apply Z.eqb_eq. unfold next_of, s1.
  rewrite !addr_of_store, link_at_store, decide_True by done.
  cbn [next]. by apply addr_of_offset_of.
Qed.

Lemma shmlist_add_not_empty s R b p :
  mapped s → rings s R → R b → ¬ R p → is_link s p →
  wp (shmlist_add b p;; shmlist_empty b) (λ e _, e = false) s.
Proof.
  intros Hm HR Hb Hnp Hp. apply wp_bind.
  eapply wp_mono; [by apply (shmlist_add_rings Hsz s R b p)|].
  cbv beta. intros _ s1 (Hm1 & HR1 & Hnb & _).
  destruct (HR1 b (or_introl Hb)) as ((Hlb & _) & _).
  apply wp_shmlist_empty; [done|done|].
  apply Z.eqb_neq. rewrite Hnb. by intros ->.
Qed.

End list_round_trip.

(** X10: a link added to a list and deleted again leaves every other
    link of the segment as it was, and is itself an empty ring; nothing but
    links is written. *)
Theorem shmlist_add_del_restores {L : Layout} (s : shm) (R : Z → Prop) (b p : Z) :
  0 < sizeof_shmlist → mapped s → rings s R → R b → ¬ R p → is_link s p →
  wp (shmlist_add b p;; shmlist_del p)
    (λ _ s', links_only s s' ∧
             (∀ q, q ≠ p → link_at s' q = link_at s q) ∧ self_ring s' p) s.
Proof.
  intros Hsz Hm HR Hb Hnp Hp.
  eapply wp_mono.
  { apply wp_keeps; [|by apply (shmlist_add_del_links Hsz s R b p)].
    instantiate (1 := λ _ s', links_only s s').
    wlp_step. eapply (wlp_frame _ links_only); [apply shmlist_add_links|].
    intros _ s1 Hs1. eapply (wlp_frame _ (λ s s', links_only s s' ∧ _));
      [apply shmlist_del_links|].
    intros _ s2 [Hs2 _]. by apply (links_only_trans s s1 s2). }
  cbv beta. intros _ s' [[? ?] ?]. done.
Qed.

Lemma shmlist_add_del_restores_witness :
  let R := λ q, q = 0x7f0000000000 + 192 ∨ q = 0x7f0000000000 + 2056 in
  let b := 0x7f0000000000 + 192 in
  let p := 0x7f0000000000 + 4040 in
  wp (shmlist_add (L:=lp64) b p;; shmlist_del (L:=lp64) p)
    (λ _ s', links_only seg4k s' ∧
             (∀ q, q ≠ p → link_at s' q = link_at seg4k q) ∧ self_ring s' p) seg4k.
Proof.
  intros R b p.
  apply (shmlist_add_del_restores (L:=lp64) seg4k R b p).
  - reflexivity.
  - split; vm_compute; congruence.
  - apply seg4k_ring.
  - by left.
  - unfold R, p. lia.
  - split; vm_compute; congruence.
Defined.

(** X11: [shmlist_empty] answers [true] on a list that has just been
    initialised, and [false] on a list to which a link has just been
    added. *)
Theorem shmlist_empty_after {L : Layout} (s : shm) (R : Z → Prop) (b p : Z) :
  0 < sizeof_shmlist → mapped s → rings s R → R b → ¬ R p → is_link s p →
  wp (shmlist_init p;; shmlist_empty p) (λ e _, e = true) s ∧
  wp (shmlist_add b p;; shmlist_empty b) (λ e _, e = false) s.
Proof.
  intros Hsz Hm HR Hb Hnp Hp. split.
  - by apply (shmlist_init_empty Hsz).
  - by apply (shmlist_add_not_empty Hsz s R).
Qed.

Lemma shmlist_empty_after_witness :
  let R := λ q, q = 0x7f0000000000 + 192 ∨ q = 0x7f0000000000 + 2056 in
  let b := 0x7f0000000000 + 192 in
  let p := 0x7f0000000000 + 4040 in
  wp (shmlist_init (L:=lp64) p;; shmlist_empty (L:=lp64) p) (λ e _, e = true) seg4k ∧
  wp (shmlist_add (L:=lp64) b p;; shmlist_empty (L:=lp64) b) (λ e _, e = false) seg4k.
Proof.
  intros R b p.
  apply (shmlist_empty_after (L:=lp64) seg4k R b p).
  - reflexivity.
  - split; vm_compute; congruence.
  - apply seg4k_ring.
  - by left.
  - unfold R, p. lia.
  - split; vm_compute; congruence.
Defined.

(** ** A segment smaller than the starting offset *)

Section undersized.
Context {L : Layout}.
Context (Hlay : layout_ok).
Implicit Types (s : shm).

(** Past the end of the segment the truncation loop finds no class: it
    runs down to a shift by -1. *)
Lemma truncate_class_faults size offset fuel : ∀ m s,
  segment_size s = size → 0 ≤ size < offset → offset + 2 ^ 30 < 2 ^ 64 →
  -1 ≤ m ≤ 30 → m + 1 < Z.of_nat fuel →
  truncate_class fuel offset m s = Fault.
Proof.
  induction fuel as [|fuel IH]; intros m s Hsize Hoff Hmax Hm Hfuel; [lia|].
  cbn [truncate_class]. unfold mbind, M_bind, bind, get.
  destruct (Z.eq_dec m (-1)) as [->|Hne]; [done|].
  rewrite shl1_small by lia. unfold defined.
  assert (0 < 2 ^ m ≤ 2 ^ 30)
    by (split; [apply Z.pow_pos_nonneg; lia|apply Z.pow_le_mono_r; lia]).
  rewrite u64_small by lia. rewrite Hsize.
  replace (size <? offset + 2 ^ m) with true by (symmetry; apply Z.ltb_lt; lia).
  apply IH; try done; lia.
Qed.

Lemma seed_round_faults size offset s :
  segment_size s = size → 0 ≤ size < offset → offset ≤ 2 ^ 30 →
  (2 ^ SHMCLASS_MIN_BITS | offset) →
  seed_round offset s = Fault.
Proof.
  intros Hsize Hoff Hmax Hal.
  assert (2 ^ 30 < 2 ^ 64) by done.
  assert (0 < offset < 2 ^ 64) as Ho64 by lia.
  pose proof (ffs64_multiple offset SHMCLASS_MIN_BITS Ho64 ltac:(done) Hal) as Hlow.
  assert (ffs64 offset - 1 ≤ 30) as Hhigh.
  { destruct (ffs64_lowest_bit offset Ho64) as (Hr & _ & _).
    destruct (ffs64_divides offset Ho64) as [c Hc'].
    destruct (Z.lt_ge_cases 30 (ffs64 offset - 1)) as [Hgt|]; [|lia].
    pose proof (Z.pow_le_mono_r 2 31 (ffs64 offset - 1) ltac:(lia) ltac:(lia)).
    assert (2 ^ 30 < 2 ^ 31) by done.
    assert (0 < c) by nia. nia. }
  unfold seed_round, mbind, M_bind, bind, get. rewrite min_size_64. unfold defined.
  rewrite Hsize. change (Int.u64 64) with 64.
  assert (Int.u64 (size - offset) = size - offset + 2 ^ 64) as ->.
  { unfold Int.u64. rewrite <- (Z.mod_add _ 1) by lia. apply Z.mod_small. lia. }
  replace (64 <=? size - offset + 2 ^ 64) with true by (symmetry; apply Z.leb_le; lia).
  cbn [negb].
  replace (SHMCLASS_MAX_BITS <? ffs64 offset - 1) with false
    by (symmetry; apply Z.ltb_ge; unfold SHMCLASS_MAX_BITS; lia).
  unfold assert. replace (SHMCLASS_MIN_BITS <=? ffs64 offset - 1) with true
    by (symmetry; by apply Z.leb_le).
  rewrite (truncate_class_faults size offset 64 _ s Hsize Hoff); [done|lia| |].
  - unfold SHMCLASS_MIN_BITS in *. lia.
  - change (Z.of_nat 64) with 64. lia.
Qed.

Lemma seed_rounds_faults size offset s rounds :
  segment_size s = size → 0 ≤ size < offset → offset ≤ 2 ^ 30 →
  (2 ^ SHMCLASS_MIN_BITS | offset) →
  seed_rounds rounds offset s = Fault.
Proof.
  intros Hsize Hoff Hmax Hal.
  induction rounds as [p IH|p IH|]; cbn [seed_rounds];
    unfold mbind, M_bind, bind;
    rewrite ?IH, ?(seed_round_faults size offset s) by done; done.
Qed.

End undersized.

(** X12: [shmmgr_init] does not reject a segment that holds the header
    but not the offset at which seeding starts.  The test of the seeding
    loop is unsigned, so the loop is entered, and the truncation loop then
    lowers the class until it shifts by -1: the call has no defined result
    and does not return. *)
Theorem shmmgr_init_undersized {L : Layout} (e : env) (size : Z) (hugetlb : bool)
    (id addr start : Z) (s0 : shm) :
  layout_ok → 0 < sizeof_shmhead < 2 ^ 29 → start_offset = Some start →
  sizeof_shmhead ≤ size → size < start →
  shmget e IPC_PRIVATE size (if hugetlb then 3968 else 1920) = id → 0 ≤ id →
  shmat e id = addr → addr ≠ Int.u64 (-1) → 0 < addr → addr + size ≤ 2 ^ 64 →
  shmmgr_init e size hugetlb s0 = Fault.
Proof.
  intros Hlay Hh Hso Hsize Hsmall Hget Hid Hat Hne Haddr Hend.
  destruct (start_offset_aligned Hh) as (start' & Hso' & Hlo & Hal).
  rewrite Hso in Hso'. injection Hso' as <-.
  unfold shmmgr_init. cbv zeta.
  assert ((if hugetlb
           then Z.lor (Z.lor (Z.lor 384 IPC_CREAT) IPC_EXCL) SHM_HUGETLB
           else Z.lor (Z.lor 384 IPC_CREAT) IPC_EXCL)
          = if hugetlb then 3968 else 1920) as -> by (by destruct hugetlb).
  rewrite Hget, Hat.
  replace (id <? 0) with false by (symmetry; apply Z.ltb_ge; lia).
  replace (addr =? Int.u64 (-1)) with false by (symmetry; by apply Z.eqb_neq).
  unfold init_segment.
  destruct (init_header_returns Hlay (set_ident id size (attached addr size)))
    as ([] & s1 & Hhead & _ & Hz1 & _); [split; [done|exact Hend]|done|done|done|].
  cbn [segment_size set_ident attached] in Hz1.
  unfold mbind, M_bind, bind, modify. rewrite Hhead, Hso. unfold defined.
  unfold seed, mbind, M_bind, bind, get.
  rewrite (seed_rounds_faults size start s1); [done|done|lia|lia|done].
Qed.

Lemma shmmgr_init_undersized_witness :
  shmmgr_init (L:=lp64) env_ok 1024 false detached = Fault.
Proof.
  apply (shmmgr_init_undersized (L:=lp64) env_ok 1024 false 5 0x7f0000000000 2048).
  - exact lp64_layout_ok.
  - done.
  - reflexivity.
  - done.
  - done.
  - reflexivity.
  - done.
  - reflexivity.
  - done.
  - done.
  - done.
Defined.

(** ** The arithmetic of buddies *)

Lemma testbit_u64 z i : 0 ≤ i →
  Z.testbit (Int.u64 z) i = if i <? 64 then Z.testbit z i else false.
Proof.
  intros Hi. unfold Int.u64. destruct (Z.ltb_spec i 64).
  - by apply Z.mod_pow2_bits_low.
  - apply Z.mod_pow2_bits_high. lia.
Qed.

Lemma testbit_above z i : 0 ≤ z < 2 ^ 64 → 64 ≤ i → Z.testbit z i = false.
Proof.
  intros Hz Hi. destruct (Z.eq_dec z 0) as [->|]; [apply Z.bits_0|].
  apply Z.bits_above_log2; [lia|].
  assert (Z.log2 z < 64) by (apply Z.log2_lt_pow2; lia). lia.
Qed.

Lemma bits_range z :
  0 ≤ z → (∀ i, 64 ≤ i → Z.testbit z i = false) → 0 ≤ z < 2 ^ 64.
Proof.
  intros Hz Hhigh. split; [done|].
  destruct (Z.eq_dec z 0) as [->|Hne]; [done|].
  apply Z.log2_lt_pow2; [lia|].
  destruct (Z.lt_ge_cases (Z.log2 z) 64) as [|Hge]; [done|].
  pose proof (Z.bit_log2 z ltac:(lia)) as Hb. rewrite Hhigh in Hb by lia. done.
Qed.

Lemma land_pow2_clear x m :
  0 ≤ m → Z.testbit x m = false → Z.land x (2 ^ m) = 0.
Proof.
  intros Hm Hb. apply Z.bits_inj'. intros j Hj.
  rewrite Z.land_spec, Z.bits_0, Z.pow2_bits_eqb by lia.
  destruct (Z.eqb_spec m j) as [<-|]; [by rewrite Hb|apply andb_false_r].
Qed.

(** The buddy of a chunk differs from it in the bit of its class. *)
Lemma offset_buddy_bits offset m i :
  0 ≤ offset < 2 ^ 64 → 0 ≤ m < 64 → 0 ≤ i →
  Z.testbit (offset_buddy offset (2 ^ m)) i
    = xorb (Z.testbit offset i) (i =? m).
Proof.
  intros Ho Hm Hi. unfold offset_buddy.
  assert (0 < 2 ^ m < 2 ^ 64)
    by (split; [apply Z.pow_pos_nonneg; lia|apply Z.pow_lt_mono_r; lia]).
  rewrite (u64_small (2 ^ m)) by lia.
  assert (Z.testbit offset m = negb (Z.land offset (2 ^ m) =? 0)) as Hbit.
  { destruct (Z.eqb_spec (Z.land offset (2 ^ m)) 0) as [Hz|Hnz]; cbn [negb].
    - assert (Z.testbit (Z.land offset (2 ^ m)) m = false) as Hb
        by (rewrite Hz; apply Z.bits_0).
      rewrite Z.land_spec, Z.pow2_bits_true, andb_true_r in Hb by lia. done.
    - destruct (Z.testbit offset m) eqn:Hb; [done|]. exfalso. apply Hnz.
      apply Z.bits_inj'. intros j Hj. rewrite Z.land_spec, Z.bits_0.
      rewrite Z.pow2_bits_eqb by lia.
      destruct (Z.eqb_spec m j) as [<-|]; [by rewrite Hb|apply andb_false_r]. }
  rewrite <- Hbit. destruct (Z.testbit offset m) eqn:Hb.
  - rewrite Z.land_spec, testbit_u64 by done. unfold Int.not.
    destruct (Z.ltb_spec i 64) as [Hlt|Hge].
    + rewrite Z.lnot_spec, Z.pow2_bits_eqb by lia.
      rewrite (Z.eqb_sym m i).
      destruct (Z.eqb_spec i m) as [->|]; [by rewrite Hb|].
      by destruct (Z.testbit offset i).
    + rewrite testbit_above by done.
      destruct (Z.eqb_spec i m); [lia|done].
  - rewrite Z.lor_spec, Z.pow2_bits_eqb by lia. rewrite (Z.eqb_sym m i).
    destruct (Z.eqb_spec i m) as [->|]; [by rewrite Hb|].
    by destruct (Z.testbit offset i).
Qed.

Lemma offset_buddy_lxor offset m :
  0 ≤ offset < 2 ^ 64 → 0 ≤ m < 64 →
  offset_buddy offset (2 ^ m) = Z.lxor offset (2 ^ m).
Proof.
  intros Ho Hm. apply Z.bits_inj'. intros i Hi.
  rewrite offset_buddy_bits, Z.lxor_spec, Z.pow2_bits_eqb by lia.
  by rewrite (Z.eqb_sym m i).
Qed.

Lemma offset_buddy_range offset m :
  0 ≤ offset < 2 ^ 64 → 0 ≤ m < 64 → 0 ≤ offset_buddy offset (2 ^ m) < 2 ^ 64.
Proof.
  intros Ho Hm.
  assert (0 ≤ offset_buddy offset (2 ^ m)) as Hpos.
  { rewrite offset_buddy_lxor by done. apply Z.lxor_nonneg.
    pose proof (Z.pow_nonneg 2 m). lia. }
  apply bits_range; [done|]. intros i Hi.
  rewrite offset_buddy_bits by lia. rewrite testbit_above by done.
  destruct (Z.eqb_spec i m); [lia|done].
Qed.

(** The merged chunk starts where the low bits of the offset are
    cleared. *)
Lemma merged_offset_bits offset k i :
  0 ≤ offset < 2 ^ 64 → 0 ≤ k ≤ 31 → 0 ≤ i →
  Z.testbit (merged_offset offset (Int.s32 (2 ^ k))) i
    = Z.testbit offset i && negb (i <? k).
Proof.
  intros Ho Hk Hi. unfold merged_offset.
  assert (Int.s32 (Int.s32 (2 ^ k) - 1) = Z.ones k) as ->.
  { rewrite Z.ones_equiv. destruct (Z.eq_dec k 31) as [->|Hne]; [done|].
    assert (0 < 2 ^ k ≤ 2 ^ 30)
      by (split; [apply Z.pow_pos_nonneg; lia|apply Z.pow_le_mono_r; lia]).
    assert (2 ^ 30 < 2 ^ 31) by done.
    rewrite (s32_small (2 ^ k)) by lia. rewrite s32_small by lia. lia. }
  rewrite Z.land_spec, testbit_u64 by done. unfold Int.not.
  destruct (Z.ltb_spec i 64) as [Hlt|Hge].
  - rewrite Z.lnot_spec by done. f_equal.
    destruct (Z.ltb_spec i k).
    + by rewrite Z.ones_spec_low by lia.
    + by rewrite Z.ones_spec_high by lia.
  - rewrite testbit_above by done. done.
Qed.

Lemma merged_offset_floor offset k :
  0 ≤ offset < 2 ^ 64 → 0 ≤ k ≤ 31 →
  merged_offset offset (Int.s32 (2 ^ k)) = 2 ^ k * (offset / 2 ^ k).
Proof.
  intros Ho Hk. apply Z.bits_inj'. intros i Hi.
  rewrite merged_offset_bits by done.
  rewrite Z.mul_comm, <- Z.shiftr_div_pow2, <- Z.shiftl_mul_pow2 by lia.
  destruct (Z.ltb_spec i k) as [Hlt|Hge]; cbn [negb].
  - rewrite Z.shiftl_spec_low by done. apply andb_false_r.
  - rewrite Z.shiftl_spec_high, Z.shiftr_spec by lia.
    rewrite andb_true_r. f_equal. lia.
Qed.

(** [coalesce] in terms of [offset_buddy] and [merged_offset]. *)
Lemma coalesce_unfold {L : Layout} fuel m offset chunk :
  coalesce fuel m offset chunk =
    (if negb (m <? SHMCLASS_MAX_BITS) then mret (m, chunk) else
     bit ← defined (Int.shl1 m);
     if offset_buddy offset bit <? Int.u64 sizeof_shmhead then mret (m, chunk) else
     buddy ← offset_to_addr (offset_buddy offset bit);
     a ← get_active buddy;
     cls ← get_mclass buddy;
     if a || negb (cls =? m) then mret (m, chunk) else
     shmlist_del (list_of buddy);;
     num_free_add m (-1);;
     bit' ← defined (Int.shl1 (m + 1));
     chunk' ← offset_to_addr (merged_offset offset bit');
     set_mclass chunk' (m + 1);;
     set_active chunk' false;;
     match fuel with
     | O => timeout
     | S fuel => coalesce fuel (m + 1) (merged_offset offset bit') chunk'
     end).
Proof. by destruct fuel. Qed.

(** X13: the buddy that [shmmgr_free] computes for a chunk of class
    [m] below [SHMCLASS_MAX_BITS] is the offset with bit [m] flipped, and
    the buddy of the buddy is the chunk; the offset it gives the merged
    chunk is the offset rounded down to a multiple of [2 ^ (m + 1)], which
    for a chunk at a multiple of [2 ^ m] is the lower of the chunk and its
    buddy. *)
Theorem buddy_arithmetic (offset m : Z) :
  0 ≤ offset < 2 ^ 64 → 0 ≤ m < SHMCLASS_MAX_BITS →
  ∃ bit bit',
    Int.shl1 m = Some bit ∧ Int.shl1 (m + 1) = Some bit' ∧
    offset_buddy offset bit = Z.lxor offset (2 ^ m) ∧
    offset_buddy (offset_buddy offset bit) bit = offset ∧
    merged_offset offset bit' = 2 ^ (m + 1) * (offset / 2 ^ (m + 1)) ∧
    ((2 ^ m | offset) →
     merged_offset offset bit' = Z.min offset (offset_buddy offset bit)).
Proof.
  unfold SHMCLASS_MAX_BITS. intros Ho Hm.
  exists (2 ^ m), (Int.s32 (2 ^ (m + 1))).
  assert (0 < 2 ^ m) as Hpos by (apply Z.pow_pos_nonneg; lia).
  split; [by apply shl1_small|]. split.
  { unfold Int.shl1.
    replace ((0 <=? m + 1) && (m + 1 <? 32)) with true
      by (symmetry; apply andb_true_iff; lia).
    by rewrite Z.shiftl_1_l. }
  split; [apply offset_buddy_lxor; lia|]. split.
  { rewrite (offset_buddy_lxor (offset_buddy _ _)), offset_buddy_lxor
      by (try apply offset_buddy_range; lia).
    by rewrite Z.lxor_assoc, Z.lxor_nilpotent, Z.lxor_0_r. }
  split; [apply merged_offset_floor; lia|].
  intros [c ->]. rewrite merged_offset_floor by lia.
  assert (2 ^ (m + 1) = 2 * 2 ^ m) as Hpow
    by (rewrite Z.pow_add_r, Z.pow_1_r by lia; lia).
  assert (Z.testbit (c * 2 ^ m) m = Z.odd c) as Hbit.
  { rewrite Z.mul_pow2_bits by lia. rewrite Z.sub_diag. apply Z.bit0_odd. }
  assert (∀ d, Z.odd d = false → Z.lxor (d * 2 ^ m) (2 ^ m) = d * 2 ^ m + 2 ^ m)
    as Heven.
  { intros d Hd. symmetry. apply Z.add_nocarry_lxor, land_pow2_clear; [lia|].
    rewrite Z.mul_pow2_bits by lia. rewrite Z.sub_diag. by rewrite Z.bit0_odd. }
  pose proof (Zdiv2_odd_eqn c) as Hc.
  replace (c * 2 ^ m / 2 ^ (m + 1)) with (Z.div2 c).
  2:{ rewrite Hpow, Z.div2_div. symmetry. apply Z.div_mul_cancel_r; lia. }
  rewrite offset_buddy_lxor by lia.
  destruct (Z.odd c) eqn:Hodd.
  - assert (Z.lxor (c * 2 ^ m) (2 ^ m) = (c - 1) * 2 ^ m) as ->.
    { replace (c * 2 ^ m) with ((c - 1) * 2 ^ m + 2 ^ m) by lia.
      rewrite <- (Heven (c - 1)).
      - by rewrite Z.lxor_assoc, Z.lxor_nilpotent, Z.lxor_0_r.
      - replace (c - 1) with (2 * Z.div2 c) by lia.
        rewrite Z.odd_mul. done. }
    nia.
  - rewrite (Heven c Hodd). nia.
Qed.

(** ** A buddy beyond the end of the segment *)

Lemma bind_fault_after {A B} (m : M A) (k : A → M B) (Q : A → shm → Prop) s :
  wp m Q s → (∀ a s1, Q a s1 → k a s1 = Fault) → (m ≫= k) s = Fault.
Proof.
  intros (a & s1 & Hm & HQ) Hk. unfold mbind, M_bind, bind. rewrite Hm.
  by apply Hk.
Qed.

Lemma mapping_end_ge (page size : Z) : 0 < page → size ≤ mapping_end page size.
Proof.
  intros Hpage. unfold mapping_end.
  pose proof (Z.div_mod (size + page - 1) page ltac:(lia)) as Hdiv.
  pose proof (Z.mod_pos_bound (size + page - 1) page Hpage) as Hmod.
  lia.
Qed.

(** X14: [shmmgr_free] tests the buddy of a chunk against the header of
    the segment but not against its end.  For a chunk of class [m] whose
    buddy, the offset with bit [m] flipped, lies at or past the end of the
    mapping of the segment, which is the segment size rounded up to whole
    pages, it reads the header of that buddy outside the mapping: the call
    has no defined result.  The chunk at offset 8192 of a 12 KiB segment,
    which [shmmgr_alloc(4000)] hands out, is one, with pages of 4 KiB. *)
Theorem free_reads_past_end {L : Layout} (s : shm) (page o m : Z) :
  mapped s → 0 < offsetof_list → 0 ≤ sizeof_shmhead < 2 ^ 64 →
  0 < o → o + offsetof_list ≤ segment_size s →
  mclass (default zero_chunk (chunks s !! o)) = m → 0 ≤ m < SHMCLASS_MAX_BITS →
  length (num_active s) = 32%nat →
  sizeof_shmhead ≤ Z.lxor o (2 ^ m) →
  0 < page → mapping_end page (segment_size s) ≤ Z.lxor o (2 ^ m) →
  shmhead s + Z.lxor o (2 ^ m) < 2 ^ 64 →
  shmmgr_free (shmhead s + o + offsetof_list) s = Fault.
Proof.
  intros Hmap Hol Hhd Ho Hin Hcls Hm Hlen Hlow Hpage Hpast' Hwrap.
  assert (segment_size s < Z.lxor o (2 ^ m) + offsetof_list) as Hpast.
  { pose proof (mapping_end_ge page (segment_size s) Hpage). lia. }
  clear Hpast'.
  pose proof Hmap as [Hpos Hend].
  assert (0 ≤ Z.lxor o (2 ^ m)) as Hbpos by lia.
  unfold shmmgr_free.
  assert (container_of (shmhead s + o + offsetof_list) = shmhead s + o) as ->.
  { unfold container_of.
    replace (shmhead s + o + offsetof_list - offsetof_list) with (shmhead s + o)
      by lia.
    apply u64_small. lia. }
  assert (in_segment s (shmhead s + o) offsetof_list = true) as Hchunk.
  { unfold in_segment. apply andb_true_iff. split; apply Z.leb_le; lia. }
  apply (bind_fault_after _ _ (λ a s1, a = m ∧ s1 = s)).
  { apply wp_get_mclass; [done|].
    by replace (shmhead s + o - shmhead s) with o by lia. }
  intros ? ? [-> ->].
  apply (bind_fault_after _ _ (λ _ s1, s1 = set_locked true s));
    [by apply wp_modify|]. intros _ ? ->.
  apply (bind_fault_after _ _
           (λ _ s1, shmhead s1 = shmhead s ∧ segment_size s1 = segment_size s ∧
                    length (num_active s1) = 32%nat)).
  { by apply wp_set_active. }
  intros _ s1 (Hh1 & Hz1 & Hlen1).
  apply (bind_fault_after _ _
           (λ _ s2, shmhead s2 = shmhead s ∧ segment_size s2 = segment_size s)).
  { apply wp_num_active_add; [unfold SHMCLASS_MAX_BITS in *; lia|done|done]. }
  intros _ s2 (Hh2 & Hz2).
  assert (mapped s2) as Hmap2 by (unfold mapped; by rewrite Hh2, Hz2).
  apply (bind_fault_after _ _ (λ a s3, a = o ∧ s3 = s2)).
  { apply wp_addr_to_offset; [done|]. split; [|done].
    unfold offset_of, NULL. destruct (Z.eqb_spec (shmhead s + o) 0); [lia|].
    rewrite Hh2. rewrite (u64_small (shmhead s + o)), (u64_small (shmhead s)) by lia.
    rewrite u64_small by lia. lia. }
  intros ? ? [-> ->].
  clear s1 Hh1 Hz1 Hlen1.
  assert (coalesce coalesce_rounds m o (shmhead s + o) s2 = Fault) as Hco.
  { rewrite coalesce_unfold.
    replace (m <? SHMCLASS_MAX_BITS) with true by (symmetry; apply Z.ltb_lt; lia).
    cbn [negb]. rewrite (shl1_small m) by (unfold SHMCLASS_MAX_BITS in *; lia).
    apply (bind_fault_after _ _ (λ a s3, a = 2 ^ m ∧ s3 = s2));
      [by apply wp_defined|]. intros ? ? [-> ->].
    rewrite offset_buddy_lxor
      by (unfold SHMCLASS_MAX_BITS in *; lia).
    rewrite (u64_small sizeof_shmhead) by done.
    replace (Z.lxor o (2 ^ m) <? sizeof_shmhead) with false
      by (symmetry; apply Z.ltb_ge; lia).
    apply (bind_fault_after _ _
             (λ a s3, a = shmhead s + Z.lxor o (2 ^ m) ∧ s3 = s2)).
    { apply wp_offset_to_addr; [done|]. split; [|done].
      unfold addr_of. destruct (Z.eqb_spec (Z.lxor o (2 ^ m)) 0); [lia|].
      rewrite Hh2, (u64_small (shmhead s)) by lia. apply u64_small. lia. }
    intros ? ? [-> ->].
    unfold get_active, load_chunk, mbind, M_bind, bind.
    replace (in_segment s2 (shmhead s + Z.lxor o (2 ^ m)) offsetof_list) with false;
      [done|].
    symmetry. unfold in_segment. rewrite Hh2, Hz2.
    apply andb_false_iff. right. apply Z.leb_gt. lia. }
  unfold mbind, M_bind, bind in Hco |- *. by rewrite Hco.
Qed.

(** On a fresh segment of 12 KiB [shmmgr_alloc(4000)] hands out the chunk at
    offset 8192. *)
Lemma seg12k_alloc_result :
  shmmgr_alloc (L:=lp64) 4000 seg12k
    = Ok (shmhead seg12k + 8192 + offsetof_list (Layout:=lp64), seg12k_alloc).
Proof. vm_compute. reflexivity. Qed.

Lemma free_reads_past_end_witness :
  shmmgr_free (L:=lp64) (shmhead seg12k_alloc + 8192 + offsetof_list (Layout:=lp64))
    seg12k_alloc = Fault.
Proof.
  apply (free_reads_past_end (L:=lp64) seg12k_alloc 4096 8192 12).
  - split; vm_compute; congruence.
  - reflexivity.
  - done.
  - done.
  - vm_compute. congruence.
  - vm_compute. reflexivity.
  - done.
  - vm_compute. reflexivity.
  - vm_compute. congruence.
  - reflexivity.
  - vm_compute. congruence.
  - vm_compute. reflexivity.
Defined.

Lemma buddy_arithmetic_witness :
  ∃ bit bit',
    Int.shl1 12 = Some bit ∧ Int.shl1 (12 + 1) = Some bit' ∧
    offset_buddy 8192 bit = Z.lxor 8192 (2 ^ 12) ∧
    offset_buddy (offset_buddy 8192 bit) bit = 8192 ∧
    merged_offset 8192 bit' = 2 ^ (12 + 1) * (8192 / 2 ^ (12 + 1)) ∧
    ((2 ^ 12 | 8192) →
     merged_offset 8192 bit' = Z.min 8192 (offset_buddy 8192 bit)).
Proof.
  apply (buddy_arithmetic 8192 12); done.
Defined.

(** ** Requests at the ends of the range *)

(** X15: [shmmgr_alloc] sees its argument only through
    [size + offset_of(shmchunk_t, list) - 1], computed in 64 bits.  A
    request of 0 bytes, and a request so large that this sum wraps around
    2^64, are served exactly like a request of 1 byte, by a chunk of the
    smallest class. *)
Theorem alloc_wrapped_size {L : Layout} (s : shm) (n : Z) :
  0 < offsetof_list < 2 ^ SHMCLASS_MIN_BITS →
  n = 0 ∨ 2 ^ 64 - offsetof_list < n < 2 ^ 64 →
  shmmgr_alloc n s = shmmgr_alloc 1 s.
Proof.
  intros Hol Hn. change (2 ^ SHMCLASS_MIN_BITS) with 64 in Hol.
  assert (∀ v, 0 ≤ v < 64 → fls64 v ≤ SHMCLASS_MIN_BITS) as Hsmall.
  { intros v Hv. unfold SHMCLASS_MIN_BITS.
    destruct (Z.eq_dec v 0) as [->|]; [done|].
    assert (64 < 2 ^ 64) by done.
    destruct (fls64_bounds v ltac:(lia)) as [Hr [Hlo _]].
    destruct (Z.lt_ge_cases 6 (fls64 v)) as [Hgt|]; [|lia].
    pose proof (Z.pow_le_mono_r 2 6 (fls64 v - 1) ltac:(lia) ltac:(lia)) as Hp.
    change (2 ^ 6) with 64 in Hp. lia. }
  assert (∀ k, request_class k ≤ SHMCLASS_MIN_BITS →
            shmmgr_alloc k s
            = (pthread_mutex_lock;;
               fl ← free_list SHMCLASS_MIN_BITS;
               e ← shmlist_empty fl;
               ok ← (if e : bool
                     then shmmgr_split_chunk split_depth (SHMCLASS_MIN_BITS + 1)
                     else mret true);
               if negb ok then pthread_mutex_unlock;; mret NULL
               else take_first_chunk SHMCLASS_MIN_BITS) s) as Hmin.
  { intros k Hk. rewrite alloc_unfold. cbv zeta.
    replace (SHMCLASS_MAX_BITS <? request_class k) with false
      by (symmetry; apply Z.ltb_ge; unfold SHMCLASS_MIN_BITS, SHMCLASS_MAX_BITS in *; lia).
    destruct (Z.ltb_spec (request_class k) SHMCLASS_MIN_BITS) as [|Hge]; [done|].
    by replace (request_class k) with SHMCLASS_MIN_BITS by lia. }
  assert (64 < 2 ^ 64) by done.
  assert (request_class 1 ≤ SHMCLASS_MIN_BITS) as H1.
  { unfold request_class. apply Hsmall. rewrite u64_small by lia. lia. }
  assert (request_class n ≤ SHMCLASS_MIN_BITS) as Hn'.
  { unfold request_class. apply Hsmall. destruct Hn as [->|Hn].
    - rewrite u64_small by lia. lia.
    - unfold Int.u64. rewrite <- (Z.mod_add _ (-1)) by lia.
      rewrite Z.mod_small by lia. lia. }
  by rewrite (Hmin n Hn'), (Hmin 1 H1).
Qed.

Lemma alloc_wrapped_size_witness :
  shmmgr_alloc (L:=lp64) (2 ^ 64 - 1) seg4k = shmmgr_alloc (L:=lp64) 1 seg4k.
Proof.
  apply (alloc_wrapped_size (L:=lp64) seg4k (2 ^ 64 - 1)).
  - done.
  - right. done.
Defined.

(** ** shmmgr_dump *)

Lemma dump_class_returns s m used free :
  SHMCLASS_MIN_BITS ≤ m ≤ SHMCLASS_MAX_BITS →
  array_get (num_active s) m = Some used →
  array_get (num_free s) m = Some free →
  dump_class m s
    = Ok (ClassLine (2 ^ (m mod 10)) (class_unit m) (u32 used) (u32 free), s).
Proof.
  unfold SHMCLASS_MIN_BITS, SHMCLASS_MAX_BITS. intros Hm Hused Hfree.
  unfold dump_class, class_unit, mbind, M_bind, bind, get.
  rewrite Hused, Hfree. unfold defined.
  assert (∀ k, 0 ≤ k < 10 → Int.shl1 k = Some (2 ^ k) ∧ u32 (2 ^ k) = 2 ^ k) as Hk.
  { intros k Hk. split; [apply shl1_small; lia|].
    unfold u32. apply Z.mod_small.
    split; [apply Z.pow_nonneg; lia|apply Z.pow_lt_mono_r; lia]. }
  assert (m mod 10 = m - 10 * (m / 10)) as Hmod
    by (pose proof (Z.div_mod m 10 ltac:(lia)); lia).
  assert (0 ≤ m mod 10 < 10) as Hr by (apply Z.mod_pos_bound; lia).
  destruct (Z.ltb_spec m 10);
    [|destruct (Z.ltb_spec m 20); [|destruct (Z.ltb_spec m 30)]].
  - assert (m / 10 = 0) as Hq by (apply Z.div_small; lia).
    replace m with (m mod 10) at 1 by lia.
    destruct (Hk (m mod 10) Hr) as [-> ->]. done.
  - assert (m / 10 = 1) as Hq by (symmetry; apply (Z.div_unique m 10 1 (m - 10)); lia).
    replace (m - 10) with (m mod 10) by lia.
    destruct (Hk (m mod 10) Hr) as [-> ->]. done.
  - assert (m / 10 = 2) as Hq by (symmetry; apply (Z.div_unique m 10 2 (m - 20)); lia).
    replace (m - 20) with (m mod 10) by lia.
    destruct (Hk (m mod 10) Hr) as [-> ->]. done.
  - assert (m / 10 = 3) as Hq by (symmetry; apply (Z.div_unique m 10 3 (m - 30)); lia).
    replace (m - 30) with (m mod 10) by lia.
    destruct (Hk (m mod 10) Hr) as [-> ->]. done.
Qed.

Lemma dump_classes_returns s l :
  length (num_active s) = 32%nat → length (num_free s) = 32%nat →
  Forall (λ m, SHMCLASS_MIN_BITS ≤ m ≤ SHMCLASS_MAX_BITS) l →
  dump_classes l s
    = Ok ((λ m, ClassLine (2 ^ (m mod 10)) (class_unit m)
                  (u32 (num_active s !!! Z.to_nat m))
                  (u32 (num_free s !!! Z.to_nat m))) <$> l, s).
Proof.
  intros Hna Hnf Hl. induction Hl as [|m l Hm Hl IH]; [done|].
  cbn [dump_classes fmap list_fmap]. unfold mbind, M_bind, bind.
  assert (∀ a, length a = 32%nat → array_get a m = Some (a !!! Z.to_nat m)) as Hget.
  { intros a Ha. unfold array_get.
    replace (0 <=? m) with true
      by (symmetry; apply Z.leb_le; unfold SHMCLASS_MIN_BITS in *; lia).
    apply list_lookup_lookup_total_lt.
    unfold SHMCLASS_MAX_BITS in *. lia. }
  rewrite (dump_class_returns s m _ _ Hm (Hget _ Hna) (Hget _ Hnf)).
  fold (dump_classes l). by rewrite IH.
Qed.

(** X16: [shmmgr_dump] prints nothing when no segment is attached.
    Otherwise, between taking and releasing the lock, it prints the
    segment size, then for each class [m] from [SHMCLASS_MIN_BITS] to
    [SHMCLASS_MAX_BITS] the amount [2 ^ (m mod 10)] in bytes, KB, MB or GB
    with the two counters of the class, and then three totals, which are 0
    whatever the counters hold: the totals are never added up. *)
Theorem dump_reports (s : shm) :
  length (num_active s) = 32%nat → length (num_free s) = 32%nat →
  (shmhead s = NULL → shmmgr_dump s = Ok ([], s)) ∧
  (shmhead s ≠ NULL →
   shmmgr_dump s
     = Ok (SegmentSize (segment_size s) ::
           ((λ m, ClassLine (2 ^ (m mod 10)) (class_unit m)
                    (u32 (num_active s !!! Z.to_nat m))
                    (u32 (num_free s !!! Z.to_nat m)))
              <$> seqZ SHMCLASS_MIN_BITS 26) ++
           [TotalActive 0; TotalFree 0; TotalSize 0],
           set_locked false (set_locked true s))).
Proof.
  intros Hna Hnf.
  split; intros Hhead; unfold shmmgr_dump; cbv zeta;
    unfold mbind at 1, M_bind at 1, bind at 1, get at 1; cbv beta iota.
  - by rewrite (proj2 (Z.eqb_eq _ _) Hhead).
  - destruct (shmhead s =? NULL) eqn:E; [by apply Z.eqb_eq in E|].
    unfold pthread_mutex_lock, pthread_mutex_unlock, modify, mbind, M_bind, bind, get.
    cbv beta iota.
    rewrite (dump_classes_returns (set_locked true s)); [done|done|done|].
    apply Forall_forall. intros m Hm%elem_of_seqZ.
    unfold SHMCLASS_MIN_BITS, SHMCLASS_MAX_BITS in *. lia.
Qed.

Lemma dump_reports_witness :
  (shmhead seg4k = NULL → shmmgr_dump seg4k = Ok ([], seg4k)) ∧
  (shmhead seg4k ≠ NULL →
   shmmgr_dump seg4k
     = Ok (SegmentSize (segment_size seg4k) ::
           ((λ m, ClassLine (2 ^ (m mod 10)) (class_unit m)
                    (u32 (num_active seg4k !!! Z.to_nat m))
                    (u32 (num_free seg4k !!! Z.to_nat m)))
              <$> seqZ SHMCLASS_MIN_BITS 26) ++
           [TotalActive 0; TotalFree 0; TotalSize 0],
           set_locked false (set_locked true seg4k))).
Proof.
  apply (dump_reports seg4k); vm_compute; reflexivity.
Defined.
